(** * Pacific SST-gradient trend pipeline: a shallow embedding

    Source files: [FP_classes.py] (classes [Gradient], [Trend]) and
    [FP_functions.py] ([ConcatModels], [ExtendPeriod]).

    Conventions of the embedding.
    - Python floats are idealised as rationals [Q]; the float [nan] that the
      code writes as a missing marker is the constructor [NaN] of [Cell].
    - Python exceptions are values of [PyExn]; a function that may raise
      returns [PyExn + A].
    - Python [dict]s keyed by year pairs are [gmap]s; the scenario registry,
      whose iteration order the code relies on, is an insertion-ordered
      association list.
    - Coordinate labels are rationals, and a label slice is resolved as the
      pandas index of the coordinate resolves it: by position, with
      [KeyError] on an index in no order that lacks a bound. *)

From Stdlib Require Import ZArith QArith Qfield Lqa Lia List Ascii String DecimalString.
From stdpp Require Import gmap strings list sorting.

Import ListNotations.
Local Open Scope Z_scope.

(** ** Exceptions and results *)

Inductive PyExn : Type :=
  | TypeError
  | ValueError
  | IndexError
  | KeyError
  | UnboundLocalError
  | LinAlgError
  | AttributeError.

Definition Result (A : Type) : Type := (PyExn + A)%type.

Definition rbind {A B} (r : Result A) (k : A -> Result B) : Result B :=
  match r with
  | inl e => inl e
  | inr a => k a
  end.

(** ** Calendar instants

    A time value is compared field by field (year, month, day, and the
    sub-day remainder in nanoseconds), which is the chronological order of
    both [numpy.datetime64] and [cftime] dates. *)

Record Date : Type := mkDate {
  d_year : Z;
  d_month : Z;
  d_day : Z;
  d_nanos : Z
}.

Definition date_ltb (a b : Date) : bool :=
  (d_year a <? d_year b) ||
  ((d_year a =? d_year b) &&
   ((d_month a <? d_month b) ||
    ((d_month a =? d_month b) &&
     ((d_day a <? d_day b) ||
      ((d_day a =? d_day b) && (d_nanos a <? d_nanos b)))))).

Definition date_eqb (a b : Date) : bool :=
  (d_year a =? d_year b) && (d_month a =? d_month b) &&
  (d_day a =? d_day b) && (d_nanos a =? d_nanos b).

Definition date_leb (a b : Date) : bool := date_ltb a b || date_eqb a b.

(** [np.datetime64('YYYY-MM-DD')] and [cftime.DatetimeNoLeap(Y, M, D)]:
    midnight of the given day. *)
Definition midnight (y m d : Z) : Date := mkDate y m d 0.

(** A time axis in strictly increasing, and in non-decreasing, order. *)
Fixpoint strictly_increasing (l : list Date) : bool :=
  match l with
  | [] => true
  | a :: l' =>
      match l' with
      | [] => true
      | b :: _ => date_ltb a b && strictly_increasing l'
      end
  end.

Fixpoint ascending (l : list Date) : bool :=
  match l with
  | [] => true
  | a :: l' =>
      match l' with
      | [] => true
      | b :: _ => date_leb a b && ascending l'
      end
  end.

(** Python's [range(a, b, 1)]. *)
Definition range (a b : Z) : list Z :=
  map (fun i : nat => a + Z.of_nat i) (seq 0 (Z.to_nat (b - a))).

(** ** Numerics: sums and the degree-one least-squares fit *)

Module Numerics.

Definition Qsum (l : list Q) : Q := fold_right Qplus (0%Q) l.

Definition Qdot (x y : list Q) : Q :=
  Qsum (map (fun p : Q * Q => (fst p * snd p)%Q) (combine x y)).

Definition Qlen (l : list Q) : Q := inject_Z (Z.of_nat (length l)).

(** Numerator and denominator of the ordinary-least-squares slope of [y]
    against [x]. *)
Definition ols_num (x y : list Q) : Q :=
  (Qlen x * Qdot x y - Qsum x * Qsum y)%Q.

Definition ols_den (x : list Q) : Q :=
  (Qlen x * Qdot x x - Qsum x * Qsum x)%Q.

Definition ols_slope (x y : list Q) : Q := (ols_num x y / ols_den x)%Q.

Definition ols_intercept (x y : list Q) : Q :=
  ((Qsum y - ols_slope x y * Qsum x) / Qlen x)%Q.

(** The abscissae moved by [k], and the ordinates of the line
    [a + b * x]. *)
Definition shift (k : Q) (x : list Q) : list Q := map (fun xi => (xi + k)%Q) x.

Definition on_line (a b : Q) (x : list Q) : list Q :=
  map (fun xi => (a + b * xi)%Q) x.

(** The sum of squared residuals of the line [c + m * x]. *)
Definition sse (m c : Q) (x y : list Q) : Q :=
  Qsum (map (fun p : Q * Q => ((snd p - (c + m * fst p)) * (snd p - (c + m * fst p)))%Q)
            (combine x y)).

(** [np.polyfit(x, y, 1)]: the argument checks of numpy, then the
    least-squares line, highest power first.  [x] is an integer array that
    numpy converts to floating point. *)
Definition polyfit (x : list Z) (y : list Q) : Result (Q * Q) :=
  let xq := map inject_Z x in
  if (length x =? 0)%nat then inl TypeError
  else if negb (length x =? length y)%nat then inl TypeError
  else inr (ols_slope xq y, ols_intercept xq y).

End Numerics.

(** ** The moving-window trend matrix ([Trend.CalculateTrends]) *)

Module Trend.

Import Numerics.

Inductive Cell : Type :=
  | Val (q : Q)
  | NaN.

(** The gradient series: one (time, value) sample per entry, the time axis
    already normalised to [datetime64] by the loader. *)
Definition Series : Type := list (Date * Q).

(** A computation inside the [try] block: it reads and writes
    [self.trends] and may raise; what was written before a raise stays. *)
Definition M (A : Type) : Type :=
  gmap (Z * Z) Cell -> Result A * gmap (Z * Z) Cell.

Definition ret {A} (a : A) : M A := fun st => (inr a, st).

Definition bind {A B} (m : M A) (k : A -> M B) : M B :=
  fun st =>
    match m st with
    | (inl e, st') => (inl e, st')
    | (inr a, st') => k a st'
    end.

Definition lift {A} (r : Result A) : M A := fun st => (r, st).

(** [self.trends[start_year, end_year] = v] *)
Definition setitem (k : Z * Z) (v : Cell) : M unit :=
  fun st => (inr tt, <[k := v]> st).

Fixpoint for_in {A} (xs : list A) (body : A -> M unit) : M unit :=
  match xs with
  | [] => ret tt
  | x :: xs' => bind (body x) (fun _ => for_in xs' body)
  end.

(** Timing constants of [CalculateTrends]. *)
Definition monStart : Z := 1.
Definition monEnd : Z := 12.
Definition yearStart : Z := 1870.
Definition yearEnd : Z := 2024.
Definition dayStart : Z := 1.
Definition dayEnd : Z := 31.
Definition interval : Z := 1.
Definition trendLength : Z := 120.

(** [self.gradient.sel(time = (time >= start_date) & (time <= end_date))] *)
Definition in_window (start_date end_date : Date) (s : Date * Q) : bool :=
  date_leb start_date (fst s) && date_leb (fst s) end_date.

Definition sel_time (g : Series) (start_date end_date : Date) : Series :=
  List.filter (in_window start_date end_date) g.

Section Loop.

(** The fitting routine.  [CalculateTrends] below instantiates it with
    [polyfit]; the loop is written once for any routine so that the effect
    of a raise inside the fit can be stated ([np.polyfit] solves with
    [numpy.linalg.lstsq], which raises [LinAlgError] when its computation
    does not converge). *)
Variable fit : list Z -> list Q -> Result (Q * Q).

Variable gradient : Series.
Variable minTrend : Z.

Definition indexTime : list Z :=
  map Z.of_nat (seq 0 (length gradient)).

Definition cell_step (start_year end_year : Z) : M unit :=
  if start_year >=? end_year then
    setitem (start_year, end_year) NaN
  else if end_year - start_year <? minTrend then
    setitem (start_year, end_year) NaN
  else
    let start_date := midnight start_year monStart dayStart in
    let end_date := midnight end_year monEnd dayEnd in
    let gradientSubset := sel_time gradient start_date end_date in
    let indexTimeSubset := firstn (length gradientSubset) indexTime in
    if 12 * interval <? Z.of_nat (length indexTimeSubset) then
      bind (lift (fit indexTimeSubset (map snd gradientSubset)))
        (fun '(slope, intercept) =>
           setitem (start_year, end_year)
                   (Val (slope * inject_Z trendLength)%Q))
    else
      setitem (start_year, end_year) NaN.

(** The value that one pass of the loop body stores under
    [(start_year, end_year)], or the exception it raises. *)
Definition cell_value (start_year end_year : Z) : Result Cell :=
  if start_year >=? end_year then inr NaN
  else if end_year - start_year <? minTrend then inr NaN
  else
    let gradientSubset :=
      sel_time gradient (midnight start_year monStart dayStart)
               (midnight end_year monEnd dayEnd) in
    let indexTimeSubset := firstn (length gradientSubset) indexTime in
    if 12 * interval <? Z.of_nat (length indexTimeSubset) then
      rbind (fit indexTimeSubset (map snd gradientSubset))
        (fun '(slope, intercept) => inr (Val (slope * inject_Z trendLength)%Q))
    else inr NaN.

Definition trend_loops : M unit :=
  for_in (range yearStart (yearEnd + 1 - minTrend))
    (fun start_year =>
       for_in (range (yearStart + minTrend) (yearEnd + 1))
         (fun end_year => cell_step start_year end_year)).

(** The whole method: [self.trends = {}], the loops, and the handler that
    prints the exception.  The result is the dictionary left in
    [self.trends] and the exception that was printed, if any. *)
Definition CalculateTrends_with : gmap (Z * Z) Cell * option PyExn :=
  match trend_loops ∅ with
  | (inl e, st) => (st, Some e)
  | (inr _, st) => (st, None)
  end.

End Loop.

(** The integer index [k, k+1, ..., k+n-1]; [arith_index 0 n] is the
    prefix of [indexTime] that the fit is given. *)
Definition arith_index (k : Z) (n : nat) : list Z :=
  map (fun i : nat => k + Z.of_nat i) (seq 0 n).

(** A series whose sample number [i] has the value [c * i]. *)
Definition linear_series (c : Q) (g : Series) : Prop :=
  forall i s, nth_error g i = Some s -> (snd s == c * inject_Z (Z.of_nat i))%Q.

(** The keys in the order in which the two loops visit them. *)
Definition cell_keys (minTrend : Z) : list (Z * Z) :=
  flat_map (fun start_year =>
              map (fun end_year => (start_year, end_year))
                  (range (yearStart + minTrend) (yearEnd + 1)))
           (range yearStart (yearEnd + 1 - minTrend)).

(** Storing cell after cell until one raises. *)
Fixpoint store_cells (value : Z * Z -> Result Cell) (keys : list (Z * Z))
  : M unit :=
  match keys with
  | [] => ret tt
  | k :: keys' =>
      bind (lift (value k)) (fun v =>
      bind (setitem k v) (fun _ => store_cells value keys'))
  end.

Definition CalculateTrends (gradient : Series) (minTrend : Z)
  : gmap (Z * Z) Cell * option PyExn :=
  CalculateTrends_with polyfit gradient minTrend.

(** Per-cell isolation as the specification words it: a raise inside the
    fit of one cell leaves that cell marked missing, and every cell of the
    key range is still present. *)
Definition per_cell_isolation (fit : list Z -> list Q -> Result (Q * Q))
    (gradient : Series) (minTrend : Z) : Prop :=
  forall s e err,
    In (s, e) (cell_keys minTrend) ->
    cell_value fit gradient minTrend s e = inl err ->
    fst (CalculateTrends_with fit gradient minTrend) !! (s, e) = Some NaN /\
    (forall s' e', In (s', e') (cell_keys minTrend) ->
       is_Some (fst (CalculateTrends_with fit gradient minTrend) !! (s', e'))).

End Trend.

(** ** Box averages and the gradient ([Gradient]) *)

Module Gradient.

Import Numerics.

(** The variable [ts] of a dataset: values indexed by (time, lat, lon),
    with the coordinate labels of each dimension. *)
Record DataArray : Type := mkDataArray {
  da_time : list Date;
  da_lat : list Q;
  da_lon : list Q;
  da_values : list (list (list Q))
}.

(** *** Label slices

    [da.sel(dim = slice(lo, hi))] asks the pandas index of the coordinate
    for the positions of the two labels ([Index.slice_indexer]) and takes
    the positional slice between them.  On a monotonic index a bound is
    found by bisection, which gives the number of leading labels that come
    before it; on any other index a bound has to be a label of the index,
    looked up by [get_loc]. *)

Fixpoint is_monotonic_increasing (index : list Q) : bool :=
  match index with
  | a :: rest =>
      match rest with
      | b :: _ => Qle_bool a b && is_monotonic_increasing rest
      | [] => true
      end
  | [] => true
  end.

Fixpoint is_monotonic_decreasing (index : list Q) : bool :=
  match index with
  | a :: rest =>
      match rest with
      | b :: _ => Qle_bool b a && is_monotonic_decreasing rest
      | [] => true
      end
  | [] => true
  end.

(** The length of the leading run of elements that satisfy [p]. *)
Fixpoint leading {A} (p : A -> bool) (l : list A) : nat :=
  match l with
  | x :: l' => if p x then S (leading p l') else O
  | [] => O
  end.

Inductive Side : Type := side_left | side_right.

(** [Index.get_loc(label)] on an index that is not monotonic, as the
    positions [start, stop) that hold the label: KeyError when the label
    is absent, and when its occurrences are not next to each other (no
    slice bound for a non-unique label). *)
Definition get_loc (label : Q) (index : list Q) : Result (nat * nat) :=
  let start := leading (fun c => negb (Qeq_bool c label)) index in
  let run := leading (fun c => Qeq_bool c label) (skipn start index) in
  if (run =? 0)%nat then inl KeyError
  else if existsb (fun c => Qeq_bool c label) (skipn (start + run) index)
       then inl KeyError
       else inr (start, (start + run)%nat).

(** [Index.get_slice_bound(label, side)].  An index that is both
    non-decreasing and non-increasing is treated as increasing. *)
Definition get_slice_bound (label : Q) (side : Side) (index : list Q) : Result nat :=
  if is_monotonic_increasing index then
    inr (leading (fun c => match side with
                           | side_left => negb (Qle_bool label c)
                           | side_right => Qle_bool c label
                           end) index)
  else if is_monotonic_decreasing index then
    inr (leading (fun c => match side with
                           | side_left => negb (Qle_bool c label)
                           | side_right => Qle_bool label c
                           end) index)
  else
    rbind (get_loc label index) (fun loc =>
    inr (match side with
         | side_left => fst loc
         | side_right => snd loc
         end)).

(** [Index.slice_indexer(lo, hi)]: the positions [start, stop). *)
Definition slice_indexer (lo hi : Q) (index : list Q) : Result (nat * nat) :=
  rbind (get_slice_bound lo side_left index) (fun start =>
  rbind (get_slice_bound hi side_right index) (fun stop =>
  inr (start, stop))).

(** [l[start:stop]] *)
Definition isel {A} (start stop : nat) (l : list A) : list A :=
  skipn start (firstn stop l).

(** The array on the positions [lons] of the longitudes and [lats] of the
    latitudes. *)
Definition isel_box (da : DataArray) (lons lats : nat * nat) : DataArray :=
  {| da_time := da_time da;
     da_lat := isel (fst lats) (snd lats) (da_lat da);
     da_lon := isel (fst lons) (snd lons) (da_lon da);
     da_values :=
       map (fun slab : list (list Q) =>
              map (isel (fst lons) (snd lons)) (isel (fst lats) (snd lats) slab))
           (da_values da) |}.

(** [da.sel(lon = slice(lonmin, lonmax), lat = slice(latmin, latmax))] *)
Definition sel_box (da : DataArray) (lonmin lonmax latmin latmax : Q) : Result DataArray :=
  rbind (slice_indexer lonmin lonmax (da_lon da)) (fun lons =>
  rbind (slice_indexer latmin latmax (da_lat da)) (fun lats =>
  inr (isel_box da lons lats))).

(** Every time step holds one row per latitude and one value per
    longitude. *)
Definition well_shaped (da : DataArray) : bool :=
  forallb (fun slab : list (list Q) =>
             (length slab =? length (da_lat da))%nat &&
             forallb (fun row : list Q => (length row =? length (da_lon da))%nat) slab)
          (da_values da).

(** One grid per time step, each of the shape of the coordinates. *)
Definition complete (da : DataArray) : bool :=
  (length (da_time da) =? length (da_values da))%nat && well_shaped da.

(** Every value of a grid is [c]. *)
Definition constant_slab (c : Q) (slab : list (list Q)) : bool :=
  forallb (forallb (fun x => Qeq_bool x c)) slab.

(** A field that is constant in space: at the [t]-th time step every
    value of the array is the [t]-th element of [cs]. *)
Definition uniform_field (cs : list Q) (da : DataArray) : bool :=
  (length cs =? length (da_values da))%nat &&
  forallb (fun p : Q * list (list Q) => constant_slab (fst p) (snd p))
          (combine cs (da_values da)).

(** [SliceRegions]: the East and West boxes of Seager et al. 2022.  Both
    selections are inside one [try]: when one raises, the handler prints
    the exception, and that box and the ones after it keep the [None] the
    constructor gave them.  The result is [self.boxE], [self.boxW] and
    the exception that was printed, if any. *)
Definition SliceRegions (ts : DataArray)
  : option DataArray * option DataArray * option PyExn :=
  let '(lonminE, lonmaxE) := (190 # 1, 270 # 1)%Q in
  let '(latminE, latmaxE) := (- (3 # 1), 3 # 1)%Q in
  let '(lonminW, lonmaxW) := (140 # 1, 170 # 1)%Q in
  let '(latminW, latmaxW) := (- (3 # 1), 3 # 1)%Q in
  match sel_box ts lonminE lonmaxE latminE latmaxE with
  | inl e => (None, None, Some e)
  | inr boxE =>
      match sel_box ts lonminW lonmaxW latminW latmaxW with
      | inl e => (Some boxE, None, Some e)
      | inr boxW => (Some boxE, Some boxW, None)
      end
  end.

(** [da.weighted(w).mean(('lat', 'lon'))] at one time step: the weights
    are broadcast along [lon]; the quotient is missing when the weights
    sum to zero. *)
Definition weighted_sum (w : list Q) (slab : list (list Q)) : Q :=
  Qsum (map (fun p : Q * list Q => Qsum (map (fun x => (fst p * x)%Q) (snd p)))
            (combine w slab)).

Definition sum_of_weights (w : list Q) (slab : list (list Q)) : Q :=
  Qsum (map (fun p : Q * list Q => Qsum (map (fun _ : Q => fst p) (snd p)))
            (combine w slab)).

Definition weighted_mean (w : list Q) (slab : list (list Q)) : option Q :=
  if Qeq_bool (sum_of_weights w slab) 0 then None
  else Some (weighted_sum w slab / sum_of_weights w slab)%Q.

(** Pointwise difference of two box means; missing on either side gives
    missing. *)
Definition minus_missing (a b : option Q) : option Q :=
  match a, b with
  | Some x, Some y => Some (x - y)%Q
  | _, _ => None
  end.

Section Weights.

(** [np.cos(np.radians(lat))], which has no rational closed form, is a
    parameter of the embedding. *)
Variable cos_radians : Q -> Q.

Definition box_mean (box : DataArray) : list (option Q) :=
  let weights := map cos_radians (da_lat box) in
  map (weighted_mean weights) (da_values box).

(** [CalculateGradient]: West-box mean minus East-box mean, inside one
    [try].  [self.boxE.lat] on a box that is still [None] raises
    AttributeError, which the handler prints; [self.gradient] is then left
    unassigned.  The result is [self.gradient], if it was assigned, and
    the exception that was printed, if any. *)
Definition CalculateGradient (boxE boxW : option DataArray)
  : option (list (option Q)) * option PyExn :=
  match boxE with
  | None => (None, Some AttributeError)
  | Some boxE =>
      match boxW with
      | None => (None, Some AttributeError)
      | Some boxW =>
          let meansstE := box_mean boxE in
          let meansstW := box_mean boxW in
          (Some (map (fun p : option Q * option Q => minus_missing (fst p) (snd p))
                     (combine meansstW meansstE)), None)
      end
  end.

(** [ExecuteAllSteps], called by the constructor before [self.gradient]
    exists: returning an attribute that was never assigned raises
    AttributeError. *)
Definition ExecuteAllSteps (ts : DataArray) : Result (list (option Q)) :=
  let '(boxE, boxW, _) := SliceRegions ts in
  let '(gradient, _) := CalculateGradient boxE boxW in
  match gradient with
  | Some g => inr g
  | None => inl AttributeError
  end.

End Weights.

End Gradient.

(** ** Stitching and extending runs ([ConcatModels], [ExtendPeriod]) *)

Module Continuity.

(** The Python class of the elements of a time axis as xarray decodes it. *)
Inductive TimeClass : Type :=
  | Datetime64
  | DatetimeNoLeap
  | OtherCftime.

Record TimeValue : Type := mkTimeValue {
  tv_class : TimeClass;
  tv_date : Date
}.

Definition class_eqb (a b : TimeClass) : bool :=
  match a, b with
  | Datetime64, Datetime64 => true
  | DatetimeNoLeap, DatetimeNoLeap => true
  | OtherCftime, OtherCftime => true
  | _, _ => false
  end.

(** A Python [dict] with string keys, in insertion order. *)
Definition Dict (V : Type) : Type := list (string * V).

Fixpoint dict_get {V} (k : string) (d : Dict V) : option V :=
  match d with
  | [] => None
  | (k', v) :: d' => if String.eqb k k' then Some v else dict_get k d'
  end.

(** [d[k] = v]: an existing key keeps its position. *)
Fixpoint dict_set {V} (k : string) (v : V) (d : Dict V) : Dict V :=
  match d with
  | [] => [(k, v)]
  | (k', v') :: d' =>
      if String.eqb k k' then (k, v) :: d' else (k', v') :: dict_set k v d'
  end.

Definition dict_keys {V} (d : Dict V) : list string := map fst d.

Definition dict_mem {V} (k : string) (d : Dict V) : bool :=
  existsb (String.eqb k) (dict_keys d).

(** [d[k]] *)
Definition dict_item {V} (k : string) (d : Dict V) : Result V :=
  match dict_get k d with
  | Some v => inr v
  | None => inl KeyError
  end.

(** [l[i]] *)
Definition list_item {A} (l : list A) (i : nat) : Result A :=
  match nth_error l i with
  | Some a => inr a
  | None => inl IndexError
  end.

(** [s.index(c)] and [s[:n]] *)
Fixpoint str_index (c : ascii) (s : string) : Result nat :=
  match s with
  | EmptyString => inl ValueError
  | String a s' =>
      if Ascii.eqb a c then inr O
      else rbind (str_index c s') (fun i => inr (S i))
  end.

Definition str_prefix (n : nat) (s : string) : string := substring 0 n s.

(** [str(n)] *)
Definition str_of_nat (n : nat) : string :=
  NilZero.string_of_uint (Nat.to_uint n).

(** [random.choice(seq)], the draw being decided by [entropy]. *)
Definition random_choice {A} (entropy : nat) (seq : list A) : Result A :=
  match seq with
  | [] => inl IndexError
  | _ => list_item seq (entropy mod length seq)%nat
  end.

Fixpoint mapM {A B} (f : A -> Result B) (l : list A) : Result (list B) :=
  match l with
  | [] => inr []
  | a :: l' =>
      rbind (f a) (fun b => rbind (mapM f l') (fun bs => inr (b :: bs)))
  end.

Section Datasets.

(** What a dataset holds at one time step is opaque here. *)
Variable Payload : Type.

Record Dataset : Type := mkDataset {
  attrs : Dict string;
  rows : list (TimeValue * Payload)
}.

Definition time_axis (ds : Dataset) : list Date :=
  map (fun r : TimeValue * Payload => tv_date (fst r)) (rows ds).

(** [xr.concat([a, b], dim = 'time')]: the rows of [a], then those of
    [b]; the attributes of the first dataset. *)
Definition xr_concat (a b : Dataset) : Dataset :=
  {| attrs := attrs a; rows := rows a ++ rows b |}.

(** [ds.sortby('time')]: a stable sort.  Time values of different classes
    cannot be ordered. *)
Fixpoint insert_row (r : TimeValue * Payload) (l : list (TimeValue * Payload))
  : list (TimeValue * Payload) :=
  match l with
  | [] => [r]
  | r' :: l' =>
      if date_leb (tv_date (fst r)) (tv_date (fst r')) then r :: r' :: l'
      else r' :: insert_row r l'
  end.

Definition sort_rows (l : list (TimeValue * Payload)) : list (TimeValue * Payload) :=
  fold_right insert_row [] l.

Definition same_class (l : list (TimeValue * Payload)) : bool :=
  match l with
  | [] => true
  | r :: l' => forallb (fun r' => class_eqb (tv_class (fst r)) (tv_class (fst r'))) l'
  end.

Definition sortby_time (ds : Dataset) : Result Dataset :=
  if same_class (rows ds)
  then inr {| attrs := attrs ds; rows := sort_rows (rows ds) |}
  else inl TypeError.

(** The coverage test [(ds.time[0] <= start_date) & (ds.time[-1] >= end_date)]. *)
Definition covers (start_date end_date : Date) (l : list Date) : bool :=
  match l, last l with
  | first :: _, Some final => date_leb first start_date && date_leb end_date final
  | _, _ => false
  end.

Section Stitch.

(** [xr.open_dataset(url)] *)
Variable open_dataset : string -> Result Dataset.

Fixpoint concat_rest (ds : Dataset) (urls : list string) : Result Dataset :=
  match urls with
  | [] => inr ds
  | u :: urls' =>
      rbind (open_dataset u) (fun ds2 => concat_rest (xr_concat ds ds2) urls')
  end.

Definition ConcatModels (modelDict : list string) : Result Dataset :=
  rbind (list_item modelDict 0) (fun u0 =>
  rbind (open_dataset u0) (fun ds =>
  rbind (if (1 <? length modelDict)%nat
         then concat_rest ds (skipn 1 modelDict)
         else inr ds) (fun ds =>
  rbind (sortby_time ds) (fun ds =>
  let start_year := 1850 in
  let monStart := 1 in
  let dayStart := 31 in
  let end_year := 2014 in
  let monEnd := 12 in
  let dayEnd := 1 in
  rbind (list_item (rows ds) 0) (fun r0 =>
  let bounds : option (Date * Date) :=
    match tv_class (fst r0) with
    | Datetime64 =>
        Some (midnight start_year monStart dayStart, midnight end_year monEnd dayEnd)
    | DatetimeNoLeap =>
        Some (midnight start_year monStart dayStart, midnight end_year monEnd dayEnd)
    | OtherCftime => None
    end in
  match bounds with
  | None => inl UnboundLocalError
  | Some (start_date, end_date) =>
      if covers start_date end_date (time_axis ds) then inr ds
      else inl ValueError
  end))))).

End Stitch.

Section Extend.

(** [ModelInput(url).ds]: opening a dataset and normalising its
    coordinates and time axis is input/output done by the loader. *)
Variable ModelInput_ds : string -> Result Dataset.

(** The loop that splits every entry with several candidates into
    entries of one candidate each. *)
Fixpoint flatten_values (key : string) (value : list string) (counter : nat)
    (flat : Dict (list string)) : Dict (list string) :=
  match value with
  | [] => flat
  | subValue :: value' =>
      let subValueList := [subValue] in
      flatten_values key value' (S counter)
        (dict_set (key ++ "_" ++ str_of_nat counter)%string subValueList flat)
  end.

Fixpoint flatten_items (items : Dict (list string)) (flat : Dict (list string))
  : Dict (list string) :=
  match items with
  | [] => flat
  | (key, value) :: items' =>
      flatten_items items'
        (if (1 <? length value)%nat
         then flatten_values key value 0 flat
         else dict_set key value flat)
  end.

Definition model_source (i : string) : Result string :=
  rbind (str_index "_"%char i) (fun index => inr (str_prefix index i)).

(** The key drawn by the randomised assignment ([scenarioRandom]) together
    with the flattened registry. *)
Definition choose_random (modelInput : Dataset)
    (scenarioModels : Dict (list string)) (entropy : nat)
  : Result (string * Dict (list string)) :=
  rbind (dict_item "source_id" (attrs modelInput)) (fun modelHistID =>
  rbind (dict_item "variant_label" (attrs modelInput)) (fun runHist =>
  let scenarioModelsFlat := flatten_items scenarioModels [] in
  rbind (mapM model_source (dict_keys scenarioModelsFlat)) (fun scenarioModelSource =>
  let histMask := map (fun modelID => String.eqb modelID modelHistID) scenarioModelSource in
  let indices := seq 0 (length (dict_keys scenarioModelsFlat)) in
  let indicesMatch :=
    map fst (List.filter (fun p : nat * bool => snd p) (combine indices histMask)) in
  rbind (random_choice entropy indicesMatch) (fun choice =>
  rbind (list_item (dict_keys scenarioModelsFlat) choice) (fun scenarioRandom =>
  inr (scenarioRandom, scenarioModelsFlat)))))).

Definition ExtendPeriod (key : string) (modelInput : Dataset)
    (scenarioModels : Dict (list string)) (entropy : nat) : Result Dataset :=
  if dict_mem key scenarioModels then
    rbind (dict_item key scenarioModels) (fun candidates =>
    rbind (list_item candidates 0) (fun url =>
    rbind (ModelInput_ds url) (fun dsScenario =>
    inr (xr_concat modelInput dsScenario))))
  else
    rbind (choose_random modelInput scenarioModels entropy) (fun '(scenarioRandom, scenarioModelsFlat) =>
    rbind (dict_item scenarioRandom scenarioModelsFlat) (fun candidates =>
    rbind (list_item candidates 0) (fun url =>
    rbind (ModelInput_ds url) (fun dsScenario =>
    inr (xr_concat modelInput dsScenario))))).

End Extend.

End Datasets.

Arguments mkDataset {Payload} _ _.
Arguments attrs {Payload} _.
Arguments rows {Payload} _.
Arguments time_axis {Payload} _.
Arguments xr_concat {Payload} _ _.
Arguments sort_rows {Payload} _.
Arguments insert_row {Payload} _ _.
Arguments same_class {Payload} _.
Arguments sortby_time {Payload} _.
Arguments concat_rest {Payload} _ _ _.
Arguments ConcatModels {Payload} _ _.
Arguments choose_random {Payload} _ _ _.
Arguments ExtendPeriod {Payload} _ _ _ _ _.

End Continuity.

(** ** Sample inputs *)

Module Samples.

Import Numerics Trend.

(** Fourteen mid-year samples, 1870 to 1883, and one in 2024. *)
Definition sparse_gradient : Series :=
  map (fun i : nat => (midnight (1870 + Z.of_nat i) 6 15, inject_Z (Z.of_nat i)))
      (seq 0 14)
  ++ [(midnight 2024 6 15, 0%Q)].

(** A fitting routine whose back end gives up on windows of fifteen
    samples and otherwise is [polyfit]. *)
Definition flaky_fit (x : list Z) (y : list Q) : Result (Q * Q) :=
  if (length x =? 15)%nat then inl LinAlgError else polyfit x y.

(** [n] monthly samples from January of [year0], the value of sample [i]
    being [0.01 * i]. *)
Definition monthly_linear (year0 : Z) (n : nat) : Series :=
  map (fun i : nat =>
         (mkDate (year0 + Z.of_nat i / 12) (Z.of_nat i mod 12 + 1) 16 0,
          ((1 # 100) * inject_Z (Z.of_nat i))%Q))
      (seq 0 n).

(** A field on three latitudes and four longitudes, two time steps, every
    value 5; and the first terms of the cosine series in degrees. *)
Definition flat_field : Gradient.DataArray :=
  Gradient.mkDataArray
    [midnight 1870 1 16; midnight 1870 2 16]
    [- (2 # 1); 0; 2 # 1]%Q
    [150 # 1; 160 # 1; 200 # 1; 280 # 1]%Q
    (repeat (repeat (repeat (5 # 1)%Q 4) 3) 2).

Definition cos_series (lat : Q) : Q := (1 - lat * lat * (1 # 6566))%Q.

(** A historical run that ends in December 2014, a registry with one
    lineage of two candidates and one of a single candidate, and a loader
    whose scenario runs start in December 2014 and reach December 2022. *)
Definition noon (y m d : Z) : Continuity.TimeValue :=
  Continuity.mkTimeValue Continuity.Datetime64 (mkDate y m d 43200000000000).

Definition hist_run : Continuity.Dataset nat :=
  Continuity.mkDataset
    [("source_id", "ACCESS-CM2"); ("variant_label", "r1i1p1f1")]%string
    [(noon 2014 11 16, 0%nat); (noon 2014 12 16, 1%nat)].

Definition scenario_run : Continuity.Dataset nat :=
  Continuity.mkDataset
    [("source_id", "ACCESS-CM2"); ("parent_variant_label", "r1i1p1f1")]%string
    [(noon 2014 12 16, 2%nat); (noon 2015 1 16, 3%nat); (noon 2022 12 16, 4%nat)].

Definition registry : Continuity.Dict (list string) :=
  [("ACCESS-CM2_r1i1p1f1", ["ssp245_a.nc"; "ssp245_b.nc"]);
   ("CanESM5_r2i1p1f1", ["ssp245_c.nc"])]%string.

Definition loader (url : string) : Result (Continuity.Dataset nat) :=
  inr scenario_run.

(** A single file on a 360-day calendar that spans 1850 to 2014. *)
Definition run_360_day : Continuity.Dataset nat :=
  Continuity.mkDataset
    [("source_id", "UKESM1-0-LL")]%string
    [(Continuity.mkTimeValue Continuity.OtherCftime (mkDate 1850 1 16 0), 0%nat);
     (Continuity.mkTimeValue Continuity.OtherCftime (mkDate 2014 12 16 0), 1%nat)].

(** Two files of one run on the standard calendar, listed out of order. *)
Definition fragment_late : Continuity.Dataset nat :=
  Continuity.mkDataset
    [("source_id", "ACCESS-CM2")]%string
    [(noon 1950 1 16, 2%nat); (noon 2014 12 16, 3%nat)].

Definition fragment_early : Continuity.Dataset nat :=
  Continuity.mkDataset
    [("source_id", "ACCESS-CM2")]%string
    [(noon 1850 1 16, 0%nat); (noon 1949 12 16, 1%nat)].

Definition file_store (url : string) : Result (Continuity.Dataset nat) :=
  if String.eqb url "late.nc" then inr fragment_late
  else if String.eqb url "early.nc" then inr fragment_early
  else if String.eqb url "360.nc" then inr run_360_day
  else inl ValueError.

End Samples.

(** ** Changes of unit

    The same series, and the same field, after the affine change of unit
    [v |-> a * v + b] of every value. *)

Module Rescale.

Definition affine_series (a b : Q) (g : Trend.Series) : Trend.Series :=
  map (fun s : Date * Q => (fst s, (a * snd s + b)%Q)) g.

Definition affine_field (a b : Q) (da : Gradient.DataArray) : Gradient.DataArray :=
  Gradient.mkDataArray (Gradient.da_time da) (Gradient.da_lat da) (Gradient.da_lon da)
    (map (map (map (fun x : Q => (a * x + b)%Q))) (Gradient.da_values da)).

(** Two cells of a trend matrix, the second holding [a] times the first. *)
Definition cell_scaled (a : Q) (c c' : option Trend.Cell) : Prop :=
  match c, c' with
  | Some (Trend.Val q), Some (Trend.Val q') => (q' == a * q)%Q
  | Some Trend.NaN, Some Trend.NaN => True
  | None, None => True
  | _, _ => False
  end.

(** Two values of a gradient series, the second holding [a] times the
    first. *)
Definition mean_scaled (a : Q) (m m' : option Q) : Prop :=
  match m, m' with
  | Some q, Some q' => (q' == a * q)%Q
  | None, None => True
  | _, _ => False
  end.

End Rescale.

(** ** Bounded fields and a field away from the equator *)

Module Bounds.

(** Every value of the array lies between [lo] and [hi]. *)
Definition bounded_field (lo hi : Q) (da : Gradient.DataArray) : bool :=
  forallb (forallb (forallb (fun x => Qle_bool lo x && Qle_bool x hi)))
          (Gradient.da_values da).

(** The grid of [Samples.flat_field] with the latitudes from north to
    south, and with longitudes in no order. *)
Definition north_to_south_field : Gradient.DataArray :=
  Gradient.mkDataArray
    [midnight 1870 1 16; midnight 1870 2 16]
    [2 # 1; 0; - (2 # 1)]%Q
    [150 # 1; 160 # 1; 200 # 1; 280 # 1]%Q
    (repeat (repeat (repeat (5 # 1)%Q 4) 3) 2).

Definition unordered_field : Gradient.DataArray :=
  Gradient.mkDataArray
    [midnight 1870 1 16; midnight 1870 2 16]
    [- (2 # 1); 0; 2 # 1]%Q
    [300 # 1; 150 # 1; 160 # 1; 280 # 1]%Q
    (repeat (repeat (repeat (5 # 1)%Q 4) 3) 2).

(** Two time steps on latitudes 10N and 20N only. *)
Definition off_equator_field : Gradient.DataArray :=
  Gradient.mkDataArray
    [midnight 1870 1 16; midnight 1870 2 16]
    [10 # 1; 20 # 1]%Q
    [150 # 1; 200 # 1]%Q
    (repeat (repeat (repeat (5 # 1)%Q 2) 2) 2).

End Bounds.

(** ** The second half of [ConcatModels]

    What [ConcatModels] does with the concatenated dataset: sort, build the
    bounds for the class of the first time value, test the coverage. *)

Module StitchTail.

Import Continuity.

Definition sort_and_check {Payload} (merged : Dataset Payload) : Result (Dataset Payload) :=
  rbind (sortby_time merged) (fun ds =>
  rbind (list_item (rows ds) 0) (fun r0 =>
  match tv_class (fst r0) with
  | OtherCftime => inl UnboundLocalError
  | _ =>
      if covers (midnight 1850 1 31) (midnight 2014 12 1) (time_axis ds) then inr ds
      else inl ValueError
  end)).

End StitchTail.

(** ** Classifying historical files by name ([ClassifyHistModelsLite]) *)

Module Classify.

Import Continuity.

Fixpoint str_drop (n : nat) (s : string) : string :=
  match n, s with
  | O, _ => s
  | S n', String _ s' => str_drop n' s'
  | S _, EmptyString => EmptyString
  end.

(** [s.index(c, start)] *)
Definition str_index_from (c : ascii) (start : nat) (s : string) : Result nat :=
  rbind (str_index c (str_drop start s)) (fun i => inr (start + i)%nat).

(** [s[a:b]] for non-negative [a] and [b] *)
Definition str_slice (a b : nat) (s : string) : string := substring a (b - a) s.

(** [c not in s] and the number of occurrences of [c] in [s] *)
Fixpoint no_char (c : ascii) (s : string) : bool :=
  match s with
  | EmptyString => true
  | String a s' => negb (Ascii.eqb a c) && no_char c s'
  end.

Fixpoint count_char (c : ascii) (s : string) : nat :=
  match s with
  | EmptyString => O
  | String a s' => ((if Ascii.eqb a c then 1 else 0) + count_char c s')%nat
  end.

(** [d[k].append(x)] on a [defaultdict(list)] *)
Fixpoint dict_append {A} (k : string) (x : A) (d : Dict (list A)) : Dict (list A) :=
  match d with
  | [] => [(k, [x])]
  | (k', v) :: d' =>
      if String.eqb k k' then (k', v ++ [x]) :: d' else (k', v) :: dict_append k x d'
  end.

(** The three fields that the loop body reads off one file name. *)
Definition parse_url (url : string) : Result (string * string * string) :=
  let char := "_"%char in
  let char2 := "."%char in
  rbind (str_index char url) (fun indAmon =>
  rbind (str_index_from char (indAmon + 1) url) (fun i =>
  let indModelNameStart := (i + 1)%nat in
  rbind (str_index_from char (indModelNameStart + 1) url) (fun indModelNameEnd =>
  let modelName := str_slice indModelNameStart indModelNameEnd url in
  rbind (str_index_from char (indModelNameEnd + 1) url) (fun i =>
  let indVariantStart := (i + 1)%nat in
  rbind (str_index_from char (indVariantStart + 1) url) (fun indVariantEnd =>
  let modelVariant := str_slice indVariantStart indVariantEnd url in
  rbind (str_index_from char (indVariantEnd + 2) url) (fun i =>
  let indDateStart := (i + 1)%nat in
  rbind (str_index_from char2 indDateStart url) (fun indDateEnd =>
  let dateRange := str_slice indDateStart indDateEnd url in
  inr (modelName, modelVariant, dateRange)))))))).

Definition fullDates : string := "185001-201412".

Definition classify_key (url : string) : Result string :=
  rbind (parse_url url) (fun '(modelName, modelVariant, dateRange) =>
  inr (if String.eqb dateRange fullDates then "Full"%string
       else (modelName ++ "_" ++ modelVariant)%string)).

Fixpoint classify_loop (urlList : list string) (histModels : Dict (list string))
  : Result (Dict (list string)) :=
  match urlList with
  | [] => inr histModels
  | url :: urlList' =>
      rbind (classify_key url) (fun key =>
      classify_loop urlList' (dict_append key url histModels))
  end.

Definition ClassifyHistModelsLite (urlList : list string) : Result (Dict (list string)) :=
  classify_loop urlList [].

(** Three file names: a full run, and a run in two files. *)
Definition hist_files : list string :=
  ["ts_Amon_CanESM5_historical_r1i1p1f1_gn_185001-201412.nc";
   "ts_Amon_ACCESS-CM2_historical_r2i1p1f1_gn_185001-194912.nc";
   "ts_Amon_ACCESS-CM2_historical_r2i1p1f1_gn_195001-201412.nc"]%string.

End Classify.

(** ** The model name ([Gradient.SaveAttrs]) and the dimension names
    ([ModelInput.CleanCoords]) *)

Module Names.

Import Continuity.

(** [SaveAttrs]: the values of [parent_source_id] and [variant_label] that
    are present, joined by an underscore. *)
Definition SaveAttrs (ds_attrs : Dict string) : string :=
  let selected_attrs := ["parent_source_id"; "variant_label"]%string in
  let attributes :=
    flat_map (fun attr => match dict_get attr ds_attrs with
                          | Some v => [(attr, v)]
                          | None => []
                          end) selected_attrs in
  String.concat "_" (map snd attributes).

(** The names that a dataset knows: its dimensions, and its variables
    (coordinates included). *)
Record Named : Type := mkNamed {
  dims : list string;
  variables : list string
}.

Definition has (name : string) (names : list string) : bool :=
  existsb (String.eqb name) names.

Definition rename_in (old new : string) (names : list string) : list string :=
  map (fun n => if String.eqb n old then new else n) names.

(** [ds.rename({old: new})].  [old] has to be a dimension or a variable
    of the dataset.  The dimension is renamed in every variable that has
    it, and a variable called [old] becomes [new]; this last step is
    refused when the dataset has a variable called [new] already (the new
    name conflicts).  A dimension that has no variable of its own name is
    renamed whatever the variables are called.  [CleanCoords] calls it
    only with an [old] that is a dimension and a [new] that is not. *)
Definition rename (old new : string) (ds : Named) : Result Named :=
  if negb (has old (dims ds) || has old (variables ds)) then inl ValueError
  else if String.eqb old new then inr ds
  else if has old (variables ds) && has new (variables ds) then inl ValueError
  else inr (mkNamed (rename_in old new (dims ds)) (rename_in old new (variables ds))).

Definition clean_axis (canonical short long : string) (ds : Named) : Result Named :=
  if negb (has canonical (dims ds)) then
    if has short (dims ds) then rename short canonical ds
    else if has long (dims ds) then rename long canonical ds
    else inr ds
  else inr ds.

(** [CleanCoords]: both steps inside one [try]; the handler prints the
    exception and [self.ds] stays as the last assignment left it.  The
    result is [self.ds] and the exception that was printed, if any. *)
Definition CleanCoords (ds : Named) : Named * option PyExn :=
  match clean_axis "lat" "y" "latitude" ds with
  | inl e => (ds, Some e)
  | inr ds1 =>
      match clean_axis "lon" "x" "longitude" ds1 with
      | inl e => (ds1, Some e)
      | inr ds2 => (ds2, None)
      end
  end.

(** A curvilinear grid: dimensions [y] and [x], two-dimensional
    coordinate variables [lat] and [lon]; and the same grid with the index
    variables [y] and [x]. *)
Definition curvilinear : Named :=
  mkNamed ["time"; "y"; "x"]%string ["time"; "lat"; "lon"; "ts"]%string.

Definition curvilinear_indexed : Named :=
  mkNamed ["time"; "y"; "x"]%string
          ["time"; "y"; "x"; "lat"; "lon"; "ts"]%string.

Definition regular_long_names : Named :=
  mkNamed ["time"; "latitude"; "longitude"]%string
          ["time"; "latitude"; "longitude"; "ts"]%string.

End Names.

(** ** Building the scenario registry ([CreateScenarioDictionary]) *)

Module Registry.

Import Continuity Classify.

(** [start_date] and [end_date] with the class of time value they were
    built for; unset before the first pass that builds them. *)
Definition Bounds : Type := option (TimeClass * Date * Date).

(** The two [isinstance] tests of one pass: a time axis of another class
    leaves the two variables as the previous pass left them. *)
Definition set_bounds (first : TimeValue) (bounds : Bounds) : Bounds :=
  let start_year := 2015 in
  let monStart := 1 in
  let dayStart := 31 in
  let end_year := 2022 in
  let monEnd := 12 in
  let dayEnd := 1 in
  match tv_class first with
  | Datetime64 =>
      Some (Datetime64, midnight start_year monStart dayStart, midnight end_year monEnd dayEnd)
  | DatetimeNoLeap =>
      Some (DatetimeNoLeap, midnight start_year monStart dayStart,
            midnight end_year monEnd dayEnd)
  | OtherCftime => bounds
  end.

(** The only values that the two variables ever hold. *)
Definition bounds_built (b : Bounds) : Prop :=
  b = None \/ exists cls, b = Some (cls, midnight 2015 1 31, midnight 2022 12 1).

(** A time value can be ordered against a bound of its own class only. *)
Definition comparable (t : TimeValue) (cls : TimeClass) : Result unit :=
  if class_eqb (tv_class t) cls then inr tt else inl TypeError.

Section Build.

Variable Payload : Type.
Variable open_dataset : string -> Result (Dataset Payload).

(** [(ds.time[0] <= start_date) & (ds.time[-1] >= end_date)] *)
Definition spans (ds : Dataset Payload) (bounds : Bounds) : Result bool :=
  rbind (list_item (rows ds) 0) (fun first =>
  match bounds with
  | None => inl UnboundLocalError
  | Some (cls, start_date, end_date) =>
      rbind (comparable (fst first) cls) (fun _ =>
      rbind (list_item (rows ds) (length (rows ds) - 1)) (fun final =>
      rbind (comparable (fst final) cls) (fun _ =>
      inr (date_leb (tv_date (fst first)) start_date
           && date_leb end_date (tv_date (fst final))))))
  end).

Fixpoint scenario_loop (modelListScenario : list string)
    (scenarioModels : Dict (list string)) (bounds : Bounds)
  : Result (Dict (list string)) :=
  match modelListScenario with
  | [] => inr scenarioModels
  | model :: rest =>
      rbind (open_dataset model) (fun ds =>
      rbind (dict_item "source_id" (attrs ds)) (fun sourceID =>
      rbind (dict_item "parent_variant_label" (attrs ds)) (fun parentVariant =>
      let scenarioID := (sourceID ++ "_" ++ parentVariant)%string in
      rbind (list_item (rows ds) 0) (fun first =>
      let bounds := set_bounds (fst first) bounds in
      rbind (spans ds bounds) (fun within =>
      scenario_loop rest
        (if within then dict_append scenarioID model scenarioModels else scenarioModels)
        bounds)))))
  end.

Definition CreateScenarioDictionary (modelListScenario : list string)
  : Result (Dict (list string)) :=
  scenario_loop modelListScenario [] None.

(** A file that opens and whose time axis starts by 2015-01-31 and ends
    on or after 2022-12-01. *)
Definition spanning (model : string) : bool :=
  match open_dataset model with
  | inr ds => covers (midnight 2015 1 31) (midnight 2022 12 1) (time_axis ds)
  | inl _ => false
  end.

End Build.

Arguments spans {Payload} _ _.
Arguments scenario_loop {Payload} _ _ _ _.
Arguments CreateScenarioDictionary {Payload} _ _.
Arguments spanning {Payload} _ _.

(** Three scenario files: one that starts too late, and two runs of the
    sample source. *)
Definition late_scenario : Dataset nat :=
  mkDataset
    [("source_id", "ACCESS-CM2"); ("parent_variant_label", "r3i1p1f1")]%string
    [(mkTimeValue Datetime64 (mkDate 2015 2 15 0), 0%nat);
     (mkTimeValue Datetime64 (mkDate 2100 12 16 0), 1%nat)].

Definition good_scenario (parent : string) : Dataset nat :=
  mkDataset
    [("source_id", "ACCESS-CM2"); ("parent_variant_label", parent)]%string
    [(mkTimeValue Datetime64 (mkDate 2015 1 16 0), 0%nat);
     (mkTimeValue Datetime64 (mkDate 2100 12 16 0), 1%nat)].

Definition scenario_store (url : string) : Result (Dataset nat) :=
  if String.eqb url "late.nc" then inr late_scenario
  else if String.eqb url "a.nc" then inr (good_scenario "r1i1p1f1")
  else if String.eqb url "b.nc" then inr (good_scenario "r1i1p1f1")
  else if String.eqb url "c.nc" then inr (good_scenario "r2i1p1f1")
  else inl ValueError.

Definition other_hist_run : Dataset nat :=
  mkDataset
    [("source_id", "ACCESS-CM2"); ("variant_label", "r9i1p1f1")]%string
    [(mkTimeValue Datetime64 (mkDate 2014 12 16 0), 0%nat)].

End Registry.

(** ** Removing the monthly climatology ([RemoveClimatology]) *)

Module Climatology.

Import Numerics Gradient Continuity.

(** A dataset with its attributes and its variable [ts]. *)
Record FieldDataset : Type := mkFieldDataset {
  fd_attrs : Dict string;
  fd_ts : DataArray
}.

(** The time steps with their grids, and the value of a grid at row [i],
    column [j]. *)
Definition steps (da : DataArray) : list (Date * list (list Q)) :=
  combine (da_time da) (da_values da).

Definition cell_at (slab : list (list Q)) (i j : nat) : Q :=
  nth j (nth i slab []) 0%Q.

Fixpoint mapi_from {A B} (n : nat) (f : nat -> A -> B) (l : list A) : list B :=
  match l with
  | [] => []
  | x :: l' => f n x :: mapi_from (S n) f l'
  end.

(** [gb = ds.groupby('time.month')]: the values of one cell in the time
    steps of calendar month [m]. *)
Definition monthly_values (da : DataArray) (m : Z) (i j : nat) : list Q :=
  map (fun p : Date * list (list Q) => cell_at (snd p) i j)
      (List.filter (fun p : Date * list (list Q) => d_month (fst p) =? m) (steps da)).

(** [gb.mean(dim = 'time')] at one cell. *)
Definition climatology (da : DataArray) (m : Z) (i j : nat) : Q :=
  (Qsum (monthly_values da m i j) / Qlen (monthly_values da m i j))%Q.

(** [gb - gb.mean(dim = 'time')]: every value minus the mean of its cell
    over the time steps of the same calendar month. *)
Definition anomaly (da : DataArray) (p : Date * list (list Q)) : list (list Q) :=
  mapi_from 0 (fun i row =>
    mapi_from 0 (fun j x => (x - climatology da (d_month (fst p)) i j)%Q) row) (snd p).

Definition RemoveClimatology (modelFullPeriod : FieldDataset) : FieldDataset :=
  let da := fd_ts modelFullPeriod in
  let dsAnom :=
    mkDataArray (da_time da) (da_lat da) (da_lon da) (map (anomaly da) (steps da)) in
  mkFieldDataset (fd_attrs modelFullPeriod) dsAnom.

(** Row [i], column [j] exists in a grid. *)
Definition in_grid (i j : nat) (slab : list (list Q)) : Prop :=
  (i < length slab)%nat /\ (j < length (nth i slab []))%nat.

(** Rectangular data: one grid per time step, of the shape of the
    coordinates. *)
Definition rectangular (da : DataArray) : bool :=
  (length (da_time da) =? length (da_values da))%nat && well_shaped da.

(** Two Januaries and two Februaries on a grid of one row and two
    columns. *)
Definition two_years : FieldDataset :=
  mkFieldDataset
    [("source_id", "ACCESS-CM2")]%string
    (mkDataArray
       [midnight 1870 1 16; midnight 1870 2 16; midnight 1871 1 16; midnight 1871 2 16]
       [0%Q] [150 # 1; 200 # 1]%Q
       [[[1 # 1; 10 # 1]]; [[2 # 1; 20 # 1]]; [[3 # 1; 30 # 1]]; [[5 # 1; 50 # 1]]]%Q).

End Climatology.

(** ** Inputs that [ExtendPeriod] cannot serve *)

Module Orphans.

Import Continuity.

(** A registry written by hand: one key without underscore, one key
    without candidates. *)
Definition loose_registry : Dict (list string) :=
  [("ACCESS-CM2_r5i1p1f1", ["ssp245_a.nc"]);
   ("CanESM5_r9i1p1f1", []);
   ("FGOALS", ["ssp245_d.nc"])]%string.

Definition unlabelled_run : Dataset nat :=
  mkDataset
    [("source_id", "MIROC6")]%string
    [(mkTimeValue Datetime64 (mkDate 2014 12 16 0), 0%nat)].

End Orphans.


(** * Properties *)

(** ** Order of calendar instants *)

Ltac date_arith :=
  unfold date_leb, date_ltb, date_eqb in *;
  repeat match goal with
         | H : _ |- _ =>
             progress rewrite ?orb_true_iff, ?andb_true_iff, ?orb_false_iff,
               ?andb_false_iff, ?Z.ltb_lt, ?Z.eqb_eq, ?Z.ltb_ge, ?Z.eqb_neq in H
         end;
  rewrite ?orb_true_iff, ?andb_true_iff, ?orb_false_iff, ?andb_false_iff,
    ?Z.ltb_lt, ?Z.eqb_eq, ?Z.ltb_ge, ?Z.eqb_neq;
  try lia.

Lemma date_leb_refl a : date_leb a a = true.
Proof. date_arith. Qed.

Lemma date_leb_trans a b c :
  date_leb a b = true -> date_leb b c = true -> date_leb a c = true.
Proof. intros H1 H2. date_arith. Qed.

Lemma date_ltb_trans a b c :
  date_ltb a b = true -> date_ltb b c = true -> date_ltb a c = true.
Proof. intros H1 H2. date_arith. Qed.

Lemma date_ltb_leb a b : date_ltb a b = true -> date_leb a b = true.
Proof. intros H. date_arith. Qed.

Lemma date_leb_total a b : date_leb a b = true \/ date_leb b a = true.
Proof. date_arith. Qed.

Lemma date_leb_false a b : date_leb a b = false -> date_ltb b a = true.
Proof. intros H. date_arith. Qed.

Lemma date_ltb_irrefl a : date_ltb a a = false.
Proof. date_arith. Qed.

Lemma date_ltb_leb_trans a b c :
  date_ltb a b = true -> date_leb b c = true -> date_ltb a c = true.
Proof. intros H1 H2. date_arith. Qed.

Lemma in_range a b x : In x (range a b) <-> a <= x < b.
Proof.
  unfold range. rewrite in_map_iff. split.
  - intros (i & <- & Hi). apply in_seq in Hi. lia.
  - intros H. exists (Z.to_nat (x - a)). split; [lia|].
    apply in_seq. lia.
Qed.

Lemma NoDup_range a b : List.NoDup (range a b).
Proof.
  unfold range. apply Finite.Injective_map_NoDup.
  - intros i j H. lia.
  - apply List.seq_NoDup.
Qed.

(** ** The loops of [CalculateTrends] *)

Module TrendLoop.

Import Numerics Trend.

Lemma in_cell_keys minTrend s e :
  In (s, e) (cell_keys minTrend) <->
  (yearStart <= s <= yearEnd - minTrend /\ yearStart + minTrend <= e <= yearEnd).
Proof.
  unfold cell_keys. rewrite in_flat_map. split.
  - intros (s' & Hs & He). apply in_map_iff in He as (e' & Heq & He).
    inversion Heq; subst. apply in_range in Hs, He. lia.
  - intros [Hs He]. exists s. split.
    + apply in_range. lia.
    + apply in_map_iff. exists e. split; [reflexivity|]. apply in_range. lia.
Qed.

Lemma NoDup_cell_keys minTrend : List.NoDup (cell_keys minTrend).
Proof.
  unfold cell_keys.
  generalize (range (yearStart + minTrend) (yearEnd + 1)) (NoDup_range (yearStart + minTrend) (yearEnd + 1)).
  intros ends Hends.
  generalize (range yearStart (yearEnd + 1 - minTrend)) (NoDup_range yearStart (yearEnd + 1 - minTrend)).
  intros starts Hstarts. induction Hstarts as [|s starts Hs Hnd IH]; simpl.
  - constructor.
  - apply NoDup_ListNoDup, NoDup_app. repeat split.
    + apply NoDup_ListNoDup, Finite.Injective_map_NoDup; [|exact Hends].
      intros a b H. congruence.
    + intros [s' e'] H1 H2. apply list_elem_of_In in H1, H2.
      apply in_map_iff in H1 as (? & Heq & _). inversion Heq; subst.
      apply in_flat_map in H2 as (s'' & Hin & H2).
      apply in_map_iff in H2 as (? & Heq' & _). inversion Heq'; subst.
      contradiction.
    + apply NoDup_ListNoDup, IH.
Qed.

Section Generic.

Variable fit : list Z -> list Q -> Result (Q * Q).
Variable gradient : Series.
Variable minTrend : Z.

Lemma cell_step_value s e st :
  cell_step fit gradient minTrend s e st =
  match cell_value fit gradient minTrend s e with
  | inl err => (inl err, st)
  | inr v => (inr tt, <[(s, e) := v]> st)
  end.
Proof.
  unfold cell_step, cell_value.
  destruct (s >=? e); [reflexivity|].
  destruct (e - s <? minTrend); [reflexivity|].
  cbv zeta.
  destruct (12 * interval <? _); [|reflexivity].
  unfold bind, lift, rbind.
  destruct (fit _ _) as [err|[slope intercept]]; reflexivity.
Qed.

Lemma store_cells_app value l1 l2 st :
  store_cells value (l1 ++ l2) st =
  match store_cells value l1 st with
  | (inl err, st') => (inl err, st')
  | (inr _, st') => store_cells value l2 st'
  end.
Proof.
  revert st. induction l1 as [|k l1 IH]; intros st; simpl; [reflexivity|].
  unfold bind, lift, setitem. destruct (value k) as [err|v]; [reflexivity|].
  apply IH.
Qed.

Lemma inner_loop_store s ends st :
  for_in ends (fun e => cell_step fit gradient minTrend s e) st =
  store_cells (fun k => cell_value fit gradient minTrend (fst k) (snd k))
    (map (fun e => (s, e)) ends) st.
Proof.
  revert st. induction ends as [|e ends IH]; intros st; simpl; [reflexivity|].
  unfold bind at 1. rewrite cell_step_value.
  unfold bind, lift, setitem. simpl.
  destruct (cell_value fit gradient minTrend s e) as [err|v]; [reflexivity|].
  apply IH.
Qed.

Lemma trend_loops_store st :
  trend_loops fit gradient minTrend st =
  store_cells (fun k => cell_value fit gradient minTrend (fst k) (snd k))
    (cell_keys minTrend) st.
Proof.
  unfold trend_loops, cell_keys.
  generalize (range (yearStart + minTrend) (yearEnd + 1)). intros ends.
  generalize (range yearStart (yearEnd + 1 - minTrend)). intros starts.
  revert st. induction starts as [|s starts IH]; intros st; simpl; [reflexivity|].
  rewrite store_cells_app. unfold bind at 1. rewrite inner_loop_store.
  destruct (store_cells _ _ st) as [[err|[]] st']; [reflexivity|].
  apply IH.
Qed.

(** When no cell raises, every key of the list is stored with its value
    and nothing else is touched. *)
Lemma store_cells_ok value keys st :
  (forall k, In k keys -> exists v, value k = inr v) ->
  exists st',
    store_cells value keys st = (inr tt, st') /\
    (forall k v, In k keys -> value k = inr v -> st' !! k = Some v) /\
    (forall k, ~ In k keys -> st' !! k = st !! k).
Proof.
  revert st. induction keys as [|k0 keys IH]; intros st Hok; simpl.
  - exists st. split; [reflexivity|]. split; [intros ? ? []|reflexivity].
  - destruct (Hok k0 (or_introl eq_refl)) as [v0 Hv0].
    unfold bind, lift, setitem. rewrite Hv0.
    destruct (IH (<[k0 := v0]> st)) as (st' & Hrun & Hin & Hout).
    { intros k Hk. apply Hok. right. exact Hk. }
    exists st'. split; [exact Hrun|]. split.
    + intros k v [->|Hk] Hv.
      * destruct (decide (k ∈ keys)) as [Hk|Hk]; rewrite list_elem_of_In in Hk; [apply Hin; assumption|].
        rewrite Hout by assumption. rewrite lookup_insert_eq. congruence.
      * apply Hin; assumption.
    + intros k Hk. rewrite Hout by tauto.
      apply lookup_insert_ne. intros ->. tauto.
Qed.

(** When the cell at [k0] is the first to raise, the cells before it are
    stored, the raise ends the loops and nothing more is written. *)
Lemma store_cells_raise value pre k0 post err st :
  (forall k, In k pre -> exists v, value k = inr v) ->
  value k0 = inl err ->
  exists st',
    store_cells value (pre ++ k0 :: post) st = (inl err, st') /\
    (forall k v, In k pre -> value k = inr v -> st' !! k = Some v) /\
    (forall k, ~ In k pre -> st' !! k = st !! k).
Proof.
  intros Hok Hk0. destruct (store_cells_ok value pre st Hok) as (st' & Hrun & Hin & Hout).
  exists st'. split; [|split; assumption].
  rewrite store_cells_app, Hrun. simpl. unfold bind, lift. rewrite Hk0. reflexivity.
Qed.

End Generic.

(** With [polyfit] as the fitting routine no cell raises: the index and
    the selected values have the same positive length. *)
Lemma length_indexTime (g : Series) : length (indexTime g) = length g.
Proof. unfold indexTime. rewrite length_map, length_seq. reflexivity. Qed.

Lemma length_sel_time (g : Series) a b : (length (sel_time g a b) <= length g)%nat.
Proof. unfold sel_time. apply filter_length_le. Qed.

Lemma length_index_subset (g : Series) a b :
  length (firstn (length (sel_time g a b)) (indexTime g)) = length (sel_time g a b).
Proof.
  rewrite length_firstn, length_indexTime. pose proof (length_sel_time g a b). lia.
Qed.

Lemma index_subset_seq (g : Series) a b :
  firstn (length (sel_time g a b)) (indexTime g) =
  map Z.of_nat (seq 0 (length (sel_time g a b))).
Proof.
  unfold indexTime. pose proof (length_sel_time g a b) as Hle.
  rewrite firstn_map. f_equal.
  replace (length g) with (length (sel_time g a b) + (length g - length (sel_time g a b)))%nat by lia.
  rewrite seq_app, firstn_app, length_seq, Nat.sub_diag. simpl. rewrite app_nil_r.
  apply firstn_all2. rewrite length_seq. lia.
Qed.

Lemma cell_value_polyfit (g : Series) minTrend s e :
  cell_value polyfit g minTrend s e =
  if s >=? e then inr NaN
  else if e - s <? minTrend then inr NaN
  else
    let sub := sel_time g (midnight s monStart dayStart) (midnight e monEnd dayEnd) in
    if 12 <? Z.of_nat (length sub) then
      inr (Val (ols_slope (map inject_Z (map Z.of_nat (seq 0 (length sub))))
                          (map snd sub) * inject_Z trendLength)%Q)
    else inr NaN.
Proof.
  unfold cell_value.
  destruct (s >=? e); [reflexivity|].
  destruct (e - s <? minTrend); [reflexivity|].
  cbv zeta. rewrite length_index_subset. change (12 * interval) with 12.
  destruct (12 <? _) eqn:Hlen; [|reflexivity].
  apply Z.ltb_lt in Hlen. rewrite index_subset_seq.
  unfold polyfit. rewrite !length_map, length_seq.
  destruct (Nat.eqb_spec (length (sel_time g (midnight s monStart dayStart) (midnight e monEnd dayEnd))) 0) as [H0|_]; [lia|].
  rewrite Nat.eqb_refl. reflexivity.
Qed.

Lemma cell_value_polyfit_ok (g : Series) minTrend k :
  exists v, cell_value polyfit g minTrend (fst k) (snd k) = inr v.
Proof.
  rewrite cell_value_polyfit.
  destruct (fst k >=? snd k); [eauto|].
  destruct (snd k - fst k <? minTrend); [eauto|].
  cbv zeta. destruct (12 <? _); eauto.
Qed.

(** [CalculateTrends] never ends in the handler, and its dictionary holds
    exactly the visited keys, each with the value of its cell. *)
Lemma CalculateTrends_complete (g : Series) minTrend :
  snd (CalculateTrends g minTrend) = None /\
  (forall s e v, In (s, e) (cell_keys minTrend) ->
     cell_value polyfit g minTrend s e = inr v ->
     fst (CalculateTrends g minTrend) !! (s, e) = Some v) /\
  (forall k, ~ In k (cell_keys minTrend) ->
     fst (CalculateTrends g minTrend) !! k = None).
Proof.
  unfold CalculateTrends, CalculateTrends_with. rewrite trend_loops_store.
  destruct (store_cells_ok (fun k => cell_value polyfit g minTrend (fst k) (snd k))
              (cell_keys minTrend) ∅) as (st' & Hrun & Hin & Hout).
  { intros k _. apply cell_value_polyfit_ok. }
  rewrite Hrun. simpl. split; [reflexivity|]. split.
  - intros s e v Hk Hv. apply (Hin (s, e) v Hk Hv).
  - intros k Hk. rewrite Hout by assumption. apply lookup_empty.
Qed.

End TrendLoop.

(** ** The trend matrix: keys, missing cells, and raises *)

Module TrendMatrix.

Import Numerics Trend TrendLoop Samples.

(** C3. For every pair of the generated ranges whose start year is not
    before its end year, or whose span is below [minTrend], or whose window
    selects at most 12 samples, the dictionary holds [NaN] under that pair,
    and [CalculateTrends] ends without an exception. *)
Theorem unestimable_cells_are_nan (g : Series) (minTrend s e : Z) :
  yearStart <= s <= yearEnd - minTrend ->
  yearStart + minTrend <= e <= yearEnd ->
  (s >= e \/ e - s < minTrend \/
   (length (sel_time g (midnight s monStart dayStart) (midnight e monEnd dayEnd)) <= 12)%nat) ->
  fst (CalculateTrends g minTrend) !! (s, e) = Some NaN /\
  snd (CalculateTrends g minTrend) = None.
Proof.
  intros Hs He Hcase.
  destruct (CalculateTrends_complete g minTrend) as (Hnone & Hin & _).
  split; [|exact Hnone].
  apply Hin; [apply in_cell_keys; split; assumption|].
  rewrite cell_value_polyfit.
  destruct (Z.geb_spec s e) as [_|Hlt]; [reflexivity|].
  destruct (Z.ltb_spec (e - s) minTrend) as [_|Hge]; [reflexivity|].
  cbv zeta. destruct (Z.ltb_spec 12 (Z.of_nat (length (sel_time g (midnight s monStart dayStart) (midnight e monEnd dayEnd))))) as [Hlen|_];
    [|reflexivity].
  lia.
Qed.

Lemma unestimable_cells_are_nan_witness :
  fst (CalculateTrends sparse_gradient 10) !! (1900, 1890) = Some NaN /\
  snd (CalculateTrends sparse_gradient 10) = None.
Proof.
  apply (unestimable_cells_are_nan sparse_gradient 10 1900 1890).
  - unfold yearStart, yearEnd. lia.
  - unfold yearStart, yearEnd. lia.
  - left. lia.
Defined.

(** C4. The keys of the dictionary are exactly the pairs of a start year
    in [yearStart .. yearEnd - minTrend] and an end year in
    [yearStart + minTrend .. yearEnd]; a pair outside, such as (1995, 1870)
    for a positive [minTrend], has no entry. *)
Theorem trend_matrix_keys (g : Series) (minTrend : Z) :
  (forall s e,
     is_Some (fst (CalculateTrends g minTrend) !! (s, e)) <->
     (yearStart <= s <= yearEnd - minTrend /\
      yearStart + minTrend <= e <= yearEnd)) /\
  (0 < minTrend -> fst (CalculateTrends g minTrend) !! (1995, 1870) = None).
Proof.
  destruct (CalculateTrends_complete g minTrend) as (_ & Hin & Hout).
  assert (Hkeys : forall s e,
     is_Some (fst (CalculateTrends g minTrend) !! (s, e)) <->
     (yearStart <= s <= yearEnd - minTrend /\ yearStart + minTrend <= e <= yearEnd)).
  { intros s e. rewrite <- in_cell_keys. split.
    - intros [v Hv]. destruct (decide ((s, e) ∈ cell_keys minTrend)) as [Hk|Hk];
        rewrite list_elem_of_In in Hk; [exact Hk|].
      rewrite (Hout _ Hk) in Hv. discriminate.
    - intros Hk. destruct (cell_value_polyfit_ok g minTrend (s, e)) as [v Hv].
      exists v. apply Hin; assumption. }
  split; [exact Hkeys|].
  intros Hpos. apply eq_None_not_Some. rewrite Hkeys. unfold yearStart. lia.
Qed.

Lemma trend_matrix_keys_witness :
  is_Some (fst (CalculateTrends sparse_gradient 10) !! (1870, 1990)) /\
  fst (CalculateTrends sparse_gradient 10) !! (1995, 1870) = None.
Proof.
  split.
  - apply (proj1 (trend_matrix_keys sparse_gradient 10) 1870 1990).
    unfold yearStart, yearEnd. lia.
  - apply (proj2 (trend_matrix_keys sparse_gradient 10)). lia.
Defined.

(** C2, as the code has it. The loops run inside one [try] block: the
    first cell whose fit raises ends them.  The cells visited before it
    keep their values, the raising cell and every cell after it have no
    entry, and the exception is handed to the handler, not to the caller. *)
Theorem first_raise_ends_matrix (fit : list Z -> list Q -> Result (Q * Q))
    (g : Series) (minTrend : Z) (pre post : list (Z * Z)) (k0 : Z * Z) (err : PyExn) :
  cell_keys minTrend = pre ++ k0 :: post ->
  (forall k, In k pre -> exists v, cell_value fit g minTrend (fst k) (snd k) = inr v) ->
  cell_value fit g minTrend (fst k0) (snd k0) = inl err ->
  snd (CalculateTrends_with fit g minTrend) = Some err /\
  (forall k v, In k pre -> cell_value fit g minTrend (fst k) (snd k) = inr v ->
     fst (CalculateTrends_with fit g minTrend) !! k = Some v) /\
  (forall k, In k (k0 :: post) ->
     fst (CalculateTrends_with fit g minTrend) !! k = None).
Proof.
  intros Hkeys Hpre Hk0.
  pose proof (NoDup_cell_keys minTrend) as Hnd. rewrite Hkeys in Hnd.
  unfold CalculateTrends_with. rewrite trend_loops_store, Hkeys.
  destruct (store_cells_raise (fun k => cell_value fit g minTrend (fst k) (snd k))
              pre k0 post err ∅ Hpre Hk0) as (st' & Hrun & Hin & Hout).
  rewrite Hrun. simpl. split; [reflexivity|]. split; [exact Hin|].
  intros k Hk. rewrite Hout; [apply lookup_empty|].
  intros Hkpre. apply NoDup_ListNoDup, NoDup_app in Hnd as (_ & Hdisj & _).
  apply (Hdisj k); apply list_elem_of_In; assumption.
Qed.

Lemma first_raise_ends_matrix_witness :
  snd (CalculateTrends_with flaky_fit sparse_gradient 153) = Some LinAlgError /\
  (forall k v, In k [(1870, 2023)] ->
     cell_value flaky_fit sparse_gradient 153 (fst k) (snd k) = inr v ->
     fst (CalculateTrends_with flaky_fit sparse_gradient 153) !! k = Some v) /\
  (forall k, In k [(1870, 2024); (1871, 2023); (1871, 2024)] ->
     fst (CalculateTrends_with flaky_fit sparse_gradient 153) !! k = None).
Proof.
  apply (first_raise_ends_matrix flaky_fit sparse_gradient 153
           [(1870, 2023)] [(1871, 2023); (1871, 2024)] (1870, 2024) LinAlgError).
  - reflexivity.
  - intros k [<-|[]]. eexists. vm_compute. reflexivity.
  - vm_compute. reflexivity.
Defined.

(** C2, as stated, fails: with a fit that raises on the second cell, that
    cell is not marked missing and the remaining cells are not computed. *)
Lemma per_cell_isolation_fails :
  ~ per_cell_isolation flaky_fit sparse_gradient 153.
Proof.
  intros H.
  destruct (H 1870 2024 LinAlgError) as [Hnan _].
  - vm_compute. tauto.
  - vm_compute. reflexivity.
  - vm_compute in Hnan. discriminate.
Qed.

End TrendMatrix.

(** ** Algebra of the least-squares slope *)

Module Fit.

Import Numerics.

Local Open Scope Q_scope.

Lemma Qsum_cons a l : Qsum (a :: l) = a + Qsum l.
Proof. reflexivity. Qed.

Lemma Qsum_app l1 l2 : Qsum (l1 ++ l2) == Qsum l1 + Qsum l2.
Proof.
  induction l1 as [|a l1 IH]; simpl.
  - ring.
  - rewrite IH. ring.
Qed.

Lemma Qlen_cons (a : Q) l : Qlen (a :: l) == 1 + Qlen l.
Proof.
  unfold Qlen. simpl length. rewrite Nat2Z.inj_succ, <- Z.add_1_l, inject_Z_plus.
  reflexivity.
Qed.

Lemma Qlen_map {A} (f : A -> Q) (g : A -> Q) l : Qlen (map f l) = Qlen (map g l).
Proof. unfold Qlen. rewrite !length_map. reflexivity. Qed.

Lemma Qsum_compat y y' : Forall2 Qeq y y' -> Qsum y == Qsum y'.
Proof.
  induction 1 as [|a b y y' Hab _ IH]; simpl.
  - reflexivity.
  - rewrite Hab, IH. reflexivity.
Qed.

Lemma Qdot_compat x y y' : Forall2 Qeq y y' -> Qdot x y == Qdot x y'.
Proof.
  intros H. revert x. induction H as [|a b y y' Hab _ IH]; intros [|x0 x]; simpl;
    try reflexivity.
  unfold Qdot in *. simpl. rewrite Hab, IH. reflexivity.
Qed.

Lemma ols_slope_compat x y y' :
  Forall2 Qeq y y' -> ols_slope x y == ols_slope x y'.
Proof.
  intros H. unfold ols_slope, ols_num.
  rewrite (Qdot_compat x y y' H), (Qsum_compat y y' H). reflexivity.
Qed.

(** *** Translating the independent variable *)

Section Shift.

Variable k : Q.

Lemma Qsum_shift x : Qsum (shift k x) == Qsum x + Qlen x * k.
Proof.
  induction x as [|a x IH].
  - unfold Qlen. simpl. ring.
  - unfold shift in *. simpl map. rewrite !Qsum_cons, IH, Qlen_cons. ring.
Qed.

Lemma Qlen_shift x : Qlen (shift k x) = Qlen x.
Proof. unfold Qlen, shift. rewrite length_map. reflexivity. Qed.

Lemma Qdot_shift_l x y :
  length x = length y -> Qdot (shift k x) y == Qdot x y + k * Qsum y.
Proof.
  revert y. induction x as [|a x IH]; intros [|b y] Hlen; try discriminate.
  - unfold Qdot. simpl. ring.
  - unfold Qdot, shift in *. simpl. rewrite IH by (simpl in Hlen; lia). ring.
Qed.

Lemma Qdot_shift_both x :
  Qdot (shift k x) (shift k x) == Qdot x x + (2 # 1) * k * Qsum x + Qlen x * k * k.
Proof.
  induction x as [|a x IH].
  - unfold Qdot, Qlen. simpl. ring.
  - rewrite Qlen_cons. unfold Qdot, shift in *. simpl. rewrite IH. ring.
Qed.

Lemma ols_num_shift x y :
  length x = length y -> ols_num (shift k x) y == ols_num x y.
Proof.
  intros Hlen. unfold ols_num.
  rewrite Qlen_shift, Qsum_shift, (Qdot_shift_l x y Hlen). ring.
Qed.

Lemma ols_den_shift x : ols_den (shift k x) == ols_den x.
Proof.
  unfold ols_den. rewrite Qlen_shift, Qsum_shift, Qdot_shift_both. ring.
Qed.

Lemma ols_slope_shift x y :
  length x = length y -> ols_slope (shift k x) y == ols_slope x y.
Proof.
  intros Hlen. unfold ols_slope.
  rewrite (ols_num_shift x y Hlen), ols_den_shift. reflexivity.
Qed.

End Shift.

(** *** Values that lie on a line *)

Section Line.

Variables a b : Q.

Lemma Qsum_on_line x : Qsum (on_line a b x) == Qlen x * a + b * Qsum x.
Proof.
  induction x as [|x0 x IH].
  - unfold Qlen. simpl. ring.
  - unfold on_line in *. simpl map. rewrite !Qsum_cons, IH, Qlen_cons. ring.
Qed.

Lemma Qdot_on_line x : Qdot x (on_line a b x) == a * Qsum x + b * Qdot x x.
Proof.
  induction x as [|x0 x IH].
  - unfold Qdot. simpl. ring.
  - unfold Qdot, on_line in *. simpl. rewrite IH. ring.
Qed.

Lemma ols_num_on_line x : ols_num x (on_line a b x) == b * ols_den x.
Proof.
  unfold ols_num, ols_den. rewrite Qsum_on_line, Qdot_on_line. ring.
Qed.

Lemma ols_slope_on_line x y :
  ~ ols_den x == 0 -> Forall2 Qeq y (on_line a b x) -> ols_slope x y == b.
Proof.
  intros Hden Hy. rewrite (ols_slope_compat x y _ Hy).
  unfold ols_slope. rewrite ols_num_on_line. field. exact Hden.
Qed.

End Line.

(** *** The fitted line minimises the sum of squared residuals *)

Lemma sse_expand m c x y :
  length x = length y ->
  sse m c x y ==
  Qdot y y - (2 # 1) * c * Qsum y - (2 # 1) * m * Qdot x y
  + Qlen x * c * c + (2 # 1) * m * c * Qsum x + m * m * Qdot x x.
Proof.
  revert y. induction x as [|x0 x IH]; intros [|y0 y] Hlen; try discriminate.
  - unfold sse, Qdot, Qlen. simpl. ring.
  - rewrite Qlen_cons. unfold sse, Qdot in *. simpl.
    rewrite IH by (simpl in Hlen; lia). ring.
Qed.

Lemma squares_expand a b x :
  Qsum (map (fun xi => (a + b * xi) * (a + b * xi)) x) ==
  Qlen x * a * a + (2 # 1) * a * b * Qsum x + b * b * Qdot x x.
Proof.
  induction x as [|x0 x IH].
  - unfold Qdot, Qlen. simpl. ring.
  - rewrite Qlen_cons. unfold Qdot in *. simpl. rewrite IH. ring.
Qed.

Lemma Qsquare_nonneg (t : Q) : 0 <= t * t.
Proof.
  destruct (Qlt_le_dec t 0) as [Hneg|Hpos].
  - assert (E : t * t == (- t) * (- t)) by ring.
    rewrite E. apply Qmult_le_0_compat; lra.
  - apply Qmult_le_0_compat; assumption.
Qed.

Lemma squares_nonneg a b x :
  0 <= Qsum (map (fun xi => (a + b * xi) * (a + b * xi)) x).
Proof.
  induction x as [|x0 x IH]; [simpl; lra|].
  simpl map. rewrite Qsum_cons.
  assert (Hsq : 0 <= (a + b * x0) * (a + b * x0)) by apply Qsquare_nonneg.
  set (p := (a + b * x0) * (a + b * x0)) in *.
  set (q := Qsum (map (fun xi => (a + b * xi) * (a + b * xi)) x)) in *.
  lra.
Qed.

Lemma ols_den_zero_of_empty x : Qlen x == 0 -> ols_den x == 0.
Proof.
  unfold Qlen. intros H. destruct x as [|x0 x].
  - unfold ols_den, Qdot, Qlen. simpl. ring.
  - exfalso. simpl length in H. rewrite Nat2Z.inj_succ in H.
    assert (Hpos : 0 < inject_Z (Z.succ (Z.of_nat (length x)))).
    { change 0 with (inject_Z 0). rewrite <- Zlt_Qlt. lia. }
    rewrite H in Hpos. apply (Qlt_irrefl 0 Hpos).
Qed.

Lemma normal_equations x y :
  ~ ols_den x == 0 ->
  Qlen x * ols_intercept x y + ols_slope x y * Qsum x == Qsum y /\
  ols_intercept x y * Qsum x + ols_slope x y * Qdot x x == Qdot x y.
Proof.
  intros Hden.
  assert (Hn : ~ Qlen x == 0).
  { intros H. apply Hden, ols_den_zero_of_empty, H. }
  unfold ols_intercept, ols_slope, ols_num, ols_den in *.
  split; field; split; assumption.
Qed.

(** No line has a smaller sum of squared residuals than the one with
    slope [ols_slope] and intercept [ols_intercept]. *)
Lemma ols_least_squares x y m c :
  length x = length y -> ~ ols_den x == 0 ->
  sse (ols_slope x y) (ols_intercept x y) x y <= sse m c x y.
Proof.
  intros Hlen Hden. destruct (normal_equations x y Hden) as [N1 N2].
  rewrite !sse_expand by exact Hlen.
  pose proof (squares_nonneg (c - ols_intercept x y) (m - ols_slope x y) x) as Hsq.
  rewrite squares_expand in Hsq.
  remember (ols_slope x y) as ms eqn:Hms. remember (ols_intercept x y) as cs eqn:Hcs.
  clear Hms Hcs. rewrite <- N1, <- N2. clear N1 N2.
  set (n := Qlen x) in *. set (Sx := Qsum x) in *. set (Sxx := Qdot x x) in *.
  set (Syy := Qdot y y) in *.
  apply Qle_minus_iff. apply Qle_minus_iff in Hsq.
  eapply Qle_trans; [exact Hsq|]. apply Qle_lteq. right. ring.
Qed.

End Fit.

(** ** The index 0, 1, ..., n-1 as abscissae *)

Module Index.

Import Numerics Trend Fit.

Local Open Scope Q_scope.

Lemma length_arith_index k n : length (arith_index k n) = n.
Proof. unfold arith_index. rewrite length_map, length_seq. reflexivity. Qed.

Lemma arith_index_0 n : arith_index 0 n = map Z.of_nat (seq 0 n).
Proof. unfold arith_index. apply map_ext. intros i. lia. Qed.

Lemma arith_index_S k n :
  arith_index k (S n) = arith_index k n ++ [(k + Z.of_nat n)%Z].
Proof. unfold arith_index. rewrite seq_S, map_app. reflexivity. Qed.

Lemma arith_index_shift k n :
  map inject_Z (arith_index k n) =
  shift (inject_Z k) (map inject_Z (arith_index 0 n)).
Proof.
  unfold arith_index, shift. rewrite !map_map. apply map_ext. intros i.
  unfold Qplus, inject_Z. simpl. f_equal. lia.
Qed.

Lemma Qdot_snoc x y a b :
  length x = length y -> Qdot (x ++ [a]) (y ++ [b]) == Qdot x y + a * b.
Proof.
  revert y. induction x as [|x0 x IH]; intros [|y0 y] Hlen; try discriminate.
  - unfold Qdot. simpl. ring.
  - unfold Qdot in *. simpl. rewrite IH by (simpl in Hlen; lia). ring.
Qed.

Lemma Qlen_index n : Qlen (map inject_Z (arith_index 0 n)) = inject_Z (Z.of_nat n).
Proof. unfold Qlen. rewrite length_map, length_arith_index. reflexivity. Qed.

Lemma inject_nat_S n : inject_Z (Z.of_nat (S n)) == inject_Z (Z.of_nat n) + 1.
Proof. rewrite Nat2Z.inj_succ, <- Z.add_1_r, inject_Z_plus. reflexivity. Qed.

Lemma Qsum_index n :
  (2 # 1) * Qsum (map inject_Z (arith_index 0 n)) ==
  inject_Z (Z.of_nat n) * (inject_Z (Z.of_nat n) - 1).
Proof.
  induction n as [|n IH].
  - simpl. reflexivity.
  - rewrite arith_index_S, map_app, Qsum_app, inject_nat_S. simpl map.
    rewrite Qsum_cons. simpl Qsum. rewrite Z.add_0_l.
    set (N := inject_Z (Z.of_nat n)) in *.
    set (S1 := Qsum (map inject_Z (arith_index 0 n))) in *.
    transitivity ((2 # 1) * S1 + (2 # 1) * N); [ring|].
    rewrite IH. ring.
Qed.

Lemma Qdot_index n :
  (6 # 1) * Qdot (map inject_Z (arith_index 0 n)) (map inject_Z (arith_index 0 n)) ==
  (inject_Z (Z.of_nat n) - 1) * inject_Z (Z.of_nat n) *
  ((2 # 1) * inject_Z (Z.of_nat n) - 1).
Proof.
  induction n as [|n IH].
  - unfold Qdot. simpl. reflexivity.
  - rewrite arith_index_S, map_app. simpl map.
    rewrite Qdot_snoc by reflexivity. rewrite inject_nat_S, Z.add_0_l.
    set (N := inject_Z (Z.of_nat n)) in *.
    set (S2 := Qdot (map inject_Z (arith_index 0 n)) (map inject_Z (arith_index 0 n))) in *.
    transitivity ((6 # 1) * S2 + (6 # 1) * (N * N)); [ring|].
    rewrite IH. ring.
Qed.

Lemma ols_den_index n :
  (12 # 1) * ols_den (map inject_Z (arith_index 0 n)) ==
  inject_Z (Z.of_nat n) * inject_Z (Z.of_nat n) *
  (inject_Z (Z.of_nat n) - 1) * (inject_Z (Z.of_nat n) + 1).
Proof.
  unfold ols_den. rewrite Qlen_index.
  pose proof (Qsum_index n) as H1. pose proof (Qdot_index n) as H2.
  set (N := inject_Z (Z.of_nat n)) in *.
  set (S1 := Qsum (map inject_Z (arith_index 0 n))) in *.
  set (S2 := Qdot (map inject_Z (arith_index 0 n)) (map inject_Z (arith_index 0 n))) in *.
  transitivity ((2 # 1) * N * ((6 # 1) * S2) - (3 # 1) * (((2 # 1) * S1) * ((2 # 1) * S1)));
    [ring|].
  rewrite H1, H2. ring.
Qed.

(** Two or more distinct abscissae: the fit is not degenerate. *)
Lemma ols_den_index_nonzero n :
  (2 <= n)%nat -> ~ ols_den (map inject_Z (arith_index 0 n)) == 0.
Proof.
  intros Hn Hden. pose proof (ols_den_index n) as H. rewrite Hden in H.
  assert (HN : 2 # 1 <= inject_Z (Z.of_nat n)).
  { change (2 # 1) with (inject_Z 2). rewrite <- Zle_Qle. lia. }
  set (N := inject_Z (Z.of_nat n)) in *.
  assert (0 < N * N * (N - 1) * (N + 1)).
  { repeat apply Qmult_lt_0_compat; lra. }
  lra.
Qed.

End Index.

(** ** Windows of a time-ordered series *)

Module Window.

Import Numerics Trend Fit Index.

Lemma ascending_tail a l : ascending (a :: l) = true -> ascending l = true.
Proof.
  destruct l as [|b l]; [reflexivity|]. simpl.
  intros H. apply andb_true_iff in H. tauto.
Qed.

Lemma ascending_head a b l : ascending (a :: b :: l) = true -> date_leb a b = true.
Proof. simpl. intros H. apply andb_true_iff in H. tauto. Qed.

Lemma ascending_tail_dates {A} (f : A -> Date) (l : list A) :
  ascending (map f l) = true -> ascending (map f (tl l)) = true.
Proof.
  destruct l as [|a l]; [reflexivity|]. simpl map. apply ascending_tail.
Qed.

(** Past the end of the window nothing is selected. *)
Lemma sel_time_after (g : Series) (y : Date * Q) a b :
  ascending (map fst (y :: g)) = true ->
  date_leb (fst y) b = false ->
  sel_time (y :: g) a b = [].
Proof.
  revert y. induction g as [|z g IH]; intros y Hasc Hy.
  - unfold sel_time, in_window. simpl. rewrite Hy, andb_false_r. reflexivity.
  - unfold sel_time in *. cbn [List.filter].
    unfold in_window at 1. rewrite Hy, andb_false_r.
    apply (IH z).
    + apply (ascending_tail (fst y)). exact Hasc.
    + simpl map in Hasc. apply ascending_head in Hasc.
      destruct (date_leb (fst z) b) eqn:Hz; [|reflexivity].
      rewrite (date_leb_trans _ _ _ Hasc Hz) in Hy. discriminate.
Qed.

(** After a sample inside the window, the selected samples are a prefix. *)
Lemma sel_time_prefix (g : Series) (x : Date * Q) a b :
  ascending (map fst (x :: g)) = true ->
  date_leb a (fst x) = true ->
  exists n, sel_time g a b = firstn n g.
Proof.
  revert x. induction g as [|y g IH]; intros x Hasc Hx.
  - exists O. reflexivity.
  - assert (Hay : date_leb a (fst y) = true).
    { apply (date_leb_trans _ (fst x)); [exact Hx|]. apply (ascending_head _ _ _ Hasc). }
    apply (ascending_tail (fst x)) in Hasc.
    destruct (date_leb (fst y) b) eqn:Hyb.
    + destruct (IH y Hasc Hay) as [n Hn]. exists (S n).
      unfold sel_time in *. simpl. unfold in_window at 1. rewrite Hay, Hyb. simpl.
      rewrite Hn. reflexivity.
    + exists O. apply sel_time_after; assumption.
Qed.

(** The samples selected from a time-ordered series are consecutive. *)
Lemma sel_time_contiguous (g : Series) a b :
  ascending (map fst g) = true ->
  exists k, sel_time g a b = firstn (length (sel_time g a b)) (skipn k g).
Proof.
  assert (Hshape : ascending (map fst g) = true ->
                   exists k n, sel_time g a b = firstn n (skipn k g)).
  { induction g as [|x g IH]; intros Hasc.
    - exists O, O. reflexivity.
    - destruct (in_window a b x) eqn:Hx.
      + pose proof Hx as Hx'. unfold in_window in Hx'. apply andb_true_iff in Hx' as [Hax _].
        destruct (sel_time_prefix g x a b Hasc Hax) as [n Hn].
        exists O, (S n). unfold sel_time in *. simpl. rewrite Hx, Hn. reflexivity.
      + destruct (IH (ascending_tail _ _ Hasc)) as (k & n & Hkn).
        exists (S k), n. unfold sel_time in *. simpl. rewrite Hx. exact Hkn. }
  intros Hasc. destruct (Hshape Hasc) as (k & n & Hkn). exists k.
  rewrite Hkn at 1. rewrite Hkn, length_firstn.
  destruct (Nat.min_spec n (length (skipn k g))) as [[_ ->]|[Hle ->]]; [reflexivity|].
  rewrite !firstn_all2; [reflexivity|lia|lia].
Qed.

(** The values of consecutive samples of a linear series lie on a line
    over the prefix index. *)
Lemma linear_values_from c (l : Series) d m :
  (forall j s, nth_error l j = Some s ->
     (snd s == c * inject_Z (Z.of_nat (d + m + j)))%Q) ->
  Forall2 Qeq (map snd l)
    (map (fun i : nat => (c * inject_Z (Z.of_nat d) + c * inject_Z (Z.of_nat i))%Q)
         (seq m (length l))).
Proof.
  revert m. induction l as [|s l IH]; intros m Hl; simpl; constructor.
  - rewrite (Hl O s eq_refl). rewrite Nat.add_0_r, Nat2Z.inj_add, inject_Z_plus. ring.
  - apply IH. intros j s' Hj. rewrite (Hl (S j) s' Hj).
    replace (d + m + S j)%nat with (d + S m + j)%nat by lia. reflexivity.
Qed.

Lemma linear_window_values c (g : Series) k n :
  linear_series c g ->
  Forall2 Qeq (map snd (firstn n (skipn k g)))
    (on_line (c * inject_Z (Z.of_nat k)) c
       (map inject_Z (arith_index 0 (length (firstn n (skipn k g)))))).
Proof.
  intros Hlin. unfold on_line, arith_index. rewrite !map_map.
  apply (linear_values_from c (firstn n (skipn k g)) k 0).
  intros j s Hj. rewrite nth_error_firstn in Hj.
  destruct (j <? n)%nat; [|discriminate].
  rewrite nth_error_skipn in Hj. rewrite (Hlin _ _ Hj).
  replace (k + 0 + j)%nat with (k + j)%nat by lia. reflexivity.
Qed.

End Window.

(** ** The recorded trend *)

Module RecordedTrend.

Import Numerics Trend TrendLoop Fit Index Window Samples.

(** What a window that passes the three tests stores. *)
Lemma recorded_trend (g : Series) (minTrend s e : Z) :
  yearStart <= s -> e <= yearEnd -> s < e -> e - s >= minTrend ->
  (12 < length (sel_time g (midnight s monStart dayStart) (midnight e monEnd dayEnd)))%nat ->
  fst (CalculateTrends g minTrend) !! (s, e) =
  Some (Val (ols_slope
               (map inject_Z (arith_index 0
                  (length (sel_time g (midnight s monStart dayStart) (midnight e monEnd dayEnd)))))
               (map snd (sel_time g (midnight s monStart dayStart) (midnight e monEnd dayEnd)))
             * inject_Z trendLength)%Q).
Proof.
  intros Hs He Hlt Hmin Hlen.
  destruct (CalculateTrends_complete g minTrend) as (_ & Hin & _).
  apply Hin; [apply in_cell_keys; lia|].
  rewrite cell_value_polyfit.
  destruct (Z.geb_spec s e) as [?|_]; [lia|].
  destruct (Z.ltb_spec (e - s) minTrend) as [?|_]; [lia|].
  cbv zeta.
  destruct (Z.ltb_spec 12 (Z.of_nat (length (sel_time g (midnight s monStart dayStart) (midnight e monEnd dayEnd))))) as [_|?];
    [|lia].
  rewrite arith_index_0. reflexivity.
Qed.

Lemma monthly_linear_is_linear year0 n :
  linear_series (1 # 100) (monthly_linear year0 n).
Proof.
  intros i s Hi. unfold monthly_linear in Hi. rewrite nth_error_map in Hi.
  rewrite nth_error_seq in Hi. destruct (i <? n)%nat; [|discriminate].
  simpl in Hi. inversion Hi; subst. simpl. reflexivity.
Qed.

(** C1. For a pair with [startYear < endYear], a span of at least
    [minTrend] years and more than 12 selected samples, the dictionary holds
    120 times the slope of the selected values against 0, 1, ..., n-1; that
    slope, with its intercept, is the least-squares line (no line has a
    smaller sum of squared residuals); and for a time-ordered series with
    values [0.01 * i] the recorded trend is 1.2 whatever the window. *)
Theorem recorded_trend_is_scaled_ols_slope (g : Series) (minTrend s e : Z) :
  yearStart <= s -> e <= yearEnd -> s < e -> e - s >= minTrend ->
  (12 < length (sel_time g (midnight s monStart dayStart) (midnight e monEnd dayEnd)))%nat ->
  fst (CalculateTrends g minTrend) !! (s, e) =
  Some (Val (ols_slope
               (map inject_Z (arith_index 0
                  (length (sel_time g (midnight s monStart dayStart) (midnight e monEnd dayEnd)))))
               (map snd (sel_time g (midnight s monStart dayStart) (midnight e monEnd dayEnd)))
             * inject_Z 120)%Q) /\
  (forall m c : Q,
     (sse (ols_slope
             (map inject_Z (arith_index 0
                (length (sel_time g (midnight s monStart dayStart) (midnight e monEnd dayEnd)))))
             (map snd (sel_time g (midnight s monStart dayStart) (midnight e monEnd dayEnd))))
          (ols_intercept
             (map inject_Z (arith_index 0
                (length (sel_time g (midnight s monStart dayStart) (midnight e monEnd dayEnd)))))
             (map snd (sel_time g (midnight s monStart dayStart) (midnight e monEnd dayEnd))))
          (map inject_Z (arith_index 0
             (length (sel_time g (midnight s monStart dayStart) (midnight e monEnd dayEnd)))))
          (map snd (sel_time g (midnight s monStart dayStart) (midnight e monEnd dayEnd)))
      <= sse m c
          (map inject_Z (arith_index 0
             (length (sel_time g (midnight s monStart dayStart) (midnight e monEnd dayEnd)))))
          (map snd (sel_time g (midnight s monStart dayStart) (midnight e monEnd dayEnd))))%Q) /\
  (ascending (map fst g) = true -> linear_series (1 # 100) g ->
   (ols_slope
      (map inject_Z (arith_index 0
         (length (sel_time g (midnight s monStart dayStart) (midnight e monEnd dayEnd)))))
      (map snd (sel_time g (midnight s monStart dayStart) (midnight e monEnd dayEnd)))
    * inject_Z 120 == 12 # 10)%Q).
Proof.
  intros Hs He Hlt Hmin Hlen. split; [|split].
  - apply recorded_trend; assumption.
  - intros m c. apply ols_least_squares.
    + rewrite !length_map, length_arith_index. reflexivity.
    + apply ols_den_index_nonzero. lia.
  - intros Hasc Hlin.
    destruct (sel_time_contiguous g (midnight s monStart dayStart) (midnight e monEnd dayEnd) Hasc)
      as [k Hk].
    set (sub := sel_time g (midnight s monStart dayStart) (midnight e monEnd dayEnd)) in *.
    assert (Hslope : (ols_slope (map inject_Z (arith_index 0 (length sub))) (map snd sub)
                      == 1 # 100)%Q).
    { apply (ols_slope_on_line ((1 # 100) * inject_Z (Z.of_nat k)) (1 # 100)).
      - apply ols_den_index_nonzero. lia.
      - pose proof (linear_window_values (1 # 100) g k (length sub) Hlin) as Hval.
        rewrite <- Hk in Hval. exact Hval. }
    rewrite Hslope. reflexivity.
Qed.

Lemma recorded_trend_is_scaled_ols_slope_witness :
  exists q,
    fst (CalculateTrends (monthly_linear 1870 24) 153) !! (1870, 2023) = Some (Val q) /\
    (q == 12 # 10)%Q.
Proof.
  destruct (recorded_trend_is_scaled_ols_slope (monthly_linear 1870 24) 153 1870 2023)
    as (Hrec & _ & Hlin).
  - unfold yearStart. lia.
  - unfold yearEnd. lia.
  - lia.
  - lia.
  - vm_compute. lia.
  - eexists. split; [exact Hrec|]. apply Hlin.
    + vm_compute. reflexivity.
    + apply monthly_linear_is_linear.
Defined.

(** C10. The recorded trend is a function of the selected values alone:
    regressing them against [k, k+1, ..., k+n-1] for any [k] gives the slope
    that the code obtains with the prefix index 0, ..., n-1, and two series
    whose windows select the same values record the same trend. *)
Theorem recorded_trend_ignores_index_origin (g : Series) (minTrend s e : Z) :
  yearStart <= s -> e <= yearEnd -> s < e -> e - s >= minTrend ->
  (12 < length (sel_time g (midnight s monStart dayStart) (midnight e monEnd dayEnd)))%nat ->
  (forall k : Z, exists q,
     fst (CalculateTrends g minTrend) !! (s, e) = Some (Val q) /\
     (q == ols_slope
             (map inject_Z (arith_index k
                (length (sel_time g (midnight s monStart dayStart) (midnight e monEnd dayEnd)))))
             (map snd (sel_time g (midnight s monStart dayStart) (midnight e monEnd dayEnd)))
           * inject_Z 120)%Q) /\
  (forall g' : Series,
     map snd (sel_time g' (midnight s monStart dayStart) (midnight e monEnd dayEnd)) =
     map snd (sel_time g (midnight s monStart dayStart) (midnight e monEnd dayEnd)) ->
     fst (CalculateTrends g' minTrend) !! (s, e) =
     fst (CalculateTrends g minTrend) !! (s, e)).
Proof.
  intros Hs He Hlt Hmin Hlen. split.
  - intros k. eexists. split; [apply recorded_trend; assumption|].
    rewrite (arith_index_shift k), ols_slope_shift; [reflexivity|].
    rewrite !length_map, length_arith_index. reflexivity.
  - intros g' Hsame.
    assert (Hlen' : length (sel_time g' (midnight s monStart dayStart) (midnight e monEnd dayEnd))
                    = length (sel_time g (midnight s monStart dayStart) (midnight e monEnd dayEnd))).
    { rewrite <- (length_map snd), Hsame, length_map. reflexivity. }
    rewrite !recorded_trend by (rewrite ?Hlen'; assumption).
    rewrite Hsame, Hlen'. reflexivity.
Qed.

Lemma recorded_trend_ignores_index_origin_witness :
  exists q,
    fst (CalculateTrends sparse_gradient 153) !! (1870, 2023) = Some (Val q) /\
    (q == ols_slope (map inject_Z (arith_index 1000 14))
                    (map snd (sel_time sparse_gradient (midnight 1870 1 1) (midnight 2023 12 31)))
          * inject_Z 120)%Q.
Proof.
  destruct (recorded_trend_ignores_index_origin sparse_gradient 153 1870 2023)
    as [Hshift _].
  - unfold yearStart. lia.
  - unfold yearEnd. lia.
  - lia.
  - lia.
  - vm_compute. lia.
  - exact (Hshift 1000).
Defined.

End RecordedTrend.

(** ** Box means of a constant field *)

Module BoxMean.

Import Numerics Gradient Fit Samples.

Local Open Scope Q_scope.

Lemma length_isel {A} s e (l : list A) :
  length (isel s e l) = (Nat.min e (length l) - s)%nat.
Proof. unfold isel. rewrite length_skipn, length_firstn. reflexivity. Qed.

Lemma In_isel {A} s e (l : list A) x : In x (isel s e l) -> In x l.
Proof.
  unfold isel. intros H.
  rewrite <- (firstn_skipn e l). apply in_or_app. left.
  rewrite <- (firstn_skipn s (firstn e l)). apply in_or_app. right. exact H.
Qed.

Lemma isel_map {A B} (f : A -> B) s e (l : list A) :
  isel s e (map f l) = map f (isel s e l).
Proof. unfold isel. rewrite firstn_map, skipn_map. reflexivity. Qed.

Lemma isel_empty {A} s e (l : list A) : (e <= s)%nat -> isel s e l = [].
Proof.
  intros H. apply length_zero_iff_nil. rewrite length_isel. lia.
Qed.

Lemma sel_box_inv da lonmin lonmax latmin latmax box :
  sel_box da lonmin lonmax latmin latmax = inr box ->
  exists lons lats,
    slice_indexer lonmin lonmax (da_lon da) = inr lons /\
    slice_indexer latmin latmax (da_lat da) = inr lats /\
    box = isel_box da lons lats.
Proof.
  unfold sel_box. intros H.
  destruct (slice_indexer lonmin lonmax (da_lon da)) as [?|lons]; [discriminate|].
  destruct (slice_indexer latmin latmax (da_lat da)) as [?|lats]; [discriminate|].
  simpl in H. inversion H. eauto.
Qed.

(** The two boxes of [SliceRegions] have the same latitudes. *)
Lemma sel_box_same_lat da lonmin lonmax lonmin' lonmax' latmin latmax box box' :
  sel_box da lonmin lonmax latmin latmax = inr box ->
  sel_box da lonmin' lonmax' latmin latmax = inr box' ->
  da_lat box' = da_lat box.
Proof.
  intros H H'. apply sel_box_inv in H as (lons & lats & _ & Hlat & ->).
  apply sel_box_inv in H' as (lons' & lats' & _ & Hlat' & ->).
  rewrite Hlat in Hlat'. inversion Hlat'. reflexivity.
Qed.

(** Slicing keeps the shape of a field. *)
Lemma well_shaped_isel_box da lons lats :
  well_shaped da = true -> well_shaped (isel_box da lons lats) = true.
Proof.
  unfold well_shaped, isel_box. simpl. rewrite !forallb_forall.
  intros H slab Hslab. apply in_map_iff in Hslab as (slab0 & <- & Hslab0).
  specialize (H slab0 Hslab0). apply andb_true_iff in H as [Hrows Hcols].
  apply Nat.eqb_eq in Hrows. rewrite forallb_forall in Hcols.
  apply andb_true_iff. split.
  - apply Nat.eqb_eq. rewrite length_map, !length_isel. congruence.
  - apply forallb_forall. intros row Hrow.
    apply in_map_iff in Hrow as (row0 & <- & Hrow0). apply In_isel in Hrow0.
    apply Nat.eqb_eq. rewrite !length_isel.
    specialize (Hcols row0 Hrow0). apply Nat.eqb_eq in Hcols. congruence.
Qed.

Lemma complete_sel_box da lonmin lonmax latmin latmax box :
  complete da = true ->
  sel_box da lonmin lonmax latmin latmax = inr box ->
  complete box = true /\ da_time box = da_time da /\
  length (da_values box) = length (da_values da).
Proof.
  unfold complete. intros H Hbox.
  apply sel_box_inv in Hbox as (lons & lats & _ & _ & ->).
  apply andb_true_iff in H as [Hlen Hshape].
  rewrite (well_shaped_isel_box _ lons lats Hshape). simpl. rewrite length_map.
  rewrite Hlen. repeat split; reflexivity.
Qed.

Lemma constant_slab_isel c s e s' e' (slab : list (list Q)) :
  constant_slab c slab = true ->
  constant_slab c (map (isel s e) (isel s' e' slab)) = true.
Proof.
  unfold constant_slab. rewrite !forallb_forall. intros H row Hrow.
  apply in_map_iff in Hrow as (row0 & <- & Hrow0). apply In_isel in Hrow0.
  specialize (H row0 Hrow0). rewrite forallb_forall in H.
  apply forallb_forall. intros x Hx. apply H. apply (In_isel _ _ _ _ Hx).
Qed.

Lemma uniform_isel_box cs da lons lats :
  uniform_field cs da = true -> uniform_field cs (isel_box da lons lats) = true.
Proof.
  unfold uniform_field, isel_box. simpl. rewrite length_map. intros H.
  apply andb_true_iff in H as [Hlen H]. rewrite Hlen. simpl. clear Hlen.
  revert cs H. induction (da_values da) as [|slab slabs IH]; intros [|c cs] H;
    try reflexivity.
  cbn [map combine forallb fst snd] in *. apply andb_true_iff in H as [Hslab H].
  rewrite (constant_slab_isel _ _ _ _ _ _ Hslab), (IH cs H). reflexivity.
Qed.

(** The weighted-mean identity: the weighted sum of a constant is the
    constant times the sum of the weights. *)
Lemma weighted_sum_constant c (w : list Q) (slab : list (list Q)) :
  constant_slab c slab = true ->
  weighted_sum w slab == c * sum_of_weights w slab.
Proof.
  unfold weighted_sum, sum_of_weights, constant_slab. revert w.
  induction slab as [|row slab IH]; intros [|w0 w] Hc; simpl; try ring.
  simpl in Hc. apply andb_true_iff in Hc as [Hrow Hslab].
  rewrite (IH w Hslab).
  assert (Hr : Qsum (map (fun x => w0 * x) row) == c * Qsum (map (fun _ : Q => w0) row)).
  { clear -Hrow. induction row as [|x row IHr]; simpl; [ring|].
    simpl in Hrow. apply andb_true_iff in Hrow as [Hx Hrow].
    apply Qeq_bool_iff in Hx. rewrite (IHr Hrow), Hx. ring. }
  rewrite Hr. ring.
Qed.

Lemma sum_of_weights_nonneg (w : list Q) (slab : list (list Q)) :
  List.Forall (fun wi => 0 < wi) w -> 0 <= sum_of_weights w slab.
Proof.
  unfold sum_of_weights. intros Hw. revert slab.
  induction Hw as [|w0 w Hw0 _ IH]; intros [|row slab]; simpl; try lra.
  specialize (IH slab).
  assert (0 <= Qsum (map (fun _ : Q => w0) row)).
  { clear -Hw0. induction row as [|x row IHr]; simpl; lra. }
  lra.
Qed.

Lemma sum_of_weights_pos (w : list Q) (slab : list (list Q)) (ncol : nat) :
  w <> [] -> ncol <> O ->
  List.Forall (fun wi => 0 < wi) w ->
  length slab = length w ->
  List.Forall (fun row : list Q => length row = ncol) slab ->
  0 < sum_of_weights w slab.
Proof.
  intros Hne Hncol Hw Hlen Hrows.
  destruct w as [|w0 w]; [congruence|]. destruct slab as [|row slab]; [discriminate|].
  inversion Hw as [|? ? Hw0 Hw']; subst. inversion Hrows as [|? ? Hrow _]; subst.
  pose proof (sum_of_weights_nonneg w slab Hw') as Hrest.
  unfold sum_of_weights in *. simpl.
  destruct row as [|x row]; [simpl in Hncol; congruence|]. simpl.
  assert (0 <= Qsum (map (fun _ : Q => w0) row)).
  { clear -Hw0. induction row as [|y row IHr]; simpl; lra. }
  lra.
Qed.

Section Weights.

Variable cos_radians : Q -> Q.

(** On a box with at least one cell and positive weights the sum of the
    weights is positive at every time step. *)
Lemma box_weights_pos (box : DataArray) (slab : list (list Q)) :
  da_lat box <> [] -> da_lon box <> [] ->
  well_shaped box = true ->
  (forall lat, In lat (da_lat box) -> 0 < cos_radians lat) ->
  In slab (da_values box) ->
  0 < sum_of_weights (map cos_radians (da_lat box)) slab.
Proof.
  intros Hlat Hlon Hshape Hpos Hslab.
  unfold well_shaped in Hshape. rewrite forallb_forall in Hshape.
  specialize (Hshape slab Hslab). apply andb_true_iff in Hshape as [Hrows Hcols].
  apply Nat.eqb_eq in Hrows.
  apply (sum_of_weights_pos _ _ (length (da_lon box))).
  - destruct (da_lat box); [congruence|discriminate].
  - destruct (da_lon box); [congruence|discriminate].
  - apply List.Forall_forall. intros wi Hwi.
    apply in_map_iff in Hwi as (lat & <- & Hin). apply Hpos. exact Hin.
  - rewrite length_map. exact Hrows.
  - apply List.Forall_forall. intros row Hrow. rewrite forallb_forall in Hcols.
    apply Nat.eqb_eq, Hcols. exact Hrow.
Qed.

Lemma box_mean_uniform (box : DataArray) (cs : list Q) :
  da_lat box <> [] -> da_lon box <> [] ->
  well_shaped box = true ->
  uniform_field cs box = true ->
  (forall lat, In lat (da_lat box) -> 0 < cos_radians lat) ->
  Forall2 (fun (m : option Q) (c : Q) => exists q, m = Some q /\ q == c)
          (box_mean cos_radians box) cs.
Proof.
  intros Hlat Hlon Hshape Hconst Hpos. unfold box_mean.
  pose proof (box_weights_pos box) as Hsw.
  specialize (fun slab => Hsw slab Hlat Hlon Hshape Hpos).
  unfold uniform_field in Hconst. apply andb_true_iff in Hconst as [Hlen Hconst].
  apply Nat.eqb_eq in Hlen.
  revert Hsw Hlen Hconst. generalize (map cos_radians (da_lat box)) as w.
  generalize (da_values box) as slabs. intros slabs. revert cs.
  induction slabs as [|slab slabs IH]; intros [|c cs] w Hsw Hlen Hconst;
    try discriminate.
  - constructor.
  - cbn [map combine forallb fst snd] in *.
    apply andb_true_iff in Hconst as [Hslab Hconst]. constructor.
    + specialize (Hsw slab (or_introl eq_refl)). unfold weighted_mean.
      destruct (Qeq_bool (sum_of_weights w slab) 0) eqn:Hz.
      * apply Qeq_bool_iff in Hz. lra.
      * eexists. split; [reflexivity|].
        rewrite (weighted_sum_constant c _ _ Hslab). field. lra.
    + apply IH; [intros s Hs; apply Hsw; right; exact Hs|simpl in Hlen; lia|exact Hconst].
Qed.

(** What [ExecuteAllSteps] returns once both boxes are selected, and when
    one selection raises. *)
Lemma ExecuteAllSteps_boxes (ts boxE boxW : DataArray) :
  sel_box ts (190 # 1) (270 # 1) (- (3 # 1)) (3 # 1) = inr boxE ->
  sel_box ts (140 # 1) (170 # 1) (- (3 # 1)) (3 # 1) = inr boxW ->
  ExecuteAllSteps cos_radians ts =
  inr (map (fun p : option Q * option Q => minus_missing (fst p) (snd p))
           (combine (box_mean cos_radians boxW) (box_mean cos_radians boxE))).
Proof.
  intros HE HW. unfold ExecuteAllSteps, SliceRegions. cbv zeta iota beta.
  rewrite HE, HW. reflexivity.
Qed.

Lemma ExecuteAllSteps_raises (ts : DataArray) (e : PyExn) :
  sel_box ts (190 # 1) (270 # 1) (- (3 # 1)) (3 # 1) = inl e \/
  sel_box ts (140 # 1) (170 # 1) (- (3 # 1)) (3 # 1) = inl e ->
  ExecuteAllSteps cos_radians ts = inl AttributeError.
Proof.
  intros H. unfold ExecuteAllSteps, SliceRegions. cbv zeta iota beta.
  destruct H as [H|H].
  - rewrite H. reflexivity.
  - rewrite H. destruct (sel_box ts (190 # 1) (270 # 1) (- (3 # 1)) (3 # 1)); reflexivity.
Qed.

Lemma length_box_mean (box : DataArray) :
  length (box_mean cos_radians box) = length (da_values box).
Proof. unfold box_mean. apply length_map. Qed.

Lemma length_gradient (boxE boxW : DataArray) (n : nat) :
  length (da_values boxE) = n -> length (da_values boxW) = n ->
  length (map (fun p : option Q * option Q => minus_missing (fst p) (snd p))
              (combine (box_mean cos_radians boxW) (box_mean cos_radians boxE))) = n.
Proof.
  intros HE HW. rewrite length_map, length_combine, !length_box_mean. lia.
Qed.

End Weights.

End BoxMean.

Module ConstantField.

Import Numerics Gradient Fit BoxMean Samples.

Local Open Scope Q_scope.

Lemma cos_series_positive lat :
  - (3 # 1) <= lat -> lat <= 3 # 1 -> 0 < cos_series lat.
Proof.
  unfold cos_series. intros Hlo Hhi.
  assert (Hsq : lat * lat <= 9 # 1) by nra.
  lra.
Qed.

(** C9. Over a box with at least one cell in which the variable has one
    value at each time step, the cosine-weighted box mean is that value,
    one mean per time step and whatever the number of cells; so for a
    field that is constant in space, whenever the East and the West box
    that [SliceRegions] selects have at least one cell, the gradient has
    one value per time step and each of them is zero.  The weights only
    need to be positive on the latitudes of the box, as the cosine is. *)
Theorem constant_field_mean_and_gradient (cos_radians : Q -> Q) :
  (forall (box : DataArray) (cs : list Q),
     da_lat box <> [] -> da_lon box <> [] ->
     complete box = true ->
     uniform_field cs box = true ->
     (forall lat, In lat (da_lat box) -> 0 < cos_radians lat) ->
     length (box_mean cos_radians box) = length (da_time box) /\
     Forall2 (fun (m : option Q) (c : Q) => exists q, m = Some q /\ q == c)
             (box_mean cos_radians box) cs) /\
  (forall (ts boxE boxW : DataArray) (cs : list Q),
     complete ts = true ->
     uniform_field cs ts = true ->
     sel_box ts (190 # 1) (270 # 1) (- (3 # 1)) (3 # 1) = inr boxE ->
     sel_box ts (140 # 1) (170 # 1) (- (3 # 1)) (3 # 1) = inr boxW ->
     da_lat boxE <> [] -> da_lon boxE <> [] -> da_lon boxW <> [] ->
     (forall lat, In lat (da_lat boxE) -> 0 < cos_radians lat) ->
     exists g,
       ExecuteAllSteps cos_radians ts = inr g /\
       length g = length (da_time ts) /\
       List.Forall (fun v : option Q => exists q, v = Some q /\ q == 0) g).
Proof.
  split.
  - intros box cs Hlat Hlon Hcomplete Hconst Hpos.
    unfold complete in Hcomplete. apply andb_true_iff in Hcomplete as [Hlen Hshape].
    apply Nat.eqb_eq in Hlen. split.
    + rewrite length_box_mean. symmetry. exact Hlen.
    + apply box_mean_uniform; assumption.
  - intros ts boxE boxW cs Hcomplete Hconst HE HW Hlat HlonE HlonW Hpos.
    pose proof (sel_box_same_lat _ _ _ _ _ _ _ _ _ HE HW) as Hsame.
    destruct (complete_sel_box _ _ _ _ _ _ Hcomplete HE) as (HcE & _ & HnE).
    destruct (complete_sel_box _ _ _ _ _ _ Hcomplete HW) as (HcW & _ & HnW).
    unfold complete in HcE, HcW, Hcomplete.
    apply andb_true_iff in HcE as [_ HsE]. apply andb_true_iff in HcW as [_ HsW].
    apply andb_true_iff in Hcomplete as [Hlen _]. apply Nat.eqb_eq in Hlen.
    assert (HmE : Forall2 (fun (m : option Q) (c : Q) => exists q, m = Some q /\ q == c)
                          (box_mean cos_radians boxE) cs).
    { apply box_mean_uniform; try assumption.
      apply sel_box_inv in HE as (lons & lats & _ & _ & ->).
      apply uniform_isel_box, Hconst. }
    assert (HmW : Forall2 (fun (m : option Q) (c : Q) => exists q, m = Some q /\ q == c)
                          (box_mean cos_radians boxW) cs).
    { apply box_mean_uniform; try assumption.
      - rewrite Hsame. exact Hlat.
      - apply sel_box_inv in HW as (lons & lats & _ & _ & ->).
        apply uniform_isel_box, Hconst.
      - rewrite Hsame. exact Hpos. }
    eexists. split; [apply (ExecuteAllSteps_boxes _ _ _ _ HE HW)|]. split.
    + rewrite Hlen. apply length_gradient; assumption.
    + clear Hconst. revert HmE. generalize (box_mean cos_radians boxE) as mE.
      induction HmW as [|mW c mWs cs' (qW & -> & HqW) _ IH]; intros mE HmE.
      * constructor.
      * inversion HmE as [|mE0 c0 mEs cs0 (qE & -> & HqE) HmEs]; subst.
        cbn [combine map fst snd minus_missing]. constructor.
        -- eexists. split; [reflexivity|]. rewrite HqW, HqE. ring.
        -- apply IH, HmEs.
Qed.

Lemma constant_field_mean_and_gradient_witness :
  exists g,
    ExecuteAllSteps cos_series flat_field = inr g /\
    length g = length (da_time flat_field) /\
    List.Forall (fun v : option Q => exists q, v = Some q /\ q == 0) g.
Proof.
  apply (proj2 (constant_field_mean_and_gradient cos_series) flat_field
           (isel_box flat_field (2, 3)%nat (0, 3)%nat)
           (isel_box flat_field (0, 2)%nat (0, 3)%nat)
           [5 # 1; 5 # 1]).
  - reflexivity.
  - reflexivity.
  - reflexivity.
  - reflexivity.
  - simpl. discriminate.
  - simpl. discriminate.
  - simpl. discriminate.
  - simpl. intros lat [<-|[<-|[<-|[]]]]; reflexivity.
Defined.

End ConstantField.

(** ** The continuity resolver ([ExtendPeriod]) *)

Module Resolver.

Import Continuity Samples.

Lemma dict_mem_get {V} (k : string) (d : Dict V) :
  dict_mem k d = true <-> exists v, dict_get k d = Some v.
Proof.
  unfold dict_mem, dict_keys. induction d as [|[k' v'] d IH]; simpl.
  - split; [discriminate|]. intros [v Hv]. discriminate.
  - destruct (String.eqb k k'); simpl; [split; eauto|exact IH].
Qed.

Lemma list_item_nth {A} (l : list A) i a :
  list_item l i = inr a <-> nth_error l i = Some a.
Proof.
  unfold list_item. destruct (nth_error l i); split; intros H; congruence.
Qed.

Lemma random_choice_In {A} entropy (l : list A) a :
  random_choice entropy l = inr a -> In a l.
Proof.
  unfold random_choice. destruct l as [|x l]; [discriminate|].
  intros H. apply list_item_nth in H. apply nth_error_In in H. exact H.
Qed.

Lemma mapM_nth {A B} (f : A -> Result B) l bs i a :
  mapM f l = inr bs -> nth_error l i = Some a ->
  exists b, nth_error bs i = Some b /\ f a = inr b.
Proof.
  revert bs i. induction l as [|a0 l IH]; intros bs i Hm Hi.
  - destruct i; discriminate.
  - simpl in Hm. destruct (f a0) as [?|b0] eqn:Hf; [discriminate|]. simpl in Hm.
    destruct (mapM f l) as [?|bs'] eqn:Hm'; [discriminate|]. simpl in Hm.
    inversion Hm; subst. destruct i as [|i]; simpl in *.
    + inversion Hi; subst. eauto.
    + apply (IH bs' i eq_refl Hi).
Qed.

Lemma in_combine_seq {B} (mask : list B) m i b :
  In (i, b) (combine (seq m (length mask)) mask) ->
  (m <= i)%nat /\ nth_error mask (i - m) = Some b.
Proof.
  revert m. induction mask as [|b0 mask IH]; intros m H; simpl in H; [contradiction|].
  destruct H as [H|H].
  - inversion H; subst. rewrite Nat.sub_diag. split; [lia|reflexivity].
  - apply IH in H as [Hle Hn]. split; [lia|].
    replace (i - m)%nat with (S (i - S m)) by lia. exact Hn.
Qed.

Section Loader.

Variable Payload : Type.
Variable ModelInput_ds : string -> Result (Dataset Payload).

(** The key drawn by the randomised assignment is a key of the flattened
    registry whose text before the first underscore is the historical
    run's [source_id]. *)
Lemma choose_random_source (modelInput : Dataset Payload) scenarioModels entropy
    scenarioRandom flat :
  choose_random modelInput scenarioModels entropy = inr (scenarioRandom, flat) ->
  flat = flatten_items scenarioModels [] /\
  In scenarioRandom (dict_keys flat) /\
  exists modelHistID,
    dict_get "source_id" (attrs modelInput) = Some modelHistID /\
    model_source scenarioRandom = inr modelHistID.
Proof.
  unfold choose_random, dict_item. intros H.
  destruct (dict_get "source_id" (attrs modelInput)) as [modelHistID|]; [|discriminate].
  destruct (dict_get "variant_label" (attrs modelInput)) as [runHist|]; [|discriminate].
  simpl in H.
  destruct (mapM model_source (dict_keys (flatten_items scenarioModels [])))
    as [?|sources] eqn:Hsrc; [discriminate|]. simpl in H.
  destruct (random_choice entropy _) as [?|choice] eqn:Hchoice; [discriminate|].
  simpl in H.
  destruct (list_item (dict_keys (flatten_items scenarioModels [])) choice)
    as [?|k] eqn:Hk; [discriminate|]. simpl in H.
  inversion H; subst. split; [reflexivity|].
  apply list_item_nth in Hk. split; [apply (nth_error_In _ _ Hk)|].
  exists modelHistID. split; [reflexivity|].
  destruct (mapM_nth _ _ _ _ _ Hsrc Hk) as (src & Hnth & Hms).
  rewrite Hms. f_equal.
  apply random_choice_In in Hchoice. apply in_map_iff in Hchoice as ([i flag] & Hi & Hin).
  simpl in Hi. subst i. apply filter_In in Hin as [Hin Hflag]. simpl in Hflag. subst flag.
  assert (Hlen : length (dict_keys (flatten_items scenarioModels [])) = length sources).
  { clear -Hsrc. revert sources Hsrc.
    induction (dict_keys (flatten_items scenarioModels [])) as [|a l IH]; intros sources Hsrc.
    - inversion Hsrc. reflexivity.
    - simpl in Hsrc. destruct (model_source a); [discriminate|]. simpl in Hsrc.
      destruct (mapM model_source l); [discriminate|]. simpl in Hsrc.
      inversion Hsrc. simpl. f_equal. apply IH. reflexivity. }
  rewrite Hlen, <- (length_map (fun modelID => String.eqb modelID modelHistID)) in Hin.
  apply in_combine_seq in Hin as [_ Hmask]. rewrite Nat.sub_0_r, nth_error_map, Hnth in Hmask.
  simpl in Hmask. inversion Hmask as [Heq]. apply String.eqb_eq in Heq. exact Heq.
Qed.

Lemma dict_set_Forall {V} (P : string * V -> Prop) k v (d : Dict V) :
  List.Forall P d -> P (k, v) -> List.Forall P (dict_set k v d).
Proof.
  intros Hd Hkv. induction Hd as [|[k' v'] d Hk' Hd IH]; simpl.
  - constructor; [exact Hkv|constructor].
  - destruct (String.eqb k k'); constructor; assumption.
Qed.

Lemma dict_get_In {V} k (d : Dict V) v : dict_get k d = Some v -> In (k, v) d.
Proof.
  induction d as [|[k' v'] d IH]; simpl; [discriminate|].
  destruct (String.eqb_spec k k') as [->|Hne].
  - intros H. inversion H; subst. left. reflexivity.
  - intros H. right. apply IH, H.
Qed.

(** After flattening, no key holds more than one candidate. *)
Lemma flatten_values_single key value counter flat :
  List.Forall (fun kv : string * list string => (length (snd kv) <= 1)%nat) flat ->
  List.Forall (fun kv : string * list string => (length (snd kv) <= 1)%nat)
              (flatten_values key value counter flat).
Proof.
  revert counter flat. induction value as [|subValue value IH]; intros counter flat Hflat;
    simpl; [exact Hflat|].
  apply IH. apply dict_set_Forall; [exact Hflat|]. simpl. lia.
Qed.

Lemma flatten_items_single items flat :
  List.Forall (fun kv : string * list string => (length (snd kv) <= 1)%nat) flat ->
  List.Forall (fun kv : string * list string => (length (snd kv) <= 1)%nat)
              (flatten_items items flat).
Proof.
  revert flat. induction items as [|[key value] items IH]; intros flat Hflat; simpl;
    [exact Hflat|].
  apply IH. destruct (Nat.ltb_spec 1 (length value)) as [Hlt|Hle].
  - apply flatten_values_single, Hflat.
  - apply dict_set_Forall; [exact Hflat|]. simpl. exact Hle.
Qed.

(** Whichever branch is taken, the result is the historical run followed
    by one loaded scenario run. *)
Lemma ExtendPeriod_concat key (modelInput : Dataset Payload) scenarioModels entropy full :
  ExtendPeriod ModelInput_ds key modelInput scenarioModels entropy = inr full ->
  exists url dsScenario,
    ModelInput_ds url = inr dsScenario /\ full = xr_concat modelInput dsScenario.
Proof.
  unfold ExtendPeriod. intros H.
  destruct (dict_mem key scenarioModels).
  - destruct (dict_item key scenarioModels) as [?|candidates]; [discriminate|]. simpl in H.
    destruct (list_item candidates 0) as [?|url]; [discriminate|]. simpl in H.
    destruct (ModelInput_ds url) as [?|dsScenario] eqn:Hload; [discriminate|]. simpl in H.
    inversion H. eauto.
  - destruct (choose_random modelInput scenarioModels entropy) as [?|[k flat]];
      [discriminate|]. simpl in H.
    destruct (dict_item k flat) as [?|candidates]; [discriminate|]. simpl in H.
    destruct (list_item candidates 0) as [?|url]; [discriminate|]. simpl in H.
    destruct (ModelInput_ds url) as [?|dsScenario] eqn:Hload; [discriminate|]. simpl in H.
    inversion H. eauto.
Qed.

End Loader.

Lemma strictly_increasing_app (l1 l2 : list Date) :
  strictly_increasing (l1 ++ l2) = true <->
  strictly_increasing l1 = true /\ strictly_increasing l2 = true /\
  (forall a b, last l1 = Some a -> head l2 = Some b -> date_ltb a b = true).
Proof.
  induction l1 as [|a l1 IH].
  - simpl. split; [intros H|tauto]. repeat split; [exact H|discriminate].
  - destruct l1 as [|a' l1].
    + destruct l2 as [|b l2]; simpl.
      * split; [intros _|reflexivity]. repeat split; discriminate.
      * rewrite andb_true_iff. split.
        -- intros [Hab Hl2]. repeat split; [exact Hl2|].
           intros ? ? Ha Hb. inversion Ha; inversion Hb; subst. exact Hab.
        -- intros (_ & Hl2 & Hab). split; [apply Hab; reflexivity|exact Hl2].
    + change (strictly_increasing ((a :: a' :: l1) ++ l2))
        with (date_ltb a a' && strictly_increasing ((a' :: l1) ++ l2)).
      change (strictly_increasing (a :: a' :: l1))
        with (date_ltb a a' && strictly_increasing (a' :: l1)).
      change (last (a :: a' :: l1)) with (last (a' :: l1)).
      rewrite !andb_true_iff, IH. tauto.
Qed.

End Resolver.

Module ExtendedRun.

Import Continuity Resolver Samples.

(** C5. When the key is a key of the registry, [ExtendPeriod] loads the
    first candidate stored under it and returns the historical run
    followed by that run; the draw is never consulted, so the result is
    the same for every state of the random source. *)
Theorem exact_match_takes_first_candidate (Payload : Type)
    (ModelInput_ds : string -> Result (Dataset Payload))
    (key : string) (modelInput : Dataset Payload)
    (scenarioModels : Dict (list string)) :
  dict_mem key scenarioModels = true ->
  (forall entropy entropy',
     ExtendPeriod ModelInput_ds key modelInput scenarioModels entropy =
     ExtendPeriod ModelInput_ds key modelInput scenarioModels entropy') /\
  (forall url others entropy,
     dict_get key scenarioModels = Some (url :: others) ->
     ExtendPeriod ModelInput_ds key modelInput scenarioModels entropy =
     rbind (ModelInput_ds url) (fun dsScenario => inr (xr_concat modelInput dsScenario))).
Proof.
  intros Hmem. unfold ExtendPeriod. rewrite Hmem. split; [reflexivity|].
  intros url others entropy Hget. unfold dict_item. rewrite Hget. reflexivity.
Qed.

Lemma exact_match_takes_first_candidate_witness :
  ExtendPeriod loader "ACCESS-CM2_r1i1p1f1" hist_run registry 7 =
  rbind (loader "ssp245_a.nc") (fun dsScenario => inr (xr_concat hist_run dsScenario)).
Proof.
  apply (proj2 (exact_match_takes_first_candidate nat loader "ACCESS-CM2_r1i1p1f1"
                  hist_run registry eq_refl) "ssp245_a.nc" ["ssp245_b.nc"]%string 7%nat).
  reflexivity.
Defined.

(** C6. When the key is not in the registry and [ExtendPeriod] returns,
    the scenario run it appended was loaded from the single candidate of a
    flattened key whose text before the first underscore is the
    historical run's [source_id], whatever the draw. *)
Theorem fallback_selects_same_source (Payload : Type)
    (ModelInput_ds : string -> Result (Dataset Payload))
    (key : string) (modelInput : Dataset Payload)
    (scenarioModels : Dict (list string)) (entropy : nat) (full : Dataset Payload) :
  dict_mem key scenarioModels = false ->
  ExtendPeriod ModelInput_ds key modelInput scenarioModels entropy = inr full ->
  exists scenarioRandom modelHistID url dsScenario,
    dict_get "source_id" (attrs modelInput) = Some modelHistID /\
    model_source scenarioRandom = inr modelHistID /\
    dict_get scenarioRandom (flatten_items scenarioModels []) = Some [url] /\
    ModelInput_ds url = inr dsScenario /\
    full = xr_concat modelInput dsScenario.
Proof.
  intros Hmem H. unfold ExtendPeriod in H. rewrite Hmem in H.
  destruct (choose_random modelInput scenarioModels entropy) as [?|[k flat]] eqn:Hchoose;
    [discriminate|]. simpl in H.
  destruct (choose_random_source _ _ _ _ _ _ Hchoose) as (-> & _ & src & Hsrc & Hms).
  unfold dict_item in H.
  destruct (dict_get k (flatten_items scenarioModels [])) as [candidates|] eqn:Hget;
    [|discriminate]. simpl in H.
  destruct (list_item candidates 0) as [?|url] eqn:Hurl; [discriminate|]. simpl in H.
  destruct (ModelInput_ds url) as [?|dsScenario] eqn:Hload; [discriminate|]. simpl in H.
  inversion H; subst. exists k, src, url, dsScenario.
  repeat split; try assumption.
  pose proof (flatten_items_single scenarioModels [] (List.Forall_nil _)) as Hsingle.
  rewrite List.Forall_forall in Hsingle.
  specialize (Hsingle _ (dict_get_In _ _ _ Hget)). simpl in Hsingle.
  destruct candidates as [|c [|c' cs]]; simpl in Hsingle; [discriminate| |lia].
  inversion Hurl; subst. exact Hget.
Qed.

Lemma fallback_selects_same_source_witness :
  exists scenarioRandom modelHistID url dsScenario,
    dict_get "source_id" (attrs hist_run) = Some modelHistID /\
    model_source scenarioRandom = inr modelHistID /\
    dict_get scenarioRandom (flatten_items registry []) = Some [url] /\
    loader url = inr dsScenario /\
    xr_concat hist_run scenario_run = xr_concat hist_run dsScenario.
Proof.
  apply (fallback_selects_same_source nat loader "ACCESS-CM2_r9i1p1f1" hist_run registry 3
           (xr_concat hist_run scenario_run)).
  - reflexivity.
  - vm_compute. reflexivity.
Defined.

(** C8, as the code has it. The time axis of the result is the time axis
    of the historical run followed by that of the loaded scenario run, in
    that order and without sorting or removal of duplicates; it is
    strictly increasing exactly when both axes are and the historical run
    ends before the scenario run starts. *)
Theorem extended_axis_is_concatenation (Payload : Type)
    (ModelInput_ds : string -> Result (Dataset Payload))
    (key : string) (modelInput : Dataset Payload)
    (scenarioModels : Dict (list string)) (entropy : nat) (full : Dataset Payload) :
  ExtendPeriod ModelInput_ds key modelInput scenarioModels entropy = inr full ->
  exists url dsScenario,
    ModelInput_ds url = inr dsScenario /\
    time_axis full = time_axis modelInput ++ time_axis dsScenario /\
    (strictly_increasing (time_axis full) = true <->
     strictly_increasing (time_axis modelInput) = true /\
     strictly_increasing (time_axis dsScenario) = true /\
     (forall a b, last (time_axis modelInput) = Some a ->
                  head (time_axis dsScenario) = Some b -> date_ltb a b = true)).
Proof.
  intros H. destruct (ExtendPeriod_concat _ _ _ _ _ _ _ H) as (url & dsScenario & Hload & ->).
  exists url, dsScenario. split; [exact Hload|].
  assert (Haxis : time_axis (xr_concat modelInput dsScenario) =
                  time_axis modelInput ++ time_axis dsScenario).
  { unfold time_axis, xr_concat. simpl. apply map_app. }
  split; [exact Haxis|]. rewrite Haxis. apply strictly_increasing_app.
Qed.

Lemma extended_axis_is_concatenation_witness :
  exists url dsScenario,
    loader url = inr dsScenario /\
    time_axis (xr_concat hist_run scenario_run) = time_axis hist_run ++ time_axis dsScenario /\
    (strictly_increasing (time_axis (xr_concat hist_run scenario_run)) = true <->
     strictly_increasing (time_axis hist_run) = true /\
     strictly_increasing (time_axis dsScenario) = true /\
     (forall a b, last (time_axis hist_run) = Some a ->
                  head (time_axis dsScenario) = Some b -> date_ltb a b = true)).
Proof.
  apply (extended_axis_is_concatenation nat loader "ACCESS-CM2_r1i1p1f1" hist_run registry 0
           (xr_concat hist_run scenario_run)).
  vm_compute. reflexivity.
Defined.

(** C8, as stated, fails: a registered scenario run that starts in the
    month in which the historical run ends gives a result whose time axis
    repeats December 2014. *)
Lemma extended_axis_can_repeat :
  exists full,
    ExtendPeriod loader "ACCESS-CM2_r1i1p1f1" hist_run registry 0 = inr full /\
    strictly_increasing (time_axis full) = false.
Proof.
  eexists. split; [vm_compute; reflexivity|]. vm_compute. reflexivity.
Qed.

End ExtendedRun.

(** ** The fragment stitcher ([ConcatModels]) *)

Module Stitcher.

Import Continuity Resolver Window Samples.

Section Sorting.

Variable Payload : Type.


Lemma insert_row_perm (r : TimeValue * Payload) l : Permutation (insert_row r l) (r :: l).
Proof.
  induction l as [|r' l IH]; simpl; [reflexivity|].
  destruct (date_leb _ _); [reflexivity|].
  rewrite IH. apply perm_swap.
Qed.

Lemma sort_rows_perm (l : list (TimeValue * Payload)) : Permutation (sort_rows l) l.
Proof.
  induction l as [|r l IH]; simpl; [reflexivity|].
  rewrite insert_row_perm, IH. reflexivity.
Qed.

Lemma insert_row_ascending (r : TimeValue * Payload) l :
  ascending (map (fun r : TimeValue * Payload => tv_date (fst r)) l) = true -> ascending (map (fun r : TimeValue * Payload => tv_date (fst r)) (insert_row r l)) = true.
Proof.
  induction l as [|r' l IH]; intros Hasc; [reflexivity|].
  simpl insert_row. destruct (date_leb (tv_date (fst r)) (tv_date (fst r'))) eqn:Hle.
  - change (date_leb (tv_date (fst r)) (tv_date (fst r')) && ascending (map (fun r : TimeValue * Payload => tv_date (fst r)) (r' :: l)) = true).
    rewrite Hle, Hasc. reflexivity.
  - pose proof (IH (ascending_tail_dates _ _ Hasc)) as Hins. clear IH.
    apply date_leb_false, date_ltb_leb in Hle.
    destruct l as [|r'' l]; simpl in *.
    + rewrite Hle. reflexivity.
    + apply andb_true_iff in Hasc as [Hr' _].
      destruct (date_leb (tv_date (fst r)) (tv_date (fst r''))); simpl in *.
      * rewrite Hle. exact Hins.
      * rewrite Hr'. exact Hins.
Qed.

Lemma sort_rows_ascending (l : list (TimeValue * Payload)) : ascending (map (fun r : TimeValue * Payload => tv_date (fst r)) (sort_rows l)) = true.
Proof.
  induction l as [|r l IH]; [reflexivity|]. simpl. apply insert_row_ascending, IH.
Qed.

(** A time axis already in order is left as it is. *)
Lemma sort_rows_sorted (l : list (TimeValue * Payload)) : ascending (map (fun r : TimeValue * Payload => tv_date (fst r)) l) = true -> sort_rows l = l.
Proof.
  induction l as [|r l IH]; intros Hasc; [reflexivity|].
  simpl. rewrite (IH (ascending_tail_dates _ _ Hasc)).
  destruct l as [|r' l]; [reflexivity|]. simpl in *.
  apply andb_true_iff in Hasc as [-> _]. reflexivity.
Qed.

Lemma same_class_uniform (l : list (TimeValue * Payload)) c :
  List.Forall (fun r : TimeValue * Payload => tv_class (fst r) = c) l -> same_class l = true.
Proof.
  intros H. destruct H as [|r l Hr Hl]; [reflexivity|]. simpl.
  apply forallb_forall. intros r' Hr'. rewrite List.Forall_forall in Hl.
  rewrite Hr, (Hl r' Hr'). destruct c; reflexivity.
Qed.

Variable open_dataset : string -> Result (Dataset Payload).

Lemma concat_rest_all_open ds urls dss :
  mapM open_dataset urls = inr dss ->
  concat_rest open_dataset ds urls = inr (fold_left xr_concat dss ds).
Proof.
  revert ds dss. induction urls as [|u urls IH]; intros ds dss Hm; simpl in *.
  - inversion Hm. reflexivity.
  - destruct (open_dataset u) as [?|ds2]; [discriminate|]. simpl in *.
    destruct (mapM open_dataset urls) as [?|dss']; [discriminate|]. simpl in Hm.
    inversion Hm; subst. simpl. apply IH. reflexivity.
Qed.

End Sorting.

(** C7, as the code has it. For a non-empty list of files that all open,
    whose concatenation has at least one time step and a time axis that is
    all [datetime64] or all no-leap, [ConcatModels] sorts the concatenated
    rows by time and returns them with the attributes of the first file
    exactly when the first time is at or before 1850-01-31 and the last at
    or after 2014-12-01; otherwise it raises [ValueError].  A single file
    whose time axis is in order comes back as it is. *)
Theorem ConcatModels_on_supported_calendars (Payload : Type)
    (open_dataset : string -> Result (Dataset Payload))
    (modelDict : list string) (ds0 : Dataset Payload) (dss : list (Dataset Payload))
    (c : TimeClass) :
  mapM open_dataset modelDict = inr (ds0 :: dss) ->
  c = Datetime64 \/ c = DatetimeNoLeap ->
  rows (fold_left xr_concat dss ds0) <> [] ->
  List.Forall (fun r : TimeValue * Payload => tv_class (fst r) = c)
              (rows (fold_left xr_concat dss ds0)) ->
  Permutation (sort_rows (rows (fold_left xr_concat dss ds0)))
              (rows (fold_left xr_concat dss ds0)) /\
  ascending (map (fun r : TimeValue * Payload => tv_date (fst r))
                 (sort_rows (rows (fold_left xr_concat dss ds0)))) = true /\
  ConcatModels open_dataset modelDict =
    (if covers (midnight 1850 1 31) (midnight 2014 12 1)
          (map (fun r : TimeValue * Payload => tv_date (fst r))
               (sort_rows (rows (fold_left xr_concat dss ds0))))
     then inr (mkDataset (attrs (fold_left xr_concat dss ds0))
                         (sort_rows (rows (fold_left xr_concat dss ds0))))
     else inl ValueError) /\
  (dss = [] -> ascending (time_axis ds0) = true ->
   mkDataset (attrs (fold_left xr_concat dss ds0))
             (sort_rows (rows (fold_left xr_concat dss ds0))) = ds0).
Proof.
  intros Hopen Hc Hne Hclass.
  split; [apply sort_rows_perm|]. split; [apply sort_rows_ascending|]. split.
  - destruct modelDict as [|u0 urls]; [discriminate|].
    simpl in Hopen. destruct (open_dataset u0) as [?|d0] eqn:H0; [discriminate|].
    simpl in Hopen. destruct (mapM open_dataset urls) as [?|dss'] eqn:Hrest; [discriminate|].
    simpl in Hopen. inversion Hopen; subst d0 dss'. clear Hopen.
    unfold ConcatModels.
    change (list_item (u0 :: urls) 0) with (inr u0 : Result string).
    cbn [rbind]. rewrite H0. cbn [rbind].
    assert (Hmerge : (if (1 <? length (u0 :: urls))%nat
                      then concat_rest open_dataset ds0 (skipn 1 (u0 :: urls))
                      else inr ds0) = inr (fold_left xr_concat dss ds0)).
    { simpl skipn. destruct urls as [|u1 urls'].
      - simpl in Hrest. inversion Hrest. reflexivity.
      - simpl length. simpl Nat.ltb. apply concat_rest_all_open. exact Hrest. }
    rewrite Hmerge. cbn [rbind].
    set (merged := fold_left xr_concat dss ds0) in *.
    unfold sortby_time. rewrite (same_class_uniform _ _ c Hclass). cbn [rbind rows attrs].
    pose proof (sort_rows_perm Payload (rows merged)) as Hperm.
    destruct (sort_rows (rows merged)) as [|r0 sorted] eqn:Hsorted.
    { apply Permutation_nil in Hperm. congruence. }
    change (list_item (r0 :: sorted) 0) with (inr r0 : Result (TimeValue * Payload)).
    cbn [rbind].
    assert (Hr0 : tv_class (fst r0) = c).
    { rewrite List.Forall_forall in Hclass. apply Hclass.
      apply (Permutation_in _ Hperm). left. reflexivity. }
    rewrite Hr0. unfold time_axis. cbn [rows].
    destruct Hc as [-> | ->]; reflexivity.
  - intros -> Hasc. simpl. unfold time_axis in Hasc.
    rewrite (sort_rows_sorted _ _ Hasc). destruct ds0; reflexivity.
Qed.

Lemma ConcatModels_on_supported_calendars_witness :
  ConcatModels file_store ["late.nc"; "early.nc"]%string =
  inr (mkDataset (attrs fragment_late) (rows fragment_early ++ rows fragment_late)).
Proof.
  destruct (ConcatModels_on_supported_calendars nat file_store ["late.nc"; "early.nc"]%string
              fragment_late [fragment_early] Datetime64) as (_ & _ & Hrun & _).
  - reflexivity.
  - left. reflexivity.
  - discriminate.
  - vm_compute. repeat constructor.
  - rewrite Hrun. vm_compute. reflexivity.
Defined.

(** C7, as stated, fails: a file on a 360-day calendar spans the required
    period, yet it is not returned, and what is raised is not the coverage
    error. *)
Lemma ConcatModels_360_day_not_returned :
  covers (midnight 1850 1 31) (midnight 2014 12 1) (time_axis run_360_day) = true /\
  ascending (time_axis run_360_day) = true /\
  ConcatModels file_store ["360.nc"]%string = inl UnboundLocalError.
Proof. vm_compute. repeat split. Qed.

End Stitcher.

(** ** The definitions on the sample inputs *)

Module Checks.

Import Numerics Trend Gradient Continuity Samples.

Example range_like_python : range 3 6 = [3; 4; 5] /\ range 6 3 = [].
Proof. split; reflexivity. Qed.

Example cell_keys_153 :
  cell_keys 153 = [(1870, 2023); (1870, 2024); (1871, 2023); (1871, 2024)].
Proof. reflexivity. Qed.

Example sparse_matrix_complete :
  snd (CalculateTrends sparse_gradient 153) = None /\
  fst (CalculateTrends sparse_gradient 153) !! (1871, 2023) = Some NaN /\
  fst (CalculateTrends sparse_gradient 153) !! (1870, 2024) = Some (Val (327600 # 4200)).
Proof. vm_compute. repeat split. Qed.

Example sparse_matrix_flaky :
  map_to_list (fst (CalculateTrends_with flaky_fit sparse_gradient 153)) =
  [((1870, 2023), Val (382200 # 3185))].
Proof. vm_compute. reflexivity. Qed.

Example polyfit_rejects_empty : polyfit [] [] = inl TypeError.
Proof. reflexivity. Qed.

Example flattened_registry :
  flatten_items registry [] =
  [("ACCESS-CM2_r1i1p1f1_0", ["ssp245_a.nc"]);
   ("ACCESS-CM2_r1i1p1f1_1", ["ssp245_b.nc"]);
   ("CanESM5_r2i1p1f1", ["ssp245_c.nc"])]%string.
Proof. reflexivity. Qed.

Example model_source_of_flat_key :
  model_source "ACCESS-CM2_r1i1p1f1_0" = inr "ACCESS-CM2"%string /\
  model_source "nounderscore" = inl ValueError.
Proof. split; reflexivity. Qed.

Example draws_stay_in_source :
  map (fun entropy => rbind (choose_random hist_run registry entropy) (fun p => inr (fst p)))
      [0; 1; 2; 3]%nat =
  [inr "ACCESS-CM2_r1i1p1f1_0"; inr "ACCESS-CM2_r1i1p1f1_1";
   inr "ACCESS-CM2_r1i1p1f1_0"; inr "ACCESS-CM2_r1i1p1f1_1"]%string.
Proof. vm_compute. reflexivity. Qed.

Example no_candidate_of_source :
  choose_random hist_run [("CanESM5_r2i1p1f1", ["ssp245_c.nc"])]%string 0 = inl IndexError.
Proof. vm_compute. reflexivity. Qed.

Example one_fragment_too_short :
  ConcatModels file_store ["early.nc"]%string = inl ValueError /\
  ConcatModels file_store [] = inl IndexError.
Proof. vm_compute. split; reflexivity. Qed.

Example empty_box_is_missing :
  weighted_mean [] [] = None.
Proof. reflexivity. Qed.

Example slices_by_label :
  slice_indexer (- (3 # 1)) (3 # 1) [- (5 # 1); - (2 # 1); 0; 2 # 1; 5 # 1]%Q
    = inr (1, 4)%nat /\
  slice_indexer (- (3 # 1)) (3 # 1) [5 # 1; 2 # 1; 0; - (2 # 1); - (5 # 1)]%Q
    = inr (4, 1)%nat /\
  slice_indexer (140 # 1) (170 # 1) [200 # 1; 140 # 1; 300 # 1; 170 # 1; 100 # 1]%Q
    = inr (1, 4)%nat /\
  slice_indexer (140 # 1) (170 # 1) [200 # 1; 150 # 1; 300 # 1; 170 # 1]%Q
    = inl KeyError /\
  slice_indexer (140 # 1) (170 # 1) [140 # 1; 300 # 1; 140 # 1; 170 # 1]%Q
    = inl KeyError /\
  isel 4 1 [1; 2; 3; 4; 5] = [] /\ isel 1 4 [1; 2; 3; 4; 5] = [2; 3; 4].
Proof. repeat split. Qed.

Example gradient_of_samples :
  rbind (ExecuteAllSteps cos_series flat_field)
        (fun g => inr (map (option_map Qred) g)) = inr [Some 0%Q; Some 0%Q] /\
  ExecuteAllSteps cos_series Bounds.north_to_south_field = inr [None; None] /\
  ExecuteAllSteps cos_series Bounds.unordered_field = inl AttributeError /\
  SliceRegions Bounds.unordered_field = (None, None, Some KeyError).
Proof. vm_compute. repeat split. Qed.

End Checks.

(** ** Further properties of the trend matrix *)

Module TrendShape.

Import Numerics Trend TrendLoop Fit Index Rescale Samples.

(** X1. A cell holds a number only for a window that passes the three
    tests: start before end, a span of at least [minTrend] years, and more
    than 12 selected samples; and the number is then 120 times the slope of
    the selected values against 0, 1, ..., n-1. *)
Theorem value_implies_valid_window (g : Series) (minTrend s e : Z) (q : Q) :
  fst (CalculateTrends g minTrend) !! (s, e) = Some (Val q) ->
  s < e /\ e - s >= minTrend /\
  (12 < length (sel_time g (midnight s monStart dayStart) (midnight e monEnd dayEnd)))%nat /\
  yearStart <= s /\ e <= yearEnd /\
  q = (ols_slope
         (map inject_Z (arith_index 0
            (length (sel_time g (midnight s monStart dayStart) (midnight e monEnd dayEnd)))))
         (map snd (sel_time g (midnight s monStart dayStart) (midnight e monEnd dayEnd)))
       * inject_Z 120)%Q.
Proof.
  intros Hq.
  assert (Htests : s < e /\ e - s >= minTrend /\
            (12 < length (sel_time g (midnight s monStart dayStart)
                                   (midnight e monEnd dayEnd)))%nat /\
            yearStart <= s /\ e <= yearEnd).
  { destruct (CalculateTrends_complete g minTrend) as (_ & Hin & Hout).
    destruct (decide ((s, e) ∈ cell_keys minTrend)) as [Hk|Hk];
      rewrite list_elem_of_In in Hk.
    - destruct (cell_value_polyfit_ok g minTrend (s, e)) as [v Hv]. simpl in Hv.
      rewrite (Hin s e v Hk Hv) in Hq. inversion Hq; subst v.
      rewrite cell_value_polyfit in Hv. apply in_cell_keys in Hk.
      destruct (Z.geb_spec s e) as [?|Hlt]; [discriminate|].
      destruct (Z.ltb_spec (e - s) minTrend) as [?|Hge]; [discriminate|].
      cbv zeta in Hv.
      destruct (Z.ltb_spec 12 (Z.of_nat (length (sel_time g (midnight s monStart dayStart) (midnight e monEnd dayEnd)))))
        as [Hlen|?]; [|discriminate].
      lia.
    - rewrite (Hout _ Hk) in Hq. discriminate. }
  destruct Htests as (Hlt & Hmin & Hlen & Hs & He).
  repeat (split; [assumption|]).
  rewrite (RecordedTrend.recorded_trend g minTrend s e Hs He Hlt Hmin Hlen) in Hq.
  inversion Hq. reflexivity.
Qed.

Lemma value_implies_valid_window_witness :
  1870 < 2023 /\ 2023 - 1870 >= 153 /\
  (12 < length (sel_time sparse_gradient (midnight 1870 monStart dayStart)
                         (midnight 2023 monEnd dayEnd)))%nat /\
  yearStart <= 1870 /\ 2023 <= yearEnd /\
  (382200 # 3185) =
  (ols_slope
     (map inject_Z (arith_index 0
        (length (sel_time sparse_gradient (midnight 1870 monStart dayStart)
                          (midnight 2023 monEnd dayEnd)))))
     (map snd (sel_time sparse_gradient (midnight 1870 monStart dayStart)
                        (midnight 2023 monEnd dayEnd)))
   * inject_Z 120)%Q.
Proof.
  apply (value_implies_valid_window sparse_gradient 153 1870 2023 (382200 # 3185)).
  vm_compute. reflexivity.
Defined.

Lemma length_range a b : length (range a b) = Z.to_nat (b - a).
Proof. unfold range. rewrite length_map, length_seq. reflexivity. Qed.

Lemma length_cell_keys minTrend :
  length (cell_keys minTrend) =
  (Z.to_nat (yearEnd + 1 - yearStart - minTrend) * Z.to_nat (yearEnd + 1 - yearStart - minTrend))%nat.
Proof.
  unfold cell_keys. rewrite length_flat_map.
  rewrite (map_ext _ (fun _ => Z.to_nat (yearEnd + 1 - yearStart - minTrend))).
  - assert (Hsum : forall (n : nat) (l : list Z),
               list_sum (map (fun _ => n) l) = (length l * n)%nat).
    { intros n l. induction l as [|x l IH]; simpl; [reflexivity|].
      rewrite IH. reflexivity. }
    rewrite Hsum, length_range. f_equal. f_equal. lia.
  - intros start_year. rewrite length_map, length_range. f_equal. lia.
Qed.

(** X2. The dictionary has [(155 - minTrend)^2] entries, none when
    [minTrend] is 155 or more: the square of the number of start years. *)
Theorem trend_matrix_size (g : Series) (minTrend : Z) :
  size (fst (CalculateTrends g minTrend)) =
  (Z.to_nat (155 - minTrend) * Z.to_nat (155 - minTrend))%nat.
Proof.
  destruct (CalculateTrends_complete g minTrend) as (_ & Hin & Hout).
  assert (Hdom : dom (fst (CalculateTrends g minTrend)) =
                 (list_to_set (cell_keys minTrend) : gset (Z * Z))).
  { apply set_eq. intros [s e]. rewrite elem_of_dom, elem_of_list_to_set, list_elem_of_In.
    split.
    - intros [v Hv]. destruct (decide ((s, e) ∈ cell_keys minTrend)) as [Hk|Hk];
        rewrite list_elem_of_In in Hk; [exact Hk|].
      rewrite (Hout _ Hk) in Hv. discriminate.
    - intros Hk. destruct (cell_value_polyfit_ok g minTrend (s, e)) as [v Hv].
      exists v. apply Hin; assumption. }
  rewrite <- size_dom, Hdom, size_list_to_set.
  - rewrite length_cell_keys. reflexivity.
  - apply NoDup_ListNoDup, NoDup_cell_keys.
Qed.

(** The slope of rescaled values. *)
Lemma Qsum_affine a b (y : list Q) :
  (Qsum (map (fun v => a * v + b) y) == a * Qsum y + Qlen y * b)%Q.
Proof.
  induction y as [|y0 y IH].
  - unfold Qlen. simpl. ring.
  - simpl map. rewrite !Qsum_cons, IH, Qlen_cons. ring.
Qed.

Lemma Qdot_affine a b (x y : list Q) :
  length x = length y ->
  (Qdot x (map (fun v => a * v + b) y) == a * Qdot x y + b * Qsum x)%Q.
Proof.
  revert y. induction x as [|x0 x IH]; intros [|y0 y] Hlen; try discriminate.
  - unfold Qdot. simpl. ring.
  - unfold Qdot in *. simpl. rewrite IH by (simpl in Hlen; lia). ring.
Qed.

Lemma ols_slope_affine a b (x y : list Q) :
  length x = length y ->
  (ols_slope x (map (fun v => a * v + b) y) == a * ols_slope x y)%Q.
Proof.
  intros Hlen. unfold ols_slope, ols_num.
  rewrite (Qdot_affine a b x y Hlen), Qsum_affine.
  replace (Qlen y) with (Qlen x) by (unfold Qlen; rewrite Hlen; reflexivity).
  unfold Qdiv. ring.
Qed.

Lemma sel_time_affine a b (g : Series) d1 d2 :
  sel_time (affine_series a b g) d1 d2 = affine_series a b (sel_time g d1 d2).
Proof.
  unfold sel_time, affine_series. induction g as [|s g IH]; [reflexivity|].
  cbn [map List.filter].
  change (in_window d1 d2 (fst s, (a * snd s + b)%Q)) with (in_window d1 d2 s).
  destruct (in_window d1 d2 s); cbn [map]; rewrite IH; reflexivity.
Qed.

(** X3. After the change of unit [v |-> a * v + b] of the series, every
    recorded trend is [a] times what it was, the offset [b] drops out, and
    the missing cells and the keys are the same. *)
Theorem trends_under_change_of_unit (g : Series) (minTrend : Z) (a b : Q) (s e : Z) :
  cell_scaled a (fst (CalculateTrends g minTrend) !! (s, e))
                (fst (CalculateTrends (affine_series a b g) minTrend) !! (s, e)).
Proof.
  destruct (CalculateTrends_complete g minTrend) as (_ & Hin & Hout).
  destruct (CalculateTrends_complete (affine_series a b g) minTrend) as (_ & Hin' & Hout').
  destruct (decide ((s, e) ∈ cell_keys minTrend)) as [Hk|Hk]; rewrite list_elem_of_In in Hk.
  - destruct (cell_value_polyfit_ok g minTrend (s, e)) as [v Hv].
    destruct (cell_value_polyfit_ok (affine_series a b g) minTrend (s, e)) as [v' Hv'].
    simpl in Hv, Hv'. rewrite (Hin s e v Hk Hv), (Hin' s e v' Hk Hv').
    rewrite cell_value_polyfit in Hv, Hv'. cbv zeta in Hv, Hv'.
    rewrite sel_time_affine in Hv'.
    assert (Hvals : forall l : Series,
               map snd (affine_series a b l) = map (fun v => (a * v + b)%Q) (map snd l)).
    { intros l. unfold affine_series. rewrite !map_map. reflexivity. }
    assert (Hlen : forall l : Series, length (affine_series a b l) = length l).
    { intros l. unfold affine_series. apply length_map. }
    rewrite Hvals, Hlen in Hv'.
    destruct (s >=? e); [injection Hv as <-; injection Hv' as <-; exact I|].
    destruct (e - s <? minTrend); [injection Hv as <-; injection Hv' as <-; exact I|].
    destruct (12 <? _); [|injection Hv as <-; injection Hv' as <-; exact I].
    injection Hv as <-. injection Hv' as <-. unfold cell_scaled.
    rewrite ols_slope_affine; [ring|].
    rewrite !length_map, length_seq. reflexivity.
  - rewrite (Hout _ Hk), (Hout' _ Hk). exact I.
Qed.

End TrendShape.

(** ** Further properties of the box means and the gradient *)

Module GradientShape.

Import Numerics Gradient Fit BoxMean ConstantField Rescale Bounds Samples.

Local Open Scope Q_scope.

Lemma isel_box_affine a b da lons lats :
  isel_box (affine_field a b da) lons lats = affine_field a b (isel_box da lons lats).
Proof.
  unfold isel_box, affine_field. cbn [da_time da_lat da_lon da_values]. f_equal.
  rewrite !map_map. apply map_ext. intros slab.
  rewrite isel_map, !map_map. apply map_ext. intros row.
  apply isel_map.
Qed.

(** The selection looks at the coordinates only. *)
Lemma sel_box_affine a b da lonmin lonmax latmin latmax :
  sel_box (affine_field a b da) lonmin lonmax latmin latmax =
  match sel_box da lonmin lonmax latmin latmax with
  | inr box => inr (affine_field a b box)
  | inl e => inl e
  end.
Proof.
  unfold sel_box. cbn [affine_field da_lat da_lon].
  destruct (slice_indexer lonmin lonmax (da_lon da)) as [e|lons]; [reflexivity|].
  destruct (slice_indexer latmin latmax (da_lat da)) as [e|lats]; [reflexivity|].
  cbn [rbind]. rewrite <- isel_box_affine. reflexivity.
Qed.

Lemma sum_of_weights_affine a b (w : list Q) (slab : list (list Q)) :
  sum_of_weights w (map (map (fun x => a * x + b)) slab) = sum_of_weights w slab.
Proof.
  unfold sum_of_weights. revert w. induction slab as [|row slab IH]; intros [|w0 w];
    try reflexivity.
  cbn [map combine fst snd]. rewrite map_map. rewrite !Qsum_cons. f_equal. apply IH.
Qed.

Lemma weighted_sum_affine a b (w : list Q) (slab : list (list Q)) :
  weighted_sum w (map (map (fun x => a * x + b)) slab) ==
  a * weighted_sum w slab + b * sum_of_weights w slab.
Proof.
  unfold weighted_sum, sum_of_weights. revert w.
  induction slab as [|row slab IH]; intros [|w0 w]; try (simpl; ring).
  cbn [map combine fst snd]. rewrite !Qsum_cons, IH.
  assert (Hrow : Qsum (map (fun x => w0 * x) (map (fun x => a * x + b) row)) ==
                 a * Qsum (map (fun x => w0 * x) row) + b * Qsum (map (fun _ : Q => w0) row)).
  { clear. induction row as [|x row IHr]; [simpl; ring|].
    cbn [map]. rewrite !Qsum_cons, IHr. ring. }
  rewrite Hrow. ring.
Qed.

Lemma weighted_mean_affine a b (w : list Q) (slab : list (list Q)) :
  match weighted_mean w slab, weighted_mean w (map (map (fun x => a * x + b)) slab) with
  | Some q, Some q' => q' == a * q + b
  | None, None => True
  | _, _ => False
  end.
Proof.
  unfold weighted_mean. rewrite sum_of_weights_affine.
  destruct (Qeq_bool (sum_of_weights w slab) 0) eqn:Hz; [exact I|].
  apply Qeq_bool_neq in Hz. rewrite weighted_sum_affine. field. exact Hz.
Qed.

Lemma leading_le {A} (p q : A -> bool) (l : list A) :
  (forall x, p x = true -> q x = true) -> (leading p l <= leading q l)%nat.
Proof.
  intros Hpq. induction l as [|x l IH]; simpl; [lia|].
  destruct (p x) eqn:Hp.
  - rewrite (Hpq x Hp). lia.
  - lia.
Qed.

Lemma increasing_tail a (l : list Q) :
  is_monotonic_increasing (a :: l) = true ->
  is_monotonic_increasing l = true /\ List.Forall (fun c => a <= c) l.
Proof.
  revert a. induction l as [|b l IH]; intros a H; [split; [reflexivity|constructor]|].
  cbn [is_monotonic_increasing] in H. apply andb_true_iff in H as [Hab Hl].
  apply Qle_bool_iff in Hab. split; [exact Hl|].
  destruct (IH b Hl) as [_ Hb]. constructor; [exact Hab|].
  apply (List.Forall_impl _ (fun c (Hc : b <= c) => Qle_trans _ _ _ Hab Hc) Hb).
Qed.

Lemma firstn_leading_filter hi (l : list Q) :
  is_monotonic_increasing l = true ->
  firstn (leading (fun c => Qle_bool c hi) l) l =
  List.filter (fun c => Qle_bool c hi) l.
Proof.
  induction l as [|a l IH]; intros Hinc; [reflexivity|].
  destruct (increasing_tail a l Hinc) as [Hl Hge].
  cbn [leading List.filter]. destruct (Qle_bool a hi) eqn:Ha.
  - cbn [firstn]. rewrite (IH Hl). reflexivity.
  - cbn [firstn]. symmetry. clear -Ha Hge.
    induction Hge as [|c l Hc _ IHl]; [reflexivity|]. cbn [List.filter].
    destruct (Qle_bool c hi) eqn:Hchi; [|exact IHl].
    apply Qle_bool_iff in Hchi.
    assert (Habs : Qle_bool a hi = true) by (apply Qle_bool_iff; lra).
    congruence.
Qed.

(** On an index that runs upwards the slice holds exactly the labels
    between the two bounds. *)
Lemma slice_on_increasing_index lo hi (index : list Q) :
  lo <= hi -> is_monotonic_increasing index = true ->
  exists start stop,
    slice_indexer lo hi index = inr (start, stop) /\
    isel start stop index =
    List.filter (fun c => Qle_bool lo c && Qle_bool c hi) index.
Proof.
  intros Hle Hinc. unfold slice_indexer, get_slice_bound. rewrite Hinc. cbn [rbind].
  eexists _, _. split; [reflexivity|].
  induction index as [|a l IH]; [reflexivity|].
  destruct (increasing_tail a l Hinc) as [Hl Hge].
  cbn [leading List.filter]. destruct (Qle_bool lo a) eqn:Hlo; cbn [negb andb].
  - unfold isel. cbn [skipn].
    change (if Qle_bool a hi then S (leading (fun c => Qle_bool c hi) l) else O)
      with (leading (fun c => Qle_bool c hi) (a :: l)).
    rewrite (firstn_leading_filter hi (a :: l) Hinc). cbn [List.filter].
    apply Qle_bool_iff in Hlo.
    assert (Hsame : List.filter (fun c => Qle_bool c hi) l =
                    List.filter (fun c => Qle_bool lo c && Qle_bool c hi) l).
    { apply filter_ext_in. intros c Hc. rewrite List.Forall_forall in Hge.
      specialize (Hge c Hc).
      assert (Hloc : Qle_bool lo c = true) by (apply Qle_bool_iff; lra).
      rewrite Hloc. reflexivity. }
    rewrite Hsame. reflexivity.
  - assert (Hhi : Qle_bool a hi = true).
    { apply Qle_bool_iff. destruct (Qlt_le_dec a lo) as [Hlt|Hge'].
      - lra.
      - apply Qle_bool_iff in Hge'. congruence. }
    rewrite Hhi. unfold isel in *. cbn [firstn skipn]. apply IH, Hl.
Qed.

(** On an index that runs downwards the slice between a lower and a
    higher label is empty. *)
Lemma slice_indexer_decreasing lo hi (index : list Q) :
  lo < hi ->
  is_monotonic_increasing index = false -> is_monotonic_decreasing index = true ->
  exists start stop,
    slice_indexer lo hi index = inr (start, stop) /\ (stop <= start)%nat.
Proof.
  intros Hlt Hinc Hdec. unfold slice_indexer, get_slice_bound. rewrite Hinc, Hdec.
  cbn [rbind]. eexists _, _. split; [reflexivity|].
  apply leading_le. intros c Hc. apply Qle_bool_iff in Hc.
  apply negb_true_iff. destruct (Qle_bool c lo) eqn:Hle; [|reflexivity].
  apply Qle_bool_iff in Hle. lra.
Qed.

Lemma slice_indexer_monotonic lo hi (index : list Q) :
  is_monotonic_increasing index || is_monotonic_decreasing index = true ->
  exists positions, slice_indexer lo hi index = inr positions.
Proof.
  intros H. unfold slice_indexer, get_slice_bound.
  destruct (is_monotonic_increasing index); [cbn [rbind]; eauto|].
  simpl in H. rewrite H. cbn [rbind]. eauto.
Qed.

(** A bound that is not a label of an index in no order cannot be
    found. *)
Lemma get_loc_absent label (index : list Q) :
  existsb (fun c => Qeq_bool c label) index = false ->
  get_loc label index = inl KeyError.
Proof.
  intros Habs. unfold get_loc.
  assert (Hrun : forall l, existsb (fun c => Qeq_bool c label) l = false ->
                   leading (fun c => Qeq_bool c label)
                     (skipn (leading (fun c => negb (Qeq_bool c label)) l) l) = O).
  { induction l as [|c l IH]; [reflexivity|]. cbn [existsb leading]. intros H.
    apply orb_false_iff in H as [Hc Hl]. rewrite Hc. cbn [negb skipn]. apply IH, Hl. }
  cbv zeta. rewrite (Hrun index Habs). reflexivity.
Qed.

Lemma get_loc_only_KeyError label (index : list Q) e :
  get_loc label index = inl e -> e = KeyError.
Proof.
  unfold get_loc. cbv zeta.
  destruct (Nat.eqb _ 0); [intros H; inversion H; reflexivity|].
  destruct (existsb _ _); intros H; inversion H; reflexivity.
Qed.

Lemma sel_box_absent_bound da lonmin lonmax latmin latmax :
  is_monotonic_increasing (da_lon da) = false ->
  is_monotonic_decreasing (da_lon da) = false ->
  existsb (fun c => Qeq_bool c lonmin) (da_lon da) = false \/
  existsb (fun c => Qeq_bool c lonmax) (da_lon da) = false ->
  sel_box da lonmin lonmax latmin latmax = inl KeyError.
Proof.
  intros Hinc Hdec Habs. unfold sel_box, slice_indexer, get_slice_bound.
  rewrite Hinc, Hdec. destruct Habs as [Habs|Habs].
  - rewrite (get_loc_absent _ _ Habs). reflexivity.
  - rewrite (get_loc_absent lonmax _ Habs).
    destruct (get_loc lonmin (da_lon da)) as [e|loc] eqn:Hloc.
    + rewrite (get_loc_only_KeyError _ _ _ Hloc). reflexivity.
    + reflexivity.
Qed.

Lemma sum_of_weights_no_columns (w : list Q) (slab : list (list Q)) :
  List.Forall (fun row : list Q => row = []) slab -> sum_of_weights w slab == 0.
Proof.
  unfold sum_of_weights. intros H. revert w.
  induction H as [|row slab -> _ IH]; intros [|w0 w]; try reflexivity.
  cbn [map combine fst snd]. rewrite Qsum_cons, IH. simpl. ring.
Qed.

Section Weights.

Variable cos_radians : Q -> Q.

Lemma gradient_affine_boxes (boxE boxW : DataArray) (a b : Q) :
  Forall2 (mean_scaled a)
    (map (fun p : option Q * option Q => minus_missing (fst p) (snd p))
         (combine (box_mean cos_radians boxW) (box_mean cos_radians boxE)))
    (map (fun p : option Q * option Q => minus_missing (fst p) (snd p))
         (combine (box_mean cos_radians (affine_field a b boxW))
                  (box_mean cos_radians (affine_field a b boxE)))).
Proof.
  unfold box_mean, affine_field. cbn [da_lat da_values].
  generalize (map cos_radians (da_lat boxE)) (map cos_radians (da_lat boxW)). intros wE wW.
  generalize (da_values boxE). revert wE wW.
  induction (da_values boxW) as [|slabW slabsW IH]; intros wE wW [|slabE slabsE];
    cbn [map combine]; try constructor.
  - cbn [fst snd].
    pose proof (weighted_mean_affine a b wW slabW) as HW.
    pose proof (weighted_mean_affine a b wE slabE) as HE.
    destruct (weighted_mean wW slabW) as [qW|],
             (weighted_mean wW (map (map (fun x => a * x + b)) slabW)) as [qW'|];
      simpl in HW; try contradiction;
    destruct (weighted_mean wE slabE) as [qE|],
             (weighted_mean wE (map (map (fun x => a * x + b)) slabE)) as [qE'|];
      simpl in HE; try contradiction; simpl; try exact I.
    rewrite HW, HE. ring.
  - apply IH.
Qed.

(** X4. After the change of unit [x |-> a * x + b] of every grid value
    (kelvin to degrees Celsius, say), [ExecuteAllSteps] ends the same way:
    with the same exception, or with a gradient that is [a] times what it
    was at every time step, the offset dropped and the same time steps
    missing. *)
Theorem gradient_under_change_of_unit (ts : DataArray) (a b : Q) :
  match ExecuteAllSteps cos_radians ts,
        ExecuteAllSteps cos_radians (affine_field a b ts) with
  | inr g, inr g' => Forall2 (mean_scaled a) g g'
  | inl e, inl e' => e = e'
  | _, _ => False
  end.
Proof.
  pose proof (sel_box_affine a b ts (190 # 1) (270 # 1) (- (3 # 1)) (3 # 1)) as HE.
  pose proof (sel_box_affine a b ts (140 # 1) (170 # 1) (- (3 # 1)) (3 # 1)) as HW.
  destruct (sel_box ts (190 # 1) (270 # 1) (- (3 # 1)) (3 # 1)) as [e|boxE] eqn:HE0.
  { rewrite (ExecuteAllSteps_raises cos_radians ts e (or_introl HE0)).
    rewrite (ExecuteAllSteps_raises cos_radians _ e (or_introl HE)). reflexivity. }
  destruct (sel_box ts (140 # 1) (170 # 1) (- (3 # 1)) (3 # 1)) as [e|boxW] eqn:HW0.
  { rewrite (ExecuteAllSteps_raises cos_radians ts e (or_intror HW0)).
    rewrite (ExecuteAllSteps_raises cos_radians _ e (or_intror HW)). reflexivity. }
  rewrite (ExecuteAllSteps_boxes cos_radians _ _ _ HE0 HW0).
  rewrite (ExecuteAllSteps_boxes cos_radians _ _ _ HE HW).
  apply gradient_affine_boxes.
Qed.

Lemma gradient_missing (ts boxE boxW : DataArray) :
  well_shaped ts = true ->
  sel_box ts (190 # 1) (270 # 1) (- (3 # 1)) (3 # 1) = inr boxE ->
  sel_box ts (140 # 1) (170 # 1) (- (3 # 1)) (3 # 1) = inr boxW ->
  da_lat boxE = [] \/ da_lon boxE = [] \/ da_lon boxW = [] ->
  ExecuteAllSteps cos_radians ts = inr (repeat None (length (da_values ts))).
Proof.
  intros Hshape HE HW Hempty.
  rewrite (ExecuteAllSteps_boxes cos_radians _ _ _ HE HW). f_equal.
  pose proof (sel_box_same_lat _ _ _ _ _ _ _ _ _ HE HW) as Hsame.
  apply sel_box_inv in HE as (lonsE & lats & _ & _ & ->).
  apply sel_box_inv in HW as (lonsW & lats' & _ & _ & ->).
  assert (Hlat : forall w (slab : list (list Q)), w = [] -> weighted_mean w slab = None).
  { intros w slab ->. reflexivity. }
  assert (Hlon : forall lons lts w (slab : list (list Q)),
             In slab (da_values ts) ->
             isel (fst lons) (snd lons) (da_lon ts) = [] ->
             weighted_mean w (map (isel (fst lons) (snd lons))
                                  (isel (fst lts) (snd lts) slab)) = None).
  { intros lons lts w slab Hslab Hnone.
    unfold well_shaped in Hshape. rewrite forallb_forall in Hshape.
    specialize (Hshape slab Hslab). apply andb_true_iff in Hshape as [_ Hcols].
    rewrite forallb_forall in Hcols.
    assert (Hsw : sum_of_weights w (map (isel (fst lons) (snd lons))
                                        (isel (fst lts) (snd lts) slab)) == 0).
    { apply sum_of_weights_no_columns. apply List.Forall_forall. intros row Hrow.
      apply in_map_iff in Hrow as (row0 & <- & Hrow0). apply In_isel in Hrow0.
      specialize (Hcols row0 Hrow0). apply Nat.eqb_eq in Hcols.
      apply length_zero_iff_nil. rewrite length_isel, Hcols, <- length_isel, Hnone.
      reflexivity. }
    unfold weighted_mean. apply Qeq_bool_iff in Hsw. rewrite Hsw. reflexivity. }
  unfold box_mean. cbn [isel_box da_lat da_lon da_values] in *. rewrite !map_map.
  revert Hlon. induction (da_values ts) as [|slab slabs IH]; intros Hlon; [reflexivity|].
  cbn [map combine length repeat fst snd].
  rewrite IH by (intros lons lts w s Hs; apply Hlon; right; exact Hs). f_equal.
  destruct Hempty as [H|[H|H]].
  - rewrite (Hlat (map cos_radians (isel (fst lats') (snd lats') (da_lat ts))));
      [reflexivity|]. rewrite Hsame, H. reflexivity.
  - rewrite (Hlon lonsE lats) by (try (left; reflexivity); exact H).
    destruct (weighted_mean _ _); reflexivity.
  - rewrite (Hlon lonsW lats') by (try (left; reflexivity); exact H). reflexivity.
Qed.

(** X5. A box without cells gives no number and raises nothing: when
    both selections succeed and one of the boxes has no latitude or no
    longitude, the gradient is missing at every time step.  This is the
    case of every grid whose latitudes run from north to south, on which
    the slice from 3S to 3N is empty.  When a selection raises, as on
    longitudes in no order of which 190, 270, 140 or 170 is not one,
    [ExecuteAllSteps] raises AttributeError and there is no gradient. *)
Theorem gradient_of_empty_box_is_missing (ts : DataArray) :
  well_shaped ts = true ->
  (forall boxE boxW,
     sel_box ts (190 # 1) (270 # 1) (- (3 # 1)) (3 # 1) = inr boxE ->
     sel_box ts (140 # 1) (170 # 1) (- (3 # 1)) (3 # 1) = inr boxW ->
     da_lat boxE = [] \/ da_lon boxE = [] \/ da_lon boxW = [] ->
     ExecuteAllSteps cos_radians ts = inr (repeat None (length (da_values ts)))) /\
  (is_monotonic_increasing (da_lat ts) = false ->
   is_monotonic_decreasing (da_lat ts) = true ->
   is_monotonic_increasing (da_lon ts) || is_monotonic_decreasing (da_lon ts) = true ->
   ExecuteAllSteps cos_radians ts = inr (repeat None (length (da_values ts)))) /\
  (is_monotonic_increasing (da_lon ts) = false ->
   is_monotonic_decreasing (da_lon ts) = false ->
   existsb (fun c => Qeq_bool c (190 # 1)) (da_lon ts) = false \/
   existsb (fun c => Qeq_bool c (270 # 1)) (da_lon ts) = false \/
   existsb (fun c => Qeq_bool c (140 # 1)) (da_lon ts) = false \/
   existsb (fun c => Qeq_bool c (170 # 1)) (da_lon ts) = false ->
   ExecuteAllSteps cos_radians ts = inl AttributeError).
Proof.
  intros Hshape. split; [|split].
  - intros boxE boxW. apply gradient_missing, Hshape.
  - intros Hinc Hdec Hlon.
    destruct (slice_indexer_decreasing (- (3 # 1)) (3 # 1) (da_lat ts)) as
      (start & stop & Hlat & Hle); [reflexivity|exact Hinc|exact Hdec|].
    destruct (slice_indexer_monotonic (190 # 1) (270 # 1) _ Hlon) as [lonsE HlonE].
    destruct (slice_indexer_monotonic (140 # 1) (170 # 1) _ Hlon) as [lonsW HlonW].
    apply (gradient_missing ts (isel_box ts lonsE (start, stop))
                              (isel_box ts lonsW (start, stop)) Hshape).
    + unfold sel_box. rewrite HlonE, Hlat. reflexivity.
    + unfold sel_box. rewrite HlonW, Hlat. reflexivity.
    + left. cbn [isel_box da_lat fst snd]. apply isel_empty, Hle.
  - intros Hinc Hdec Habs.
    destruct Habs as [H|[H|[H|H]]].
    + apply (ExecuteAllSteps_raises cos_radians ts KeyError). left.
      apply sel_box_absent_bound; auto.
    + apply (ExecuteAllSteps_raises cos_radians ts KeyError). left.
      apply sel_box_absent_bound; auto.
    + apply (ExecuteAllSteps_raises cos_radians ts KeyError). right.
      apply sel_box_absent_bound; auto.
    + apply (ExecuteAllSteps_raises cos_radians ts KeyError). right.
      apply sel_box_absent_bound; auto.
Qed.

End Weights.

Lemma gradient_of_empty_box_is_missing_witness :
  ExecuteAllSteps cos_series off_equator_field = inr [None; None] /\
  ExecuteAllSteps cos_series north_to_south_field = inr [None; None] /\
  ExecuteAllSteps cos_series unordered_field = inl AttributeError.
Proof.
  split; [|split].
  - apply (proj1 (gradient_of_empty_box_is_missing cos_series off_equator_field eq_refl)
             (isel_box off_equator_field (1, 2)%nat (0, 0)%nat)
             (isel_box off_equator_field (0, 1)%nat (0, 0)%nat)).
    + reflexivity.
    + reflexivity.
    + left. reflexivity.
  - apply (proj1 (proj2 (gradient_of_empty_box_is_missing cos_series north_to_south_field
                           eq_refl))); reflexivity.
  - apply (proj2 (proj2 (gradient_of_empty_box_is_missing cos_series unordered_field
                           eq_refl))); [reflexivity|reflexivity|].
    left. reflexivity.
Defined.

End GradientShape.

Module MeanBounds.

Import Numerics Gradient Fit BoxMean ConstantField Bounds Samples.

Local Open Scope Q_scope.

Lemma row_sum_bounds lo hi w0 (row : list Q) :
  0 <= w0 ->
  forallb (fun x => Qle_bool lo x && Qle_bool x hi) row = true ->
  lo * Qsum (map (fun _ : Q => w0) row) <= Qsum (map (fun x => w0 * x) row) /\
  Qsum (map (fun x => w0 * x) row) <= hi * Qsum (map (fun _ : Q => w0) row).
Proof.
  intros Hw. induction row as [|x row IH]; intros Hrow.
  - simpl. split; lra.
  - cbn [forallb] in Hrow. apply andb_true_iff in Hrow as [Hx Hrow].
    apply andb_true_iff in Hx as [Hlo Hhi]. apply Qle_bool_iff in Hlo, Hhi.
    destruct (IH Hrow) as [IHlo IHhi]. cbn [map]. rewrite !Qsum_cons.
    assert (H1 : 0 <= w0 * (x - lo)) by (apply Qmult_le_0_compat; lra).
    assert (H2 : 0 <= w0 * (hi - x)) by (apply Qmult_le_0_compat; lra).
    set (sw := Qsum (map (fun _ : Q => w0) row)) in *.
    set (sx := Qsum (map (fun x => w0 * x) row)) in *.
    split; lra.
Qed.

Lemma weighted_sum_bounds lo hi (w : list Q) (slab : list (list Q)) :
  List.Forall (fun wi => 0 < wi) w ->
  forallb (forallb (fun x => Qle_bool lo x && Qle_bool x hi)) slab = true ->
  lo * sum_of_weights w slab <= weighted_sum w slab /\
  weighted_sum w slab <= hi * sum_of_weights w slab.
Proof.
  unfold weighted_sum, sum_of_weights. intros Hw. revert slab.
  induction Hw as [|w0 w Hw0 _ IH]; intros [|row slab] Hb; try (simpl; split; lra).
  cbn [forallb] in Hb. apply andb_true_iff in Hb as [Hrow Hslab].
  destruct (IH slab Hslab) as [IHlo IHhi].
  destruct (row_sum_bounds lo hi w0 row (Qlt_le_weak _ _ Hw0) Hrow) as [Rlo Rhi].
  cbn [map combine fst snd]. rewrite !Qsum_cons.
  set (a1 := Qsum (map (fun _ : Q => w0) row)) in *.
  set (a2 := Qsum (map (fun x => w0 * x) row)) in *.
  set (b1 := Qsum (map (fun p : Q * list Q => Qsum (map (fun _ : Q => fst p) (snd p))) (combine w slab))) in *.
  set (b2 := Qsum (map (fun p : Q * list Q => Qsum (map (fun x => fst p * x) (snd p))) (combine w slab))) in *.
  split; lra.
Qed.

Section Weights.

Variable cos_radians : Q -> Q.

Lemma box_mean_bounds (box : DataArray) (lo hi : Q) :
  da_lat box <> [] -> da_lon box <> [] ->
  well_shaped box = true ->
  bounded_field lo hi box = true ->
  (forall lat, In lat (da_lat box) -> 0 < cos_radians lat) ->
  List.Forall (fun m : option Q => exists q, m = Some q /\ lo <= q /\ q <= hi)
              (box_mean cos_radians box).
Proof.
  intros Hlat Hlon Hshape Hb Hpos. unfold box_mean.
  apply List.Forall_forall. intros m Hm.
  apply in_map_iff in Hm as (slab & <- & Hslab).
  pose proof (box_weights_pos cos_radians box slab Hlat Hlon Hshape Hpos Hslab) as Hsw.
  unfold bounded_field in Hb. rewrite forallb_forall in Hb. specialize (Hb slab Hslab).
  assert (Hw : List.Forall (fun wi => 0 < wi) (map cos_radians (da_lat box))).
  { apply List.Forall_forall. intros wi Hwi.
    apply in_map_iff in Hwi as (lat & <- & Hin). apply Hpos. exact Hin. }
  destruct (weighted_sum_bounds lo hi _ slab Hw Hb) as [Hlo Hhi].
  unfold weighted_mean.
  destruct (Qeq_bool (sum_of_weights (map cos_radians (da_lat box)) slab) 0) eqn:Hz.
  - apply Qeq_bool_iff in Hz. lra.
  - eexists. split; [reflexivity|].
    set (sw := sum_of_weights (map cos_radians (da_lat box)) slab) in *.
    set (ws := weighted_sum (map cos_radians (da_lat box)) slab) in *.
    split.
    + apply Qle_shift_div_l; [exact Hsw|exact Hlo].
    + apply Qle_shift_div_r; [exact Hsw|exact Hhi].
Qed.

Lemma bounded_isel_box lo hi da lons lats :
  bounded_field lo hi da = true ->
  bounded_field lo hi (isel_box da lons lats) = true.
Proof.
  unfold bounded_field, isel_box. simpl. rewrite !forallb_forall.
  intros H slab Hslab. apply in_map_iff in Hslab as (slab0 & <- & Hslab0).
  specialize (H slab0 Hslab0). rewrite forallb_forall in H.
  apply forallb_forall. intros row Hrow.
  apply in_map_iff in Hrow as (row0 & <- & Hrow0). apply In_isel in Hrow0.
  specialize (H row0 Hrow0). rewrite forallb_forall in H.
  apply forallb_forall. intros x Hx. apply H. apply (In_isel _ _ _ _ Hx).
Qed.

(** X6. With positive weights, the mean over a box with at least one cell
    lies between the smallest and the largest value of the box at every
    time step; so for a field whose values all lie between [lo] and [hi],
    whenever the two boxes that [SliceRegions] selects have at least one
    cell, there is one mean per grid of the field in each box, one
    gradient value per grid, and no gradient value is beyond [hi - lo] in
    either direction. *)
Theorem gradient_within_range (ts boxE boxW : DataArray) (lo hi : Q) :
  well_shaped ts = true ->
  bounded_field lo hi ts = true ->
  sel_box ts (190 # 1) (270 # 1) (- (3 # 1)) (3 # 1) = inr boxE ->
  sel_box ts (140 # 1) (170 # 1) (- (3 # 1)) (3 # 1) = inr boxW ->
  da_lat boxE <> [] -> da_lon boxE <> [] -> da_lon boxW <> [] ->
  (forall lat, In lat (da_lat boxE) -> 0 < cos_radians lat) ->
  length (box_mean cos_radians boxE) = length (da_values ts) /\
  List.Forall (fun m : option Q => exists q, m = Some q /\ lo <= q /\ q <= hi)
              (box_mean cos_radians boxE) /\
  length (box_mean cos_radians boxW) = length (da_values ts) /\
  List.Forall (fun m : option Q => exists q, m = Some q /\ lo <= q /\ q <= hi)
              (box_mean cos_radians boxW) /\
  exists g,
    ExecuteAllSteps cos_radians ts = inr g /\
    length g = length (da_values ts) /\
    List.Forall (fun v : option Q => exists q, v = Some q /\ lo - hi <= q /\ q <= hi - lo) g.
Proof.
  intros Hshape Hb HE HW Hlat HlonE HlonW Hpos.
  pose proof (sel_box_same_lat _ _ _ _ _ _ _ _ _ HE HW) as Hsame.
  pose proof (ExecuteAllSteps_boxes cos_radians _ _ _ HE HW) as Hrun.
  apply sel_box_inv in HE as (lonsE & latsE & _ & _ & ->).
  apply sel_box_inv in HW as (lonsW & latsW & _ & _ & ->).
  assert (HmE : List.Forall (fun m : option Q => exists q, m = Some q /\ lo <= q /\ q <= hi)
                  (box_mean cos_radians (isel_box ts lonsE latsE))).
  { apply box_mean_bounds; try assumption.
    - apply well_shaped_isel_box, Hshape.
    - apply bounded_isel_box, Hb. }
  assert (HmW : List.Forall (fun m : option Q => exists q, m = Some q /\ lo <= q /\ q <= hi)
                  (box_mean cos_radians (isel_box ts lonsW latsW))).
  { apply box_mean_bounds; try assumption.
    - rewrite Hsame. exact Hlat.
    - apply well_shaped_isel_box, Hshape.
    - apply bounded_isel_box, Hb.
    - rewrite Hsame. exact Hpos. }
  assert (HnE : length (da_values (isel_box ts lonsE latsE)) = length (da_values ts))
    by (simpl; apply length_map).
  assert (HnW : length (da_values (isel_box ts lonsW latsW)) = length (da_values ts))
    by (simpl; apply length_map).
  split; [rewrite length_box_mean; exact HnE|]. split; [exact HmE|].
  split; [rewrite length_box_mean; exact HnW|]. split; [exact HmW|].
  eexists. split; [exact Hrun|]. split; [apply length_gradient; assumption|].
  rewrite List.Forall_forall in HmE, HmW.
  apply List.Forall_forall. intros v Hv.
  apply in_map_iff in Hv as ([mW mE] & <- & Hin).
  destruct (HmW mW (in_combine_l _ _ _ _ Hin)) as (qW & -> & HqW1 & HqW2).
  destruct (HmE mE (in_combine_r _ _ _ _ Hin)) as (qE & -> & HqE1 & HqE2).
  simpl. eexists. split; [reflexivity|]. split; lra.
Qed.

End Weights.

Lemma gradient_within_range_witness :
  exists g,
    ExecuteAllSteps cos_series flat_field = inr g /\
    length g = length (da_values flat_field) /\
    List.Forall (fun v : option Q =>
                   exists q, v = Some q /\ (4 # 1) - (6 # 1) <= q /\ q <= (6 # 1) - (4 # 1)) g.
Proof.
  apply (gradient_within_range cos_series flat_field
           (isel_box flat_field (2, 3)%nat (0, 3)%nat)
           (isel_box flat_field (0, 2)%nat (0, 3)%nat) (4 # 1) (6 # 1)).
  - reflexivity.
  - reflexivity.
  - reflexivity.
  - reflexivity.
  - simpl. discriminate.
  - simpl. discriminate.
  - simpl. discriminate.
  - simpl. intros lat [<-|[<-|[<-|[]]]]; reflexivity.
Defined.

End MeanBounds.

(** ** Further properties of the stitcher *)

Module StitcherShape.

Import Continuity Resolver Window Stitcher StitchTail Samples.

Lemma date_leb_antisym a b : date_leb a b = true -> date_leb b a = true -> a = b.
Proof.
  destruct a as [ya ma da na], b as [yb mb db nb]. unfold date_leb, date_ltb, date_eqb.
  simpl. intros H1 H2.
  rewrite ?orb_true_iff, ?andb_true_iff, ?Z.ltb_lt, ?Z.eqb_eq in H1, H2.
  assert (ya = yb /\ ma = mb /\ da = db /\ na = nb) as (-> & -> & -> & ->) by lia.
  reflexivity.
Qed.

Section Stitch.

Variable Payload : Type.
Variable open_dataset : string -> Result (Dataset Payload).

Lemma concat_rest_inv ds urls d :
  concat_rest open_dataset ds urls = inr d ->
  exists dss, mapM open_dataset urls = inr dss /\ d = fold_left xr_concat dss ds.
Proof.
  revert ds. induction urls as [|u urls IH]; intros ds H; simpl in *.
  - inversion H. exists []. split; reflexivity.
  - destruct (open_dataset u) as [?|ds2]; [discriminate|]. simpl in *.
    destruct (IH _ H) as (dss & Hm & ->). rewrite Hm. simpl.
    exists (ds2 :: dss). split; reflexivity.
Qed.

Lemma rows_fold_concat (dss : list (Dataset Payload)) ds :
  rows (fold_left xr_concat dss ds) = rows ds ++ flat_map rows dss /\
  attrs (fold_left xr_concat dss ds) = attrs ds.
Proof.
  revert ds. induction dss as [|d dss IH]; intros ds; simpl.
  - rewrite app_nil_r. split; reflexivity.
  - destruct (IH (xr_concat ds d)) as [Hr Ha]. rewrite Hr, Ha. simpl.
    rewrite <- app_assoc. split; reflexivity.
Qed.

(** [ConcatModels] is the concatenation of the opened files followed by
    [sort_and_check]. *)
Lemma ConcatModels_unfold modelDict :
  ConcatModels open_dataset modelDict =
  match modelDict with
  | [] => inl IndexError
  | _ =>
      rbind (mapM open_dataset modelDict) (fun dss =>
      match dss with
      | [] => inl IndexError
      | ds0 :: dss' => sort_and_check (fold_left xr_concat dss' ds0)
      end)
  end.
Proof.
  destruct modelDict as [|u0 urls]; [reflexivity|].
  unfold ConcatModels.
  change (list_item (u0 :: urls) 0) with (inr u0 : Result string).
  cbn [rbind mapM]. destruct (open_dataset u0) as [e|ds0]; [reflexivity|]. cbn [rbind].
  assert (Hrest : (if (1 <? length (u0 :: urls))%nat
                   then concat_rest open_dataset ds0 (skipn 1 (u0 :: urls))
                   else inr ds0) = concat_rest open_dataset ds0 urls).
  { destruct urls; reflexivity. }
  rewrite Hrest. clear Hrest.
  destruct (mapM open_dataset urls) as [e|dss] eqn:Hm.
  - assert (Hfail : concat_rest open_dataset ds0 urls = inl e).
    { clear -Hm. revert ds0 e Hm. induction urls as [|u urls IH]; intros ds0 e Hm;
        simpl in *; [discriminate|].
      destruct (open_dataset u) as [?|ds2]; simpl in *; [congruence|].
      destruct (mapM open_dataset urls) as [e'|?] eqn:Hm'; simpl in Hm; [|discriminate].
      inversion Hm; subst. apply IH. reflexivity. }
    rewrite Hfail. reflexivity.
  - rewrite (concat_rest_all_open _ _ _ _ _ Hm). cbn [rbind]. unfold sort_and_check.
    destruct (sortby_time (fold_left xr_concat dss ds0)) as [?|ds]; [reflexivity|].
    cbn [rbind]. destruct (list_item (rows ds) 0) as [?|r0]; [reflexivity|]. cbn [rbind].
    destruct (tv_class (fst r0)); reflexivity.
Qed.

Lemma sort_and_check_inv (merged ds : Dataset Payload) :
  sort_and_check merged = inr ds ->
  same_class (rows merged) = true /\
  ds = mkDataset (attrs merged) (sort_rows (rows merged)) /\
  covers (midnight 1850 1 31) (midnight 2014 12 1) (time_axis ds) = true.
Proof.
  unfold sort_and_check, sortby_time. intros H.
  destruct (same_class (rows merged)); [|discriminate]. cbn [rbind] in H.
  destruct (list_item _ 0) as [?|r0]; [discriminate|]. cbn [rbind] in H.
  destruct (tv_class (fst r0));
    try discriminate;
    destruct (covers _ _ _) eqn:Hc; try discriminate;
    inversion H; subst; repeat split; exact Hc.
Qed.

(** X7. Whatever the files hold, what [ConcatModels] returns is in time
    order, spans 1850-01-31 to 2014-12-01, carries the attributes of the
    first file, and has exactly the rows of the files it was given, every
    one of which opened: no row is lost, added or repeated. *)
Theorem ConcatModels_returns_sorted_cover (modelDict : list string) (ds : Dataset Payload) :
  ConcatModels open_dataset modelDict = inr ds ->
  ascending (time_axis ds) = true /\
  covers (midnight 1850 1 31) (midnight 2014 12 1) (time_axis ds) = true /\
  exists ds0 dss,
    mapM open_dataset modelDict = inr (ds0 :: dss) /\
    attrs ds = attrs ds0 /\
    Permutation (rows ds) (flat_map rows (ds0 :: dss)).
Proof.
  rewrite ConcatModels_unfold. destruct modelDict as [|u0 urls]; [discriminate|].
  destruct (mapM open_dataset (u0 :: urls)) as [?|[|ds0 dss]]; [discriminate..|].
  cbn [rbind]. intros H. apply sort_and_check_inv in H as (_ & -> & Hcov).
  destruct (rows_fold_concat dss ds0) as [Hrows Hattrs].
  split; [apply sort_rows_ascending|]. split; [exact Hcov|].
  exists ds0, dss. split; [reflexivity|]. split; [exact Hattrs|].
  cbn [rows flat_map]. rewrite sort_rows_perm, Hrows. reflexivity.
Qed.

End Stitch.

Lemma ConcatModels_returns_sorted_cover_witness :
  ascending (time_axis (mkDataset (attrs fragment_late)
                                  (rows fragment_early ++ rows fragment_late))) = true.
Proof.
  apply (ConcatModels_returns_sorted_cover nat file_store ["late.nc"; "early.nc"]%string).
  vm_compute. reflexivity.
Defined.

End StitcherShape.

Module StitchOrder.

Import Continuity Resolver Window Stitcher StitchTail StitcherShape Samples.

Lemma ascending_Forall a (l : list Date) :
  ascending (a :: l) = true -> List.Forall (fun b => date_leb a b = true) l.
Proof.
  revert a. induction l as [|b l IH]; intros a H; constructor.
  - apply (ascending_head _ _ _ H).
  - pose proof (ascending_head _ _ _ H) as Hab.
    specialize (IH b (ascending_tail _ _ H)).
    rewrite List.Forall_forall in IH. apply List.Forall_forall. intros c Hc.
    apply (date_leb_trans _ _ _ Hab (IH c Hc)).
Qed.

Lemma strictly_increasing_tail a (l : list Date) :
  strictly_increasing (a :: l) = true -> strictly_increasing l = true.
Proof.
  destruct l as [|b l]; [reflexivity|]. simpl. intros H. apply andb_true_iff in H. tauto.
Qed.

Lemma strictly_increasing_Forall a (l : list Date) :
  strictly_increasing (a :: l) = true -> List.Forall (fun b => date_ltb a b = true) l.
Proof.
  revert a. induction l as [|b l IH]; intros a H; constructor.
  - simpl in H. apply andb_true_iff in H. tauto.
  - assert (Hab : date_ltb a b = true) by (simpl in H; apply andb_true_iff in H; tauto).
    specialize (IH b (strictly_increasing_tail _ _ H)).
    rewrite List.Forall_forall in IH. apply List.Forall_forall. intros c Hc.
    apply (date_ltb_trans _ _ _ Hab (IH c Hc)).
Qed.

Section Order.

Variable Payload : Type.

Lemma StronglySorted_ascending (l : list (TimeValue * Payload)) :
  ascending (map (fun r : TimeValue * Payload => tv_date (fst r)) l) = true ->
  StronglySorted (fun r r' : TimeValue * Payload =>
                    date_leb (tv_date (fst r)) (tv_date (fst r')) = true) l.
Proof.
  induction l as [|r l IH]; intros H; constructor.
  - apply IH. apply (ascending_tail _ _ H).
  - cbn [map] in H. apply ascending_Forall in H.
    apply List.Forall_forall. intros r' Hr'. rewrite List.Forall_forall in H.
    apply H. apply in_map_iff. exists r'. split; [reflexivity|exact Hr'].
Qed.

(** In a strictly increasing time axis a time value belongs to one row. *)
Lemma strictly_increasing_inj (l : list (TimeValue * Payload)) r r' :
  strictly_increasing (map (fun r : TimeValue * Payload => tv_date (fst r)) l) = true ->
  In r l -> In r' l -> tv_date (fst r) = tv_date (fst r') -> r = r'.
Proof.
  induction l as [|r0 l IH]; intros H Hr Hr' Heq; [contradiction|].
  cbn [map] in H. pose proof (strictly_increasing_Forall _ _ H) as Hlt.
  rewrite List.Forall_forall in Hlt.
  assert (Hirr : forall x : TimeValue * Payload, In x l ->
             tv_date (fst r0) = tv_date (fst x) -> False).
  { intros x Hx Hd. specialize (Hlt _ (in_map (fun r => tv_date (fst r)) _ _ Hx)).
    simpl in Hlt. rewrite <- Hd, date_ltb_irrefl in Hlt. discriminate. }
  destruct Hr as [<-|Hr], Hr' as [<-|Hr'].
  - reflexivity.
  - exfalso. apply (Hirr _ Hr' Heq).
  - exfalso. apply (Hirr _ Hr). symmetry. exact Heq.
  - apply IH; try assumption. apply (strictly_increasing_tail _ _ H).
Qed.

Lemma sorted_rows_unique (l1 l2 : list (TimeValue * Payload)) :
  strictly_increasing (map (fun r : TimeValue * Payload => tv_date (fst r)) l1) = true ->
  ascending (map (fun r : TimeValue * Payload => tv_date (fst r)) l1) = true ->
  ascending (map (fun r : TimeValue * Payload => tv_date (fst r)) l2) = true ->
  Permutation l1 l2 -> l1 = l2.
Proof.
  intros Hstrict H1 H2 Hperm.
  apply (StronglySorted_unique_strong
           (fun r r' : TimeValue * Payload =>
              date_leb (tv_date (fst r)) (tv_date (fst r')) = true));
    [|apply StronglySorted_ascending; assumption..|exact Hperm].
  intros x1 x2 Hx1 Hx2 Hle Hge. apply list_elem_of_In in Hx1, Hx2.
  apply (strictly_increasing_inj l1); try assumption.
  - apply (Permutation_in _ (Permutation_sym Hperm)). exact Hx2.
  - apply date_leb_antisym; assumption.
Qed.

Lemma class_eqb_eq a b : class_eqb a b = true <-> a = b.
Proof. destruct a, b; simpl; split; congruence. Qed.

Lemma same_class_perm (l l' : list (TimeValue * Payload)) :
  same_class l = true -> Permutation l l' -> same_class l' = true.
Proof.
  intros H Hperm.
  assert (Hall : forall r r', In r l -> In r' l -> tv_class (fst r) = tv_class (fst r')).
  { destruct l as [|r0 l]; [intros ? ? []|]. simpl in H. rewrite forallb_forall in H.
    assert (Hr0 : forall r, In r (r0 :: l) -> tv_class (fst r0) = tv_class (fst r)).
    { intros r [<-|Hr]; [reflexivity|]. apply class_eqb_eq, H, Hr. }
    intros r r' Hr Hr'. rewrite <- (Hr0 r Hr), <- (Hr0 r' Hr'). reflexivity. }
  destruct l' as [|r0' l']; [reflexivity|]. simpl. apply forallb_forall. intros r Hr.
  apply class_eqb_eq. apply Hall; apply (Permutation_in _ (Permutation_sym Hperm));
    [left; reflexivity|right; exact Hr].
Qed.

Variable open_dataset : string -> Result (Dataset Payload).

Lemma mapM_perm {A B} (f : A -> Result B) (l l' : list A) bs :
  Permutation l l' -> mapM f l = inr bs ->
  exists bs', mapM f l' = inr bs' /\ Permutation bs bs'.
Proof.
  intros Hperm. revert bs. induction Hperm as [|x l l' _ IH|x y l|l l' l'' _ IH1 _ IH2];
    intros bs Hm.
  - exists bs. split; [exact Hm|reflexivity].
  - simpl in *. destruct (f x) as [?|b]; [discriminate|]. simpl in *.
    destruct (mapM f l) as [?|bs0]; [discriminate|]. simpl in Hm. inversion Hm; subst.
    destruct (IH bs0 eq_refl) as (bs0' & -> & Hp). simpl. eexists. split; [reflexivity|].
    constructor. exact Hp.
  - simpl in *. destruct (f y) as [?|by']; [discriminate|]. simpl in *.
    destruct (f x) as [?|bx]; [discriminate|]. simpl in *.
    destruct (mapM f l) as [?|bs0]; [discriminate|]. simpl in Hm. inversion Hm; subst.
    eexists. split; [reflexivity|]. apply perm_swap.
  - destruct (IH1 bs Hm) as (bs' & Hm' & Hp'). destruct (IH2 bs' Hm') as (bs'' & Hm'' & Hp'').
    exists bs''. split; [exact Hm''|]. etransitivity; eassumption.
Qed.

(** X8. When the stitched time axis has no repeated time, the rows that
    [ConcatModels] returns do not depend on the order in which the files
    are listed: any reordering of the list also succeeds and gives the
    same rows (the attributes are those of whichever file comes first). *)
Theorem ConcatModels_any_file_order (modelDict modelDict' : list string)
    (ds : Dataset Payload) :
  Permutation modelDict modelDict' ->
  ConcatModels open_dataset modelDict = inr ds ->
  strictly_increasing (time_axis ds) = true ->
  exists ds', ConcatModels open_dataset modelDict' = inr ds' /\ rows ds' = rows ds.
Proof.
  intros Hperm Hrun Hstrict. rewrite ConcatModels_unfold in Hrun.
  destruct modelDict as [|u0 urls]; [discriminate|].
  destruct (mapM open_dataset (u0 :: urls)) as [?|[|ds0 dss]] eqn:Hm; [discriminate..|].
  cbn [rbind] in Hrun.
  destruct (mapM_perm _ _ _ _ Hperm Hm) as (bs' & Hm' & Hp).
  rewrite ConcatModels_unfold.
  destruct modelDict' as [|u0' urls']; [apply Permutation_nil_r in Hperm; discriminate|].
  rewrite Hm'. cbn [rbind].
  destruct bs' as [|ds0' dss']; [apply Permutation_nil_r in Hp; discriminate|].
  pose proof Hrun as Hinv. apply sort_and_check_inv in Hinv as (Hclass & -> & Hcov).
  destruct (rows_fold_concat Payload dss ds0) as [Hrows _].
  destruct (rows_fold_concat Payload dss' ds0') as [Hrows' _].
  set (merged := fold_left xr_concat dss ds0) in *.
  set (merged' := fold_left xr_concat dss' ds0') in *.
  assert (Hpr : Permutation (rows merged) (rows merged')).
  { rewrite Hrows, Hrows'.
    change (Permutation (flat_map rows (ds0 :: dss)) (flat_map rows (ds0' :: dss'))).
    apply Permutation_flat_map, Hp. }
  assert (Hsorted : sort_rows (rows merged) = sort_rows (rows merged')).
  { apply sorted_rows_unique.
    - exact Hstrict.
    - apply sort_rows_ascending.
    - apply sort_rows_ascending.
    - rewrite !sort_rows_perm. exact Hpr. }
  exists (mkDataset (attrs merged') (sort_rows (rows merged))). split; [|reflexivity].
  unfold sort_and_check, sortby_time in *.
  rewrite (same_class_perm _ _ Hclass Hpr). rewrite Hclass in Hrun.
  cbn [rbind rows attrs] in *. rewrite <- Hsorted.
  destruct (list_item (sort_rows (rows merged)) 0) as [?|r0]; [discriminate|].
  cbn [rbind] in *. unfold time_axis in *. cbn [rows] in *.
  destruct (tv_class (fst r0)); try discriminate;
    destruct (covers _ _ _); try discriminate; reflexivity.
Qed.

End Order.

Lemma ConcatModels_any_file_order_witness :
  exists ds', ConcatModels file_store ["early.nc"; "late.nc"]%string = inr ds' /\
              rows ds' = rows fragment_early ++ rows fragment_late.
Proof.
  apply (ConcatModels_any_file_order nat file_store ["late.nc"; "early.nc"]%string
           ["early.nc"; "late.nc"]%string
           (mkDataset (attrs fragment_late) (rows fragment_early ++ rows fragment_late))).
  - apply perm_swap.
  - vm_compute. reflexivity.
  - vm_compute. reflexivity.
Defined.

End StitchOrder.

(** ** Further properties of the continuity resolver *)

Module ResolverShape.

Import Continuity Resolver Samples.

Lemma dict_set_In {V} k v k0 v0 (d : Dict V) :
  In (k, v) (dict_set k0 v0 d) -> (k, v) = (k0, v0) \/ In (k, v) d.
Proof.
  induction d as [|[k' v'] d IH]; simpl.
  - intros [H|[]]. left. congruence.
  - destruct (String.eqb k0 k').
    + intros [H|H]; [left; congruence|right; right; exact H].
    + intros [H|H]; [right; left; exact H|]. destruct (IH H); tauto.
Qed.

Lemma dict_set_keys {V} k0 v0 (d : Dict V) k :
  In k (dict_keys d) -> In k (dict_keys (dict_set k0 v0 d)).
Proof.
  unfold dict_keys. induction d as [|[k' v'] d IH]; simpl; [intros []|].
  destruct (String.eqb_spec k0 k') as [->|Hne]; simpl; [tauto|].
  intros [H|H]; [left; exact H|right; apply IH, H].
Qed.

Lemma dict_set_key_in {V} k0 v0 (d : Dict V) : In k0 (dict_keys (dict_set k0 v0 d)).
Proof.
  unfold dict_keys. induction d as [|[k' v'] d IH]; simpl; [left; reflexivity|].
  destruct (String.eqb k0 k'); simpl; [left; reflexivity|right; exact IH].
Qed.

Lemma flatten_values_In key value counter flat k v :
  In (k, v) (flatten_values key value counter flat) ->
  In (k, v) flat \/
  exists i url, nth_error value i = Some url /\
                k = (key ++ "_" ++ str_of_nat (counter + i))%string /\ v = [url].
Proof.
  revert counter flat. induction value as [|subValue value IH]; intros counter flat H;
    simpl in H; [left; exact H|].
  destruct (IH _ _ H) as [Hin|(i & url & Hi & -> & ->)].
  - apply dict_set_In in Hin as [Heq|Hin]; [|left; exact Hin].
    right. exists O, subValue. inversion Heq; subst. rewrite Nat.add_0_r.
    repeat split.
  - right. exists (S i), url. replace (counter + S i)%nat with (S counter + i)%nat by lia.
    repeat split. exact Hi.
Qed.

Lemma flatten_values_keys key value counter flat k :
  In k (dict_keys flat) -> In k (dict_keys (flatten_values key value counter flat)).
Proof.
  revert counter flat. induction value as [|subValue value IH]; intros counter flat H;
    simpl; [exact H|]. apply IH, dict_set_keys, H.
Qed.

Lemma flatten_items_keys items flat k :
  In k (dict_keys flat) -> In k (dict_keys (flatten_items items flat)).
Proof.
  revert flat. induction items as [|[key value] items IH]; intros flat H; simpl;
    [exact H|]. apply IH. destruct (1 <? length value)%nat.
  - apply flatten_values_keys, H.
  - apply dict_set_keys, H.
Qed.

Lemma flatten_items_In items flat k v :
  In (k, v) (flatten_items items flat) ->
  In (k, v) flat \/
  exists key value,
    In (key, value) items /\
    (((length value <= 1)%nat /\ k = key /\ v = value) \/
     ((1 < length value)%nat /\
      exists i url, nth_error value i = Some url /\
                    k = (key ++ "_" ++ str_of_nat i)%string /\ v = [url])).
Proof.
  revert flat. induction items as [|[key value] items IH]; intros flat H; simpl in H;
    [left; exact H|].
  destruct (IH _ H) as [Hin|(key' & value' & Hin' & Hcase)].
  - destruct (Nat.ltb_spec 1 (length value)) as [Hlt|Hle].
    + apply flatten_values_In in Hin as [Hin|(i & url & Hi & -> & ->)]; [left; exact Hin|].
      right. exists key, value. split; [left; reflexivity|]. right. split; [exact Hlt|].
      exists i, url. repeat split. exact Hi.
    + apply dict_set_In in Hin as [Heq|Hin]; [|left; exact Hin].
      right. exists key, value. split; [left; reflexivity|]. left.
      inversion Heq; subst. repeat split. exact Hle.
  - right. exists key', value'. split; [right; exact Hin'|exact Hcase].
Qed.

(** X9. Flattening the registry invents nothing: every entry of the
    flattened registry is an entry of the registry with at most one
    candidate, kept under its key, or the [i]-th candidate of an entry with
    several, kept alone under the key followed by an underscore and [i]. *)
Theorem flattened_entries_come_from_registry (scenarioModels : Dict (list string))
    (k : string) (v : list string) :
  In (k, v) (flatten_items scenarioModels []) ->
  exists key value,
    In (key, value) scenarioModels /\
    (((length value <= 1)%nat /\ k = key /\ v = value) \/
     ((1 < length value)%nat /\
      exists i url, nth_error value i = Some url /\
                    k = (key ++ "_" ++ str_of_nat i)%string /\ v = [url])).
Proof.
  intros H. destruct (flatten_items_In _ _ _ _ H) as [[]|Hex]. exact Hex.
Qed.

Lemma flattened_entries_come_from_registry_witness :
  exists key value,
    In (key, value) registry /\
    (((length value <= 1)%nat /\ "ACCESS-CM2_r1i1p1f1_1"%string = key /\
      ["ssp245_b.nc"%string] = value) \/
     ((1 < length value)%nat /\
      exists i url, nth_error value i = Some url /\
                    "ACCESS-CM2_r1i1p1f1_1"%string = (key ++ "_" ++ str_of_nat i)%string /\
                    ["ssp245_b.nc"%string] = [url])).
Proof.
  apply (flattened_entries_come_from_registry registry).
  vm_compute. right. left. reflexivity.
Defined.

Lemma combine_seq_In {B} (mask : list B) m i b :
  nth_error mask i = Some b -> In ((m + i)%nat, b) (combine (seq m (length mask)) mask).
Proof.
  revert m i. induction mask as [|b0 mask IH]; intros m i H; [destruct i; discriminate|].
  destruct i as [|i]; simpl in *.
  - inversion H. rewrite Nat.add_0_r. left. reflexivity.
  - right. replace (m + S i)%nat with (S m + i)%nat by lia. apply IH, H.
Qed.

Lemma mapM_length {A B} (f : A -> Result B) l bs :
  mapM f l = inr bs -> length bs = length l.
Proof.
  revert bs. induction l as [|a l IH]; intros bs H; simpl in H.
  - inversion H. reflexivity.
  - destruct (f a); [discriminate|]. simpl in H.
    destruct (mapM f l); [discriminate|]. simpl in H. inversion H. simpl. f_equal.
    apply IH. reflexivity.
Qed.

Lemma random_choice_reach {A} (l : list A) a :
  In a l -> exists entropy, random_choice entropy l = inr a.
Proof.
  intros H. apply In_nth_error in H as [j Hj]. exists j.
  assert (Hlt : (j < length l)%nat) by (apply nth_error_Some; congruence).
  unfold random_choice. destruct l as [|x l]; [simpl in Hlt; lia|].
  rewrite Nat.mod_small by exact Hlt. unfold list_item. rewrite Hj. reflexivity.
Qed.

Section Loader.

Variable Payload : Type.

(** X10. In the randomised assignment every flattened key of the
    historical run's source can be drawn: for each such key some state of
    the random source selects it.  When no flattened key has that source,
    every draw ends in [IndexError]. *)
Theorem every_same_source_key_can_be_drawn (modelInput : Dataset Payload)
    (scenarioModels : Dict (list string)) (modelHistID runHist : string)
    (sources : list string) :
  dict_get "source_id" (attrs modelInput) = Some modelHistID ->
  dict_get "variant_label" (attrs modelInput) = Some runHist ->
  mapM model_source (dict_keys (flatten_items scenarioModels [])) = inr sources ->
  (forall k, In k (dict_keys (flatten_items scenarioModels [])) ->
             model_source k = inr modelHistID ->
             exists entropy,
               choose_random modelInput scenarioModels entropy =
               inr (k, flatten_items scenarioModels [])) /\
  ((forall k, In k (dict_keys (flatten_items scenarioModels [])) ->
              model_source k <> inr modelHistID) ->
   forall entropy, choose_random modelInput scenarioModels entropy = inl IndexError).
Proof.
  intros Hsrc Hrun Hm.
  set (flat := flatten_items scenarioModels []) in *.
  set (mask := map (fun modelID => String.eqb modelID modelHistID) sources).
  set (indicesMatch :=
         map fst (List.filter (fun p : nat * bool => snd p)
                              (combine (seq 0 (length (dict_keys flat))) mask))).
  assert (Hunfold : forall entropy,
             choose_random modelInput scenarioModels entropy =
             rbind (random_choice entropy indicesMatch) (fun choice =>
             rbind (list_item (dict_keys flat) choice) (fun scenarioRandom =>
             inr (scenarioRandom, flat)))).
  { intros entropy. unfold choose_random, dict_item. rewrite Hsrc, Hrun. cbn [rbind].
    fold flat. rewrite Hm. reflexivity. }
  pose proof (mapM_length _ _ _ Hm) as Hlen.
  split.
  - intros k Hk Hks. apply In_nth_error in Hk as [i Hi].
    destruct (mapM_nth _ _ _ _ _ Hm Hi) as (src & Hnth & Hms).
    assert (src = modelHistID) by congruence. subst src.
    assert (Hin : In i indicesMatch).
    { unfold indicesMatch. apply in_map_iff. exists (i, true). split; [reflexivity|].
      apply filter_In. split; [|reflexivity].
      replace (length (dict_keys flat)) with (length mask)
        by (unfold mask; rewrite length_map; exact Hlen).
      apply (combine_seq_In mask 0 i true). unfold mask.
      rewrite nth_error_map, Hnth. simpl. rewrite String.eqb_refl. reflexivity. }
    destruct (random_choice_reach _ _ Hin) as [entropy He]. exists entropy.
    rewrite Hunfold, He. cbn [rbind]. unfold list_item. rewrite Hi. reflexivity.
  - intros Hnone entropy. rewrite Hunfold.
    assert (Hempty : indicesMatch = []).
    { destruct indicesMatch as [|i rest] eqn:Hidx; [reflexivity|]. exfalso.
      assert (Hin : In i indicesMatch) by (rewrite Hidx; left; reflexivity).
      unfold indicesMatch in Hin. apply in_map_iff in Hin as ([i' flag] & Hi' & Hin).
      simpl in Hi'. subst i'. apply filter_In in Hin as [Hin Hflag]. simpl in Hflag.
      subst flag.
      replace (length (dict_keys flat)) with (length mask) in Hin
        by (unfold mask; rewrite length_map; exact Hlen).
      apply in_combine_seq in Hin as [_ Hmask]. rewrite Nat.sub_0_r in Hmask.
      unfold mask in Hmask. rewrite nth_error_map in Hmask.
      destruct (nth_error sources i) as [src|] eqn:Hnth; [|discriminate].
      simpl in Hmask. inversion Hmask as [Heq]. apply String.eqb_eq in Heq. subst src.
      assert (Hi : (i < length (dict_keys flat))%nat).
      { rewrite <- Hlen. apply nth_error_Some. congruence. }
      apply nth_error_Some in Hi.
      destruct (nth_error (dict_keys flat) i) as [k|] eqn:Hk; [|congruence].
      destruct (mapM_nth _ _ _ _ _ Hm Hk) as (src & Hnth' & Hms).
      apply (Hnone k (nth_error_In _ _ Hk)). congruence. }
    rewrite Hempty. reflexivity.
Qed.

End Loader.

Lemma every_same_source_key_can_be_drawn_witness :
  exists entropy,
    choose_random hist_run registry entropy =
    inr ("ACCESS-CM2_r1i1p1f1_1"%string, flatten_items registry []).
Proof.
  apply (proj1 (every_same_source_key_can_be_drawn nat hist_run registry
                  "ACCESS-CM2" "r1i1p1f1" ["ACCESS-CM2"; "ACCESS-CM2"; "CanESM5"]%string
                  eq_refl eq_refl eq_refl)).
  - vm_compute. right. left. reflexivity.
  - reflexivity.
Defined.

End ResolverShape.

(** ** File names and their classification *)

Module ClassifyFacts.

Import Continuity Classify.

Local Open Scope string_scope.

Lemma str_drop_add n m s : str_drop (n + m) s = str_drop m (str_drop n s).
Proof.
  revert s. induction n as [|n IH]; intros s; [reflexivity|].
  destruct s as [|a s]; simpl; [destruct m; reflexivity|apply IH].
Qed.

Lemma str_drop_app a b : str_drop (String.length a) (a ++ b) = b.
Proof. induction a as [|x a IH]; simpl; [reflexivity|exact IH]. Qed.

Lemma str_index_skip c a b :
  no_char c a = true -> str_index c (a ++ String c b) = inr (String.length a).
Proof.
  induction a as [|x a IH]; simpl; intros H.
  - rewrite Ascii.eqb_refl. reflexivity.
  - apply andb_true_iff in H as [Hx Ha]. apply negb_true_iff in Hx. rewrite Hx.
    rewrite (IH Ha). reflexivity.
Qed.

(** Searching from position [n], where the text [a] without [c] and then
    [c] begin. *)
Lemma index_from_drop c n s a b :
  str_drop n s = a ++ String c b -> no_char c a = true ->
  str_index_from c n s = inr (n + String.length a)%nat.
Proof.
  intros Hdrop Ha. unfold str_index_from. rewrite Hdrop, (str_index_skip c a b Ha).
  reflexivity.
Qed.

Lemma drop_after c n s a b :
  str_drop n s = a ++ String c b -> str_drop (n + String.length a + 1) s = b.
Proof.
  intros Hdrop. rewrite <- Nat.add_assoc, str_drop_add, Hdrop.
  rewrite str_drop_add, str_drop_app. reflexivity.
Qed.

Lemma drop_next n s x r : str_drop n s = String x r -> str_drop (n + 1) s = r.
Proof. intros H. rewrite str_drop_add, H. reflexivity. Qed.

Lemma drop_next2 n s x r : str_drop (n + 1) s = String x r -> str_drop (n + 2) s = r.
Proof.
  intros H. replace (n + 2)%nat with (n + 1 + 1)%nat by lia. apply (drop_next _ _ x), H.
Qed.

Lemma substring_drop n m s : substring n m s = substring 0 m (str_drop n s).
Proof.
  revert s. induction n as [|n IH]; intros s; [reflexivity|].
  destruct s as [|a s]; simpl; [destruct m; reflexivity|apply IH].
Qed.

Lemma substring_prefix a b : substring 0 (String.length a) (a ++ b) = a.
Proof.
  induction a as [|x a IH]; simpl; [destruct b; reflexivity|]. rewrite IH. reflexivity.
Qed.

Lemma slice_drop n e s mid post :
  str_drop n s = mid ++ post -> e = (n + String.length mid)%nat -> str_slice n e s = mid.
Proof.
  intros Hdrop ->. unfold str_slice. rewrite substring_drop, Hdrop.
  replace (n + String.length mid - n)%nat with (String.length mid) by lia.
  apply substring_prefix.
Qed.

(** X11. A name of the form
    [p0_p1_model_experiment_variant_grid_dates.ext], in which the first six
    fields hold no underscore, model, variant and grid are not empty and
    the dates hold no dot, is read back as (model, variant, dates): the
    file is filed under [Full] when the dates are 185001-201412 and under
    [model_variant] otherwise. *)
Theorem parse_url_reads_fields (p0 p1 model experiment variant grid dates ext : string) :
  no_char "_" p0 = true -> no_char "_" p1 = true -> no_char "_" model = true ->
  no_char "_" experiment = true -> no_char "_" variant = true ->
  no_char "_" grid = true -> no_char "." dates = true ->
  model <> "" -> variant <> "" -> grid <> "" ->
  parse_url (p0 ++ "_" ++ p1 ++ "_" ++ model ++ "_" ++ experiment ++ "_" ++ variant
                ++ "_" ++ grid ++ "_" ++ dates ++ "." ++ ext) =
    inr (model, variant, dates) /\
  classify_key (p0 ++ "_" ++ p1 ++ "_" ++ model ++ "_" ++ experiment ++ "_" ++ variant
                   ++ "_" ++ grid ++ "_" ++ dates ++ "." ++ ext) =
    inr (if String.eqb dates fullDates then "Full" else model ++ "_" ++ variant).
Proof.
  intros Hp0 Hp1 Hmodel Hexp Hvariant Hgrid Hdates Hm Hv Hg.
  assert (Hparse :
    parse_url (p0 ++ "_" ++ p1 ++ "_" ++ model ++ "_" ++ experiment ++ "_" ++ variant
                  ++ "_" ++ grid ++ "_" ++ dates ++ "." ++ ext) =
    inr (model, variant, dates)).
  { destruct model as [|m0 mt]; [congruence|].
    destruct variant as [|v0 vt]; [congruence|].
    destruct grid as [|g0 gt]; [congruence|].
    simpl in Hmodel, Hvariant, Hgrid.
    apply andb_true_iff in Hmodel as [_ Hmt].
    apply andb_true_iff in Hvariant as [_ Hvt].
    apply andb_true_iff in Hgrid as [_ Hgt].
    set (R6 := dates ++ String "." ext).
    set (R5 := String g0 gt ++ String "_" R6).
    set (R4 := String v0 vt ++ String "_" R5).
    set (R3 := experiment ++ String "_" R4).
    set (R2 := String m0 mt ++ String "_" R3).
    set (R1 := p1 ++ String "_" R2).
    change (parse_url (p0 ++ String "_" R1) = inr (String m0 mt, String v0 vt, dates)).
    set (url := p0 ++ String "_" R1).
    assert (D0 : str_drop 0 url = p0 ++ String "_" R1) by reflexivity.
    pose proof (drop_after _ _ _ _ _ D0) as D1. fold R1 in D1.
    change (str_drop (0 + String.length p0 + 1) url = p1 ++ String "_" R2) in D1.
    pose proof (drop_after _ _ _ _ _ D1) as D2.
    change (str_drop (0 + String.length p0 + 1 + String.length p1 + 1) url
            = String m0 (mt ++ String "_" R3)) in D2.
    pose proof (drop_next _ _ _ _ D2) as D2'.
    pose proof (drop_after _ _ _ _ _ D2') as D3.
    change (str_drop (0 + String.length p0 + 1 + String.length p1 + 1 + 1
                      + String.length mt + 1) url = experiment ++ String "_" R4) in D3.
    pose proof (drop_after _ _ _ _ _ D3) as D4.
    change (str_drop (0 + String.length p0 + 1 + String.length p1 + 1 + 1
                      + String.length mt + 1 + String.length experiment + 1) url
            = String v0 (vt ++ String "_" R5)) in D4.
    pose proof (drop_next _ _ _ _ D4) as D4'.
    pose proof (drop_after _ _ _ _ _ D4') as D5.
    change (str_drop (0 + String.length p0 + 1 + String.length p1 + 1 + 1
                      + String.length mt + 1 + String.length experiment + 1 + 1
                      + String.length vt + 1) url
            = String g0 (gt ++ String "_" R6)) in D5.
    pose proof (drop_next _ _ _ _ D5) as D5'.
    pose proof (drop_after _ _ _ _ _ D5') as D6.
    change (str_drop (0 + String.length p0 + 1 + String.length p1 + 1 + 1
                      + String.length mt + 1 + String.length experiment + 1 + 1
                      + String.length vt + 1 + 1 + String.length gt + 1) url
            = dates ++ String "." ext) in D6.
    unfold parse_url. cbv zeta.
    assert (I0 : str_index "_" url = inr (0 + String.length p0)%nat).
    { unfold url. rewrite (str_index_skip _ _ _ Hp0). reflexivity. }
    rewrite I0. cbn [rbind].
    rewrite (index_from_drop _ _ _ _ _ D1 Hp1). cbn [rbind].
    rewrite (index_from_drop _ _ _ _ _ D2' Hmt). cbn [rbind].
    rewrite (index_from_drop _ _ _ _ _ D3 Hexp). cbn [rbind].
    rewrite (index_from_drop _ _ _ _ _ D4' Hvt). cbn [rbind].
    assert (D5'' : str_drop (0 + String.length p0 + 1 + String.length p1 + 1 + 1
                      + String.length mt + 1 + String.length experiment + 1 + 1
                      + String.length vt + 2) url = gt ++ String "_" R6).
    { apply (drop_next2 _ _ g0). exact D5. }
    rewrite (index_from_drop _ _ _ _ _ D5'' Hgt). cbn [rbind].
    assert (D6' : str_drop (0 + String.length p0 + 1 + String.length p1 + 1 + 1
                      + String.length mt + 1 + String.length experiment + 1 + 1
                      + String.length vt + 2 + String.length gt + 1) url
                  = dates ++ String "." ext).
    { rewrite <- D6. f_equal. lia. }
    rewrite (index_from_drop _ _ _ _ _ D6' Hdates). cbn [rbind].
    rewrite (slice_drop _ _ _ (String m0 mt) (String "_" R3) D2) by (simpl; lia).
    rewrite (slice_drop _ _ _ (String v0 vt) (String "_" R5) D4) by (simpl; lia).
    rewrite (slice_drop _ _ _ dates (String "." ext) D6') by reflexivity.
    reflexivity. }
  split; [exact Hparse|]. unfold classify_key. rewrite Hparse. reflexivity.
Qed.

Lemma parse_url_reads_fields_witness :
  parse_url "ts_Amon_ACCESS-CM2_historical_r2i1p1f1_gn_195001-201412.nc" =
  inr ("ACCESS-CM2", "r2i1p1f1", "195001-201412").
Proof.
  apply (proj1 (parse_url_reads_fields "ts" "Amon" "ACCESS-CM2" "historical" "r2i1p1f1"
                  "gn" "195001-201412" "nc"
                  eq_refl eq_refl eq_refl eq_refl eq_refl eq_refl eq_refl
                  ltac:(discriminate) ltac:(discriminate) ltac:(discriminate))).
Defined.

Lemma dict_append_perm {A} k (x : A) (d : Dict (list A)) :
  Permutation (flat_map snd (dict_append k x d)) (x :: flat_map snd d).
Proof.
  induction d as [|[k' v] d IH]; simpl; [reflexivity|].
  destruct (String.eqb k k'); cbn [flat_map snd].
  - rewrite <- app_assoc. simpl. symmetry. apply Permutation_middle.
  - rewrite IH. symmetry. apply Permutation_middle.
Qed.

Lemma dict_append_keys {A} k (x : A) (d : Dict (list A)) :
  List.NoDup (dict_keys d) -> List.NoDup (dict_keys (dict_append k x d)).
Proof.
  unfold dict_keys. induction d as [|[k' v] d IH]; simpl; intros Hnd.
  - constructor; [intros []|constructor].
  - inversion Hnd as [|? ? Hk' Hd]; subst.
    destruct (String.eqb_spec k k') as [->|Hne]; simpl; [constructor; assumption|].
    constructor; [|apply IH, Hd].
    intros Hin. apply Hk'. clear -Hin Hne. induction d as [|[k'' v''] d IHd]; simpl in *.
    + destruct Hin as [H|[]]. congruence.
    + destruct (String.eqb k k''); simpl in *; [exact Hin|].
      destruct Hin as [H|H]; [left; exact H|right; apply IHd, H].
Qed.

Lemma dict_append_In {A} k (x : A) (d : Dict (list A)) k' v' u :
  In (k', v') (dict_append k x d) -> In u v' ->
  (u = x /\ k' = k) \/ exists v0, In (k', v0) d /\ In u v0.
Proof.
  induction d as [|[k0 v0] d IH]; simpl.
  - intros [H|[]] Hu. inversion H; subst. destruct Hu as [<-|[]]. left. split; reflexivity.
  - destruct (String.eqb_spec k k0) as [->|Hne].
    + intros [H|H] Hu.
      * inversion H; subst. apply in_app_or in Hu as [Hu|[<-|[]]].
        -- right. exists v0. split; [left; reflexivity|exact Hu].
        -- left. split; reflexivity.
      * right. exists v'. split; [right; exact H|exact Hu].
    + intros [H|H] Hu.
      * right. exists v'. split; [left; exact H|exact Hu].
      * destruct (IH H Hu) as [Hl|(v1 & Hin & Hu1)]; [left; exact Hl|].
        right. exists v1. split; [right; exact Hin|exact Hu1].
Qed.

Lemma dict_append_nonempty {A} k (x : A) (d : Dict (list A)) :
  List.Forall (fun kv : string * list A => snd kv <> []) d ->
  List.Forall (fun kv : string * list A => snd kv <> []) (dict_append k x d).
Proof.
  induction 1 as [|[k' v] d Hv Hd IH]; simpl.
  - constructor; [discriminate|constructor].
  - destruct (String.eqb k k'); constructor; try assumption.
    simpl. destruct v; discriminate.
Qed.

Lemma classify_loop_spec urlList histModels d :
  classify_loop urlList histModels = inr d ->
  Permutation (flat_map snd d) (flat_map snd histModels ++ urlList) /\
  (List.NoDup (dict_keys histModels) -> List.NoDup (dict_keys d)) /\
  (List.Forall (fun kv : string * list string => snd kv <> []) histModels ->
   List.Forall (fun kv : string * list string => snd kv <> []) d) /\
  (forall k v url, In (k, v) d -> In url v ->
     (In url urlList /\ classify_key url = inr k) \/
     exists v0, In (k, v0) histModels /\ In url v0).
Proof.
  revert histModels. induction urlList as [|url0 urlList IH]; intros histModels H;
    simpl in H.
  - inversion H; subst. rewrite app_nil_r.
    split; [reflexivity|]. split; [tauto|]. split; [tauto|].
    intros k v url Hin Hu. right. exists v. split; assumption.
  - destruct (classify_key url0) as [?|key] eqn:Hkey; [discriminate|]. cbn [rbind] in H.
    destruct (IH _ H) as (Hperm & Hnd & Hne & Hin).
    split; [|split; [|split]].
    + rewrite Hperm, dict_append_perm. simpl. apply Permutation_middle.
    + intros H0. apply Hnd, dict_append_keys, H0.
    + intros H0. apply Hne, dict_append_nonempty, H0.
    + intros k v url Hkv Hu. destruct (Hin k v url Hkv Hu) as [[Hl Hc]|(v0 & Hv0 & Hu0)].
      * left. split; [right; exact Hl|exact Hc].
      * destruct (dict_append_In _ _ _ _ _ _ Hv0 Hu0) as [[-> ->]|Hold].
        -- left. split; [left; reflexivity|exact Hkey].
        -- right. exact Hold.
Qed.

(** X12. When [ClassifyHistModelsLite] returns, its lists hold the names
    it was given, each one exactly once and under the key that its own
    fields determine; the keys are distinct and no list is empty (so
    [modelDict[0]] in [ConcatModels] exists for each of them). *)
Theorem classification_is_a_partition (urlList : list string) (d : Dict (list string)) :
  ClassifyHistModelsLite urlList = inr d ->
  Permutation (flat_map snd d) urlList /\
  List.NoDup (dict_keys d) /\
  (forall k v, In (k, v) d ->
     (exists url0, list_item v 0 = inr url0) /\
     forall url, In url v -> In url urlList /\ classify_key url = inr k).
Proof.
  unfold ClassifyHistModelsLite. intros H.
  destruct (classify_loop_spec _ _ _ H) as (Hperm & Hnd & Hne & Hin).
  split; [exact Hperm|]. split; [apply Hnd; constructor|].
  intros k v Hkv. split.
  - specialize (Hne (List.Forall_nil _)). rewrite List.Forall_forall in Hne.
    specialize (Hne _ Hkv). simpl in Hne. destruct v as [|url0 v]; [congruence|].
    exists url0. reflexivity.
  - intros url Hu. destruct (Hin k v url Hkv Hu) as [Hl|(v0 & [] & _)]. exact Hl.
Qed.

Lemma classification_is_a_partition_witness :
  Permutation
    (flat_map snd
       [("Full", ["ts_Amon_CanESM5_historical_r1i1p1f1_gn_185001-201412.nc"]);
        ("ACCESS-CM2_r2i1p1f1",
         ["ts_Amon_ACCESS-CM2_historical_r2i1p1f1_gn_185001-194912.nc";
          "ts_Amon_ACCESS-CM2_historical_r2i1p1f1_gn_195001-201412.nc"])])
    hist_files.
Proof.
  apply (classification_is_a_partition hist_files).
  vm_compute. reflexivity.
Defined.

(** Every index found accounts for one occurrence of the character. *)
Lemma str_index_count c s i :
  str_index c s = inr i -> count_char c s = S (count_char c (str_drop (i + 1) s)).
Proof.
  revert i. induction s as [|a s IH]; intros i H; simpl in H; [discriminate|].
  simpl count_char. destruct (Ascii.eqb a c).
  - inversion H; subst. reflexivity.
  - destruct (str_index c s) as [?|j] eqn:Hj; [discriminate|]. simpl in H.
    inversion H; subst. simpl. apply IH. reflexivity.
Qed.

Lemma str_index_from_count c n s j :
  str_index_from c n s = inr j ->
  count_char c (str_drop n s) = S (count_char c (str_drop (j + 1) s)).
Proof.
  unfold str_index_from. intros H.
  destruct (str_index c (str_drop n s)) as [?|i] eqn:Hi; [discriminate|]. simpl in H.
  inversion H; subst. rewrite (str_index_count _ _ _ Hi).
  rewrite <- Nat.add_assoc, (str_drop_add n). reflexivity.
Qed.

Lemma count_drop_le c n s :
  (count_char c (str_drop (n + 1) s) <= count_char c (str_drop n s))%nat.
Proof.
  rewrite str_drop_add. destruct (str_drop n s) as [|a r]; simpl; lia.
Qed.

Lemma parse_url_needs_six url r :
  parse_url url = inr r -> (6 <= count_char "_" url)%nat.
Proof.
  unfold parse_url. cbv zeta. intros H.
  destruct (str_index "_" url) as [?|i1] eqn:H1; [discriminate|]. cbn [rbind] in H.
  destruct (str_index_from "_" (i1 + 1) url) as [?|i2] eqn:H2; [discriminate|].
  cbn [rbind] in H.
  destruct (str_index_from "_" (i2 + 1 + 1) url) as [?|i3] eqn:H3; [discriminate|].
  cbn [rbind] in H.
  destruct (str_index_from "_" (i3 + 1) url) as [?|i4] eqn:H4; [discriminate|].
  cbn [rbind] in H.
  destruct (str_index_from "_" (i4 + 1 + 1) url) as [?|i5] eqn:H5; [discriminate|].
  cbn [rbind] in H.
  destruct (str_index_from "_" (i5 + 2) url) as [?|i6] eqn:H6; [discriminate|].
  apply str_index_count in H1. apply str_index_from_count in H2, H3, H4, H5, H6.
  pose proof (count_drop_le "_" (i2 + 1) url).
  pose proof (count_drop_le "_" (i4 + 1) url).
  pose proof (count_drop_le "_" (i5 + 1) url).
  replace (i5 + 1 + 1)%nat with (i5 + 2)%nat in * by lia.
  lia.
Qed.

Lemma parse_url_error url e : parse_url url = inl e -> e = ValueError.
Proof.
  assert (Hidx : forall c s e', str_index c s = inl e' -> e' = ValueError).
  { intros c s. induction s as [|a s IH]; intros e' H; simpl in H; [congruence|].
    destruct (Ascii.eqb a c); [discriminate|].
    destruct (str_index c s) as [e''|?]; simpl in H; [|discriminate].
    inversion H; subst. apply IH. reflexivity. }
  assert (Hfrom : forall c n s e', str_index_from c n s = inl e' -> e' = ValueError).
  { intros c n s e' H. unfold str_index_from in H.
    destruct (str_index c (str_drop n s)) as [e''|?] eqn:Hi; simpl in H; [|discriminate].
    inversion H; subst. apply (Hidx _ _ _ Hi). }
  unfold parse_url. cbv zeta. intros H.
  repeat match type of H with
         | rbind ?r _ = inl _ =>
             let E := fresh "E" in
             destruct r as [?|?] eqn:E; cbn [rbind] in H;
             [inversion H; subst; first [apply (Hidx _ _ _ E)|apply (Hfrom _ _ _ _ E)]|]
         end.
  discriminate.
Qed.

(** X13. A single name with fewer than six underscores makes the whole
    classification raise [ValueError]: nothing is returned for the other
    names. *)
Theorem one_bad_name_fails_classification (urlList : list string) (url : string) :
  In url urlList -> (count_char "_" url < 6)%nat ->
  ClassifyHistModelsLite urlList = inl ValueError.
Proof.
  intros Hin Hcount.
  assert (Hbad : exists e, classify_key url = inl e).
  { unfold classify_key. destruct (parse_url url) as [e|r] eqn:Hp; [exists e; reflexivity|].
    apply parse_url_needs_six in Hp. lia. }
  assert (Herr : forall u e, classify_key u = inl e -> e = ValueError).
  { intros u e H. unfold classify_key in H.
    destruct (parse_url u) as [e'|[[? ?] ?]] eqn:Hp; simpl in H; [|discriminate].
    inversion H; subst. apply (parse_url_error _ _ Hp). }
  unfold ClassifyHistModelsLite. generalize (@nil (string * list string)).
  induction urlList as [|u urlList IH]; intros d; [contradiction|]. simpl.
  destruct (classify_key u) as [e|key] eqn:Hkey.
  - rewrite (Herr _ _ Hkey). reflexivity.
  - cbn [rbind]. destruct Hin as [->|Hin].
    + destruct Hbad as [e He]. congruence.
    + apply IH, Hin.
Qed.

Lemma one_bad_name_fails_classification_witness :
  ClassifyHistModelsLite (hist_files ++ ["ts_Amon_CanESM5.nc"]) = inl ValueError.
Proof.
  apply (one_bad_name_fails_classification _ "ts_Amon_CanESM5.nc").
  - vm_compute. tauto.
  - vm_compute. lia.
Defined.

End ClassifyFacts.

(** ** Model names and dimension names *)

Module NamesFacts.

Import Continuity Classify ClassifyFacts Names.

Local Open Scope string_scope.

(** X14. [SaveAttrs] gives [parent_source_id_variant_label] when both
    attributes are present, the one that is present when the other is
    missing (without underscore), and the empty name when both are
    missing; when both are present and the source holds no underscore, the
    text before the first underscore of the name is the source again and
    the text after it the variant label. *)
Theorem SaveAttrs_cases (ds_attrs : Dict string) :
  (forall p v,
     dict_get "parent_source_id" ds_attrs = Some p ->
     dict_get "variant_label" ds_attrs = Some v ->
     SaveAttrs ds_attrs = p ++ "_" ++ v /\
     (no_char "_" p = true ->
      model_source (SaveAttrs ds_attrs) = inr p /\
      str_drop (String.length p + 1) (SaveAttrs ds_attrs) = v)) /\
  (forall v,
     dict_get "parent_source_id" ds_attrs = None ->
     dict_get "variant_label" ds_attrs = Some v -> SaveAttrs ds_attrs = v) /\
  (forall p,
     dict_get "parent_source_id" ds_attrs = Some p ->
     dict_get "variant_label" ds_attrs = None -> SaveAttrs ds_attrs = p) /\
  (dict_get "parent_source_id" ds_attrs = None ->
   dict_get "variant_label" ds_attrs = None -> SaveAttrs ds_attrs = "").
Proof.
  unfold SaveAttrs. cbv zeta. cbn [flat_map]. repeat split.
  - rewrite H, H0. reflexivity.
  - rewrite H, H0. cbn [app map snd String.concat]. unfold model_source.
    change (p ++ "_" ++ v) with (p ++ String "_" v).
    rewrite (str_index_skip _ _ _ H1). cbn [rbind]. unfold str_prefix.
    rewrite substring_prefix. reflexivity.
  - rewrite H, H0. cbn [app map snd String.concat].
    change (p ++ "_" ++ v) with (p ++ String "_" v).
    rewrite str_drop_add, str_drop_app. reflexivity.
  - intros v -> ->. reflexivity.
  - intros p -> ->. reflexivity.
  - intros -> ->. reflexivity.
Qed.

Lemma SaveAttrs_cases_witness :
  SaveAttrs [("variant_label", "r1i1p1f1"); ("parent_source_id", "ACCESS-CM2")] =
  "ACCESS-CM2_r1i1p1f1" /\
  SaveAttrs [("variant_label", "r1i1p1f1")] = "r1i1p1f1".
Proof.
  split.
  - apply (proj1 (SaveAttrs_cases [("variant_label", "r1i1p1f1");
                                     ("parent_source_id", "ACCESS-CM2")])
             "ACCESS-CM2" "r1i1p1f1" eq_refl eq_refl).
  - apply (proj1 (proj2 (SaveAttrs_cases [("variant_label", "r1i1p1f1")]))
             "r1i1p1f1" eq_refl eq_refl).
Defined.

Lemma rename_in_same old names : rename_in old old names = names.
Proof.
  unfold rename_in. induction names as [|n names IH]; simpl; [reflexivity|].
  rewrite IH. destruct (String.eqb_spec n old) as [->|_]; reflexivity.
Qed.

Lemma rename_dims old new ds ds' :
  rename old new ds = inr ds' -> dims ds' = rename_in old new (dims ds).
Proof.
  unfold rename. destruct (negb _); [discriminate|].
  destruct (String.eqb_spec old new) as [->|_].
  - intros H. inversion H; subst. symmetry. apply rename_in_same.
  - destruct (_ && _); [discriminate|]. intros H. inversion H. reflexivity.
Qed.

Lemma rename_only_ValueError old new ds e : rename old new ds = inl e -> e = ValueError.
Proof.
  unfold rename. destruct (negb _); [intros H; inversion H; reflexivity|].
  destruct (String.eqb old new); [discriminate|].
  destruct (_ && _); [intros H; inversion H; reflexivity|discriminate].
Qed.

Lemma has_rename_in old new names :
  has old names = true -> has new (rename_in old new names) = true.
Proof.
  unfold has, rename_in. induction names as [|n names IH]; simpl; [discriminate|].
  destruct (String.eqb_spec old n) as [->|Hne]; simpl.
  - rewrite String.eqb_refl, String.eqb_refl. reflexivity.
  - intros H. rewrite (IH H). apply orb_true_r.
Qed.

Lemma has_rename_other name old new names :
  name <> old -> name <> new ->
  has name (rename_in old new names) = has name names.
Proof.
  intros Hold Hnew. unfold has, rename_in. induction names as [|n names IH]; simpl;
    [reflexivity|]. rewrite IH. f_equal.
  destruct (String.eqb_spec n old) as [->|Hn].
  - apply String.eqb_neq in Hold, Hnew. rewrite Hold, Hnew. reflexivity.
  - reflexivity.
Qed.

Lemma length_rename_in old new names :
  length (rename_in old new names) = length names.
Proof. apply length_map. Qed.

(** What [clean_axis] does when it returns: nothing, or one rename of a
    dimension that was there. *)
Lemma clean_axis_inv canonical short long ds ds' :
  clean_axis canonical short long ds = inr ds' ->
  ds' = ds /\
    (has canonical (dims ds) = true \/
     (has canonical (dims ds) = false /\ has short (dims ds) = false /\
      has long (dims ds) = false)) \/
  exists old, has old (dims ds) = true /\ (old = short \/ old = long) /\
              dims ds' = rename_in old canonical (dims ds).
Proof.
  unfold clean_axis. intros H.
  destruct (has canonical (dims ds)) eqn:Hc; cbn [negb] in H.
  { inversion H; subst. left. split; [reflexivity|]. left. reflexivity. }
  destruct (has short (dims ds)) eqn:Hs.
  { right. exists short. split; [exact Hs|]. split; [left; reflexivity|].
    apply rename_dims, H. }
  destruct (has long (dims ds)) eqn:Hl.
  { right. exists long. split; [exact Hl|]. split; [right; reflexivity|].
    apply rename_dims, H. }
  inversion H; subst. left. split; [reflexivity|]. right. repeat split; reflexivity.
Qed.

Lemma clean_axis_dims canonical short long ds ds' :
  clean_axis canonical short long ds = inr ds' ->
  length (dims ds') = length (dims ds) /\
  (has canonical (dims ds) || has short (dims ds) || has long (dims ds) = true ->
   has canonical (dims ds') = true) /\
  (forall name, name <> canonical -> name <> short -> name <> long ->
                has name (dims ds') = has name (dims ds)).
Proof.
  intros H.
  destruct (clean_axis_inv _ _ _ _ _ H) as [[-> Hcase]|(old & Hold & Hwhich & Hdims)].
  - split; [reflexivity|]. split; [|reflexivity].
    destruct Hcase as [Hc|(Hc & Hs & Hl)]; [intros _; exact Hc|].
    rewrite Hc, Hs, Hl. discriminate.
  - rewrite Hdims. split; [apply length_rename_in|]. split.
    + intros _. apply has_rename_in, Hold.
    + intros name H1 H2 H3. apply has_rename_other; [|exact H1].
      destruct Hwhich as [->| ->]; assumption.
Qed.

(** X15. When [CleanCoords] ends without an exception and the dataset
    had a dimension named [lat], [y] or [latitude] and one named [lon], [x]
    or [longitude], its dimensions afterwards include [lat] and [lon], and
    they are as many as before. *)
Theorem CleanCoords_gives_canonical_names (ds : Named) :
  snd (CleanCoords ds) = None ->
  has "lat" (dims ds) || has "y" (dims ds) || has "latitude" (dims ds) = true ->
  has "lon" (dims ds) || has "x" (dims ds) || has "longitude" (dims ds) = true ->
  has "lat" (dims (fst (CleanCoords ds))) = true /\
  has "lon" (dims (fst (CleanCoords ds))) = true /\
  length (dims (fst (CleanCoords ds))) = length (dims ds).
Proof.
  unfold CleanCoords. intros Hok Hlat Hlon.
  destruct (clean_axis "lat" "y" "latitude" ds) as [?|ds1] eqn:H1; [discriminate|].
  destruct (clean_axis "lon" "x" "longitude" ds1) as [?|ds2] eqn:H2; [discriminate|].
  cbn [fst]. destruct (clean_axis_dims _ _ _ _ _ H1) as (Hlen1 & Hc1 & Ho1).
  destruct (clean_axis_dims _ _ _ _ _ H2) as (Hlen2 & Hc2 & Ho2).
  split; [|split].
  - rewrite Ho2 by discriminate. apply Hc1, Hlat.
  - apply Hc2. rewrite !Ho1 by discriminate. exact Hlon.
  - congruence.
Qed.

Lemma CleanCoords_gives_canonical_names_witness :
  (has "lat" (dims (fst (CleanCoords regular_long_names))) = true /\
   has "lon" (dims (fst (CleanCoords regular_long_names))) = true /\
   length (dims (fst (CleanCoords regular_long_names))) = length (dims regular_long_names)) /\
  (has "lat" (dims (fst (CleanCoords curvilinear))) = true /\
   has "lon" (dims (fst (CleanCoords curvilinear))) = true /\
   length (dims (fst (CleanCoords curvilinear))) = length (dims curvilinear)).
Proof.
  split.
  - apply (CleanCoords_gives_canonical_names regular_long_names); reflexivity.
  - apply (CleanCoords_gives_canonical_names curvilinear); reflexivity.
Defined.

(** X16. Let [old] be the dimension that [CleanCoords] renames to [lat]:
    [y] if it is a dimension, [latitude] otherwise.  When the dataset has
    a variable called [old] and a variable called [lat] (a curvilinear
    grid with index variables), the rename is refused: [CleanCoords]
    prints the [ValueError], leaves the dataset as it was and does not
    attempt the longitude.  When one of the two variables is missing, the
    dimension is renamed. *)
Theorem CleanCoords_refused_rename (ds : Named) (old : string) :
  has "lat" (dims ds) = false ->
  old = (if has "y" (dims ds) then "y" else "latitude") ->
  has old (dims ds) = true ->
  (has old (variables ds) && has "lat" (variables ds) = true ->
   CleanCoords ds = (ds, Some ValueError)) /\
  (has old (variables ds) && has "lat" (variables ds) = false ->
   clean_axis "lat" "y" "latitude" ds =
   inr (mkNamed (rename_in old "lat" (dims ds)) (rename_in old "lat" (variables ds)))).
Proof.
  intros Hlat Hold Hdim.
  assert (Hstep : clean_axis "lat" "y" "latitude" ds = rename old "lat" ds).
  { unfold clean_axis. rewrite Hlat. cbn [negb]. subst old.
    destruct (has "y" (dims ds)); [reflexivity|]. rewrite Hdim. reflexivity. }
  assert (Hne : String.eqb old "lat" = false).
  { subst old. destruct (has "y" (dims ds)); reflexivity. }
  split; intros Hvars.
  - unfold CleanCoords. rewrite Hstep. unfold rename.
    rewrite Hdim, Hne, Hvars. reflexivity.
  - rewrite Hstep. unfold rename. rewrite Hdim, Hne, Hvars. reflexivity.
Qed.

Lemma CleanCoords_refused_rename_witness :
  CleanCoords curvilinear_indexed = (curvilinear_indexed, Some ValueError) /\
  clean_axis "lat" "y" "latitude" curvilinear =
  inr (mkNamed ["time"; "lat"; "x"] ["time"; "lat"; "lon"; "ts"]).
Proof.
  split.
  - apply (proj1 (CleanCoords_refused_rename curvilinear_indexed "y"
                    eq_refl eq_refl eq_refl)).
    reflexivity.
  - apply (proj2 (CleanCoords_refused_rename curvilinear "y" eq_refl eq_refl eq_refl)).
    reflexivity.
Defined.

Lemma clean_axis_again canonical short long ds ds' :
  clean_axis canonical short long ds = inr ds' ->
  clean_axis canonical short long ds' = inr ds'.
Proof.
  intros H.
  destruct (clean_axis_inv _ _ _ _ _ H) as [[-> _]|(old & Hold & _ & Hdims)];
    [exact H|].
  unfold clean_axis. rewrite Hdims, (has_rename_in _ _ _ Hold). reflexivity.
Qed.

Lemma clean_axis_settled canonical short long ds ds' :
  clean_axis canonical short long ds = inr ds' ->
  has canonical (dims ds') = true \/
  (has canonical (dims ds') = false /\ has short (dims ds') = false /\
   has long (dims ds') = false).
Proof.
  intros H.
  destruct (clean_axis_inv _ _ _ _ _ H) as [[-> Hcase]|(old & Hold & _ & Hdims)];
    [exact Hcase|].
  left. rewrite Hdims. apply has_rename_in, Hold.
Qed.

(** X17. Cleaning twice is cleaning once: a second [CleanCoords] leaves
    the dataset as the first left it and ends the same way. *)
Theorem CleanCoords_idempotent (ds : Named) :
  CleanCoords (fst (CleanCoords ds)) = CleanCoords ds.
Proof.
  unfold CleanCoords.
  destruct (clean_axis "lat" "y" "latitude" ds) as [e|ds1] eqn:H1.
  - cbn [fst]. rewrite H1. reflexivity.
  - destruct (clean_axis "lon" "x" "longitude" ds1) as [e|ds2] eqn:H2; cbn [fst].
    + rewrite (clean_axis_again _ _ _ _ _ H1), H2. reflexivity.
    + assert (Hlat2 : clean_axis "lat" "y" "latitude" ds2 = inr ds2).
      { destruct (clean_axis_dims _ _ _ _ _ H2) as (_ & _ & Ho2).
        destruct (clean_axis_settled _ _ _ _ _ H1) as [Hc|(Hc & Hs & Hl)];
          unfold clean_axis; rewrite !Ho2 by discriminate.
        - rewrite Hc. reflexivity.
        - rewrite Hc, Hs, Hl. reflexivity. }
      rewrite Hlat2, (clean_axis_again _ _ _ _ _ H2). reflexivity.
Qed.

End NamesFacts.

(** ** The scenario registry *)

Module RegistryFacts.

Import Continuity Resolver ResolverShape Classify ClassifyFacts Registry Samples.

Local Open Scope string_scope.

Lemma nth_error_last {A} (l : list A) : nth_error l (length l - 1) = last l.
Proof.
  induction l as [|x l IH]; [reflexivity|].
  destruct l as [|y l]; [reflexivity|].
  simpl length in *. replace (S (S (length l)) - 1)%nat with (S (length l)) by lia.
  simpl nth_error. replace (length l) with (S (length l) - 1)%nat at 1 by lia.
  rewrite IH. reflexivity.
Qed.

Lemma last_map {A B} (f : A -> B) (l : list A) : last (map f l) = option_map f (last l).
Proof.
  induction l as [|x l IH]; [reflexivity|].
  destruct l as [|y l]; [reflexivity|]. exact IH.
Qed.

Lemma set_bounds_built first b : bounds_built b -> bounds_built (set_bounds first b).
Proof.
  unfold set_bounds. intros Hb. destruct (tv_class first); [right; eauto..|exact Hb].
Qed.

Section Build.

Variable Payload : Type.
Variable open_dataset : string -> Result (Dataset Payload).

Lemma spans_covers (ds : Dataset Payload) b within :
  bounds_built b -> spans ds b = inr within ->
  within = covers (midnight 2015 1 31) (midnight 2022 12 1) (time_axis ds).
Proof.
  unfold spans, list_item, covers, time_axis. intros Hb H.
  destruct (rows ds) as [|r0 rs] eqn:Hrows; [discriminate|].
  cbn [nth_error rbind] in H. cbn [map].
  change (tv_date (fst r0) :: map (fun r : TimeValue * Payload => tv_date (fst r)) rs)
    with (map (fun r : TimeValue * Payload => tv_date (fst r)) (r0 :: rs)) at 1.
  rewrite last_map, <- nth_error_last.
  destruct Hb as [->|[cls ->]]; [discriminate|].
  destruct (comparable (fst r0) cls); [discriminate|]. cbn [rbind] in H.
  destruct (nth_error (r0 :: rs) (length (r0 :: rs) - 1)) as [final|]; [|discriminate].
  cbn [rbind] in H. destruct (comparable (fst final) cls); [discriminate|].
  cbn [rbind] in H. inversion H. reflexivity.
Qed.

Lemma dict_append_member {A} k (x : A) (d : Dict (list A)) :
  exists v, In (k, v) (dict_append k x d) /\ In x v.
Proof.
  induction d as [|[k' v'] d IH]; simpl.
  - exists [x]. split; left; reflexivity.
  - destruct (String.eqb_spec k k') as [->|Hne].
    + exists (v' ++ [x])%list. split; [left; reflexivity|]. apply in_or_app. right. left.
      reflexivity.
    + destruct IH as (v & Hin & Hx). exists v. split; [right; exact Hin|exact Hx].
Qed.

Lemma dict_append_keeps {A} k (x : A) (d : Dict (list A)) k0 v0 u :
  In (k0, v0) d -> In u v0 -> exists v, In (k0, v) (dict_append k x d) /\ In u v.
Proof.
  induction d as [|[k' v'] d IH]; simpl; [intros []|].
  destruct (String.eqb_spec k k') as [->|Hne]; intros [H|H] Hu.
  - inversion H; subst. exists (v0 ++ [x])%list. split; [left; reflexivity|].
    apply in_or_app. left. exact Hu.
  - exists v0. split; [right; exact H|exact Hu].
  - exists v0. split; [left; exact H|exact Hu].
  - destruct (IH H Hu) as (v & Hin & Hv). exists v. split; [right; exact Hin|exact Hv].
Qed.

Lemma scenario_loop_spec modelListScenario scenarioModels bounds reg :
  scenario_loop open_dataset modelListScenario scenarioModels bounds = inr reg ->
  bounds_built bounds ->
  (List.NoDup (dict_keys scenarioModels) -> List.NoDup (dict_keys reg)) /\
  (List.Forall (fun kv : string * list string => snd kv <> []) scenarioModels ->
   List.Forall (fun kv : string * list string => snd kv <> []) reg) /\
  (forall k v url, In (k, v) reg -> In url v ->
     (In url modelListScenario /\
      exists ds sourceID parentVariant,
        open_dataset url = inr ds /\
        dict_get "source_id" (attrs ds) = Some sourceID /\
        dict_get "parent_variant_label" (attrs ds) = Some parentVariant /\
        k = sourceID ++ "_" ++ parentVariant /\
        covers (midnight 2015 1 31) (midnight 2022 12 1) (time_axis ds) = true) \/
     exists v0, In (k, v0) scenarioModels /\ In url v0) /\
  (forall k0 v0 u, In (k0, v0) scenarioModels -> In u v0 ->
     exists v, In (k0, v) reg /\ In u v) /\
  (forall url ds, In url modelListScenario -> open_dataset url = inr ds ->
     covers (midnight 2015 1 31) (midnight 2022 12 1) (time_axis ds) = true ->
     exists k v, In (k, v) reg /\ In url v).
Proof.
  revert scenarioModels bounds.
  induction modelListScenario as [|model rest IH]; intros scenarioModels bounds H Hb;
    simpl in H.
  - inversion H; subst. split; [tauto|]. split; [tauto|]. split; [|split].
    + intros k v url Hin Hu. right. exists v. split; assumption.
    + intros k0 v0 u Hin Hu. exists v0. split; assumption.
    + intros url ds [].
  - destruct (open_dataset model) as [?|ds] eqn:Hopen; [discriminate|]. cbn [rbind] in H.
    unfold dict_item in H.
    destruct (dict_get "source_id" (attrs ds)) as [sourceID|] eqn:Hsrc; [|discriminate].
    cbn [rbind] in H.
    destruct (dict_get "parent_variant_label" (attrs ds)) as [parentVariant|] eqn:Hpv;
      [|discriminate]. cbn [rbind] in H. cbv zeta in H.
    destruct (list_item (rows ds) 0) as [?|first]; [discriminate|]. cbn [rbind] in H.
    pose proof (set_bounds_built (fst first) bounds Hb) as Hb'.
    destruct (spans ds (set_bounds (fst first) bounds)) as [?|within] eqn:Hspans;
      [discriminate|]. cbn [rbind] in H.
    pose proof (spans_covers _ _ _ Hb' Hspans) as Hwithin.
    destruct (IH _ _ H Hb') as (Hnd & Hne & Hin & Hkeep & Hall).
    split; [|split; [|split; [|split]]].
    + intros H0. apply Hnd. destruct within; [apply dict_append_keys|]; exact H0.
    + intros H0. apply Hne. destruct within; [apply dict_append_nonempty|]; exact H0.
    + intros k v url Hkv Hu. destruct (Hin k v url Hkv Hu) as [[Hl Hex]|(v0 & Hv0 & Hu0)].
      * left. split; [right; exact Hl|exact Hex].
      * destruct within; [|right; exists v0; split; assumption].
        destruct (dict_append_In _ _ _ _ _ _ Hv0 Hu0) as [[-> ->]|Hold];
          [|right; exact Hold].
        left. split; [left; reflexivity|].
        exists ds, sourceID, parentVariant. repeat split; try assumption.
        symmetry. exact Hwithin.
    + intros k0 v0 u Hk0 Hu. destruct within.
      * destruct (dict_append_keeps (sourceID ++ "_" ++ parentVariant) model _ _ _ _ Hk0 Hu)
          as (v1 & Hv1 & Hu1). apply (Hkeep _ _ _ Hv1 Hu1).
      * apply (Hkeep _ _ _ Hk0 Hu).
    + intros url ds' [->|Hrest] Hopen' Hcov.
      * rewrite Hopen in Hopen'. inversion Hopen'; subst ds'.
        rewrite Hcov in Hwithin. subst within.
        destruct (dict_append_member (sourceID ++ "_" ++ parentVariant) url scenarioModels)
          as (v1 & Hv1 & Hu1).
        destruct (Hkeep _ _ _ Hv1 Hu1) as (v & Hv & Hu).
        exists (sourceID ++ "_" ++ parentVariant), v. split; assumption.
      * apply (Hall url ds' Hrest Hopen' Hcov).
Qed.

Lemma scenario_loop_perm modelListScenario scenarioModels bounds reg :
  scenario_loop open_dataset modelListScenario scenarioModels bounds = inr reg ->
  bounds_built bounds ->
  Permutation (flat_map snd reg)
              (flat_map snd scenarioModels
                 ++ List.filter (spanning open_dataset) modelListScenario).
Proof.
  revert scenarioModels bounds.
  induction modelListScenario as [|model rest IH]; intros scenarioModels bounds H Hb;
    simpl in H.
  - inversion H; subst. simpl. rewrite app_nil_r. reflexivity.
  - cbn [List.filter]. unfold spanning at 1.
    destruct (open_dataset model) as [?|ds] eqn:Hopen; [discriminate|]. cbn [rbind] in H.
    unfold dict_item in H.
    destruct (dict_get "source_id" (attrs ds)) as [sourceID|]; [|discriminate].
    cbn [rbind] in H.
    destruct (dict_get "parent_variant_label" (attrs ds)) as [parentVariant|];
      [|discriminate]. cbn [rbind] in H. cbv zeta in H.
    destruct (list_item (rows ds) 0) as [?|first]; [discriminate|]. cbn [rbind] in H.
    pose proof (set_bounds_built (fst first) bounds Hb) as Hb'.
    destruct (spans ds (set_bounds (fst first) bounds)) as [?|within] eqn:Hspans;
      [discriminate|]. cbn [rbind] in H.
    pose proof (spans_covers _ _ _ Hb' Hspans) as Hwithin. rewrite <- Hwithin.
    rewrite (IH _ _ H Hb'). destruct within; [|reflexivity].
    rewrite dict_append_perm. cbn [app]. apply Permutation_middle.
Qed.

(** X18. When [CreateScenarioDictionary] returns, the registry holds
    exactly the files whose time axis starts by 2015-01-31 and ends on or
    after 2022-12-01, each under the key [source_id_parent_variant_label]
    of its own attributes and as many times as it is listed (a file listed
    twice is held twice); the keys are distinct and no list of candidates
    is empty. *)
Theorem registry_holds_the_spanning_files (modelListScenario : list string)
    (reg : Dict (list string)) :
  CreateScenarioDictionary open_dataset modelListScenario = inr reg ->
  List.NoDup (dict_keys reg) /\
  (forall k v, In (k, v) reg ->
     v <> [] /\
     forall url, In url v ->
       In url modelListScenario /\
       exists ds sourceID parentVariant,
         open_dataset url = inr ds /\
         dict_get "source_id" (attrs ds) = Some sourceID /\
         dict_get "parent_variant_label" (attrs ds) = Some parentVariant /\
         k = sourceID ++ "_" ++ parentVariant /\
         covers (midnight 2015 1 31) (midnight 2022 12 1) (time_axis ds) = true) /\
  (forall url ds, In url modelListScenario -> open_dataset url = inr ds ->
     covers (midnight 2015 1 31) (midnight 2022 12 1) (time_axis ds) = true ->
     exists k v, In (k, v) reg /\ In url v) /\
  Permutation (flat_map snd reg)
              (List.filter (spanning open_dataset) modelListScenario).
Proof.
  unfold CreateScenarioDictionary. intros H.
  destruct (scenario_loop_spec _ _ _ _ H (or_introl eq_refl)) as (Hnd & Hne & Hin & _ & Hall).
  split; [apply Hnd; constructor|]. split; [|split; [exact Hall|]].
  - intros k v Hkv. split.
    + specialize (Hne (List.Forall_nil _)). rewrite List.Forall_forall in Hne.
      apply (Hne _ Hkv).
    + intros url Hu. destruct (Hin k v url Hkv Hu) as [Hl|(v0 & [] & _)]. exact Hl.
  - apply (scenario_loop_perm _ _ _ _ H (or_introl eq_refl)).
Qed.

End Build.

Lemma registry_holds_the_spanning_files_witness :
  Permutation
    (flat_map snd [("ACCESS-CM2_r1i1p1f1", ["a.nc"; "b.nc"; "a.nc"]);
                   ("ACCESS-CM2_r2i1p1f1", ["c.nc"])])
    (List.filter (spanning scenario_store) ["late.nc"; "a.nc"; "c.nc"; "b.nc"; "a.nc"]).
Proof.
  apply (registry_holds_the_spanning_files nat scenario_store
           ["late.nc"; "a.nc"; "c.nc"; "b.nc"; "a.nc"]).
  vm_compute. reflexivity.
Defined.

End RegistryFacts.

(** ** From the registry builder to the resolver *)

Module Pipeline.

Import Continuity Resolver ResolverShape Classify ClassifyFacts Registry RegistryFacts.

Local Open Scope string_scope.

Lemma append_assoc (a b c : string) : (a ++ b) ++ c = a ++ (b ++ c).
Proof.
  induction a as [|x a IH]; [reflexivity|].
  change (String x ((a ++ b) ++ c) = String x (a ++ (b ++ c))). rewrite IH. reflexivity.
Qed.

Lemma str_index_found c a b : exists i, str_index c (a ++ String c b) = inr i.
Proof.
  induction a as [|x a [i IH]]; simpl.
  - rewrite Ascii.eqb_refl. eauto.
  - destruct (Ascii.eqb x c); [eauto|]. rewrite IH. simpl. eauto.
Qed.

Lemma model_source_found a b : exists s, model_source (a ++ String "_" b) = inr s.
Proof.
  unfold model_source. destruct (str_index_found "_" a b) as [i ->]. simpl. eauto.
Qed.

Lemma model_source_prefix src rest :
  no_char "_" src = true -> model_source (src ++ String "_" rest) = inr src.
Proof.
  intros H. unfold model_source. rewrite (str_index_skip _ _ _ H). cbn [rbind].
  unfold str_prefix. rewrite substring_prefix. reflexivity.
Qed.

Lemma mapM_all_ok {A B} (f : A -> Result B) (l : list A) :
  (forall a, In a l -> exists b, f a = inr b) -> exists bs, mapM f l = inr bs.
Proof.
  induction l as [|a l IH]; intros H; simpl; [eauto|].
  destruct (H a (or_introl eq_refl)) as [b ->]. cbn [rbind].
  destruct IH as [bs ->]; [intros a' Ha'; apply H; right; exact Ha'|].
  cbn [rbind]. eauto.
Qed.

Lemma flatten_values_first key value counter flat :
  value <> [] ->
  In (key ++ "_" ++ str_of_nat counter) (dict_keys (flatten_values key value counter flat)).
Proof.
  destruct value as [|subValue value]; [congruence|]. intros _. simpl.
  apply flatten_values_keys, dict_set_key_in.
Qed.

Lemma flatten_items_has_key items flat key value :
  In (key, value) items ->
  In (if (1 <? length value)%nat then key ++ "_" ++ str_of_nat 0 else key)
     (dict_keys (flatten_items items flat)).
Proof.
  revert flat. induction items as [|[key0 value0] items IH]; intros flat Hin;
    [contradiction|]. simpl. destruct Hin as [Heq|Hin]; [|apply IH, Hin].
  inversion Heq; subst. apply flatten_items_keys.
  destruct (Nat.ltb_spec 1 (length value)) as [Hlt|Hle].
  - apply flatten_values_first. destruct value; [simpl in Hlt; lia|discriminate].
  - apply dict_set_key_in.
Qed.

Lemma random_choice_total {A} entropy (l : list A) :
  l <> [] -> exists a, random_choice entropy l = inr a.
Proof.
  intros Hne. unfold random_choice, list_item. destruct l as [|x l]; [congruence|].
  destruct (nth_error (x :: l) (entropy mod length (x :: l))) as [a|] eqn:Hn; [eauto|].
  apply nth_error_None in Hn.
  pose proof (Nat.mod_upper_bound entropy (length (x :: l))) as Hlt.
  simpl length in *. lia.
Qed.

Section Build.

Variable Payload : Type.
Variable open_dataset : string -> Result (Dataset Payload).

(** X19. A registry built by [CreateScenarioDictionary] cannot break
    [ExtendPeriod] by its shape: a key that is present always has a first
    candidate, and when the key is absent, the historical run has its two
    attributes, its [source_id] holds no underscore and some registered
    file has the same [source_id], every draw of the randomised assignment
    succeeds and selects a key of that source. *)
Theorem built_registry_serves_the_resolver (modelListScenario : list string)
    (reg : Dict (list string)) (modelInput : Dataset Payload)
    (modelHistID runHist : string) :
  CreateScenarioDictionary open_dataset modelListScenario = inr reg ->
  (forall key, dict_mem key reg = true ->
     exists url others, dict_get key reg = Some (url :: others)) /\
  (dict_get "source_id" (attrs modelInput) = Some modelHistID ->
   dict_get "variant_label" (attrs modelInput) = Some runHist ->
   no_char "_" modelHistID = true ->
   (exists url ds, In url modelListScenario /\ open_dataset url = inr ds /\
                   dict_get "source_id" (attrs ds) = Some modelHistID /\
                   covers (midnight 2015 1 31) (midnight 2022 12 1) (time_axis ds) = true) ->
   forall entropy, exists scenarioRandom,
     choose_random modelInput reg entropy = inr (scenarioRandom, flatten_items reg []) /\
     model_source scenarioRandom = inr modelHistID).
Proof.
  unfold CreateScenarioDictionary. intros Hbuild.
  destruct (scenario_loop_spec _ _ _ _ _ _ Hbuild (or_introl eq_refl))
    as (_ & Hne & Hin & _ & Hall).
  specialize (Hne (List.Forall_nil _)). rewrite List.Forall_forall in Hne.
  split.
  - intros key Hmem. apply dict_mem_get in Hmem as [v Hv].
    specialize (Hne _ (dict_get_In _ _ _ Hv)). simpl in Hne.
    destruct v as [|url others]; [congruence|]. eauto.
  - intros Hsrc Hrun Hclean (url & ds & Hurl & Hopen & Hdsrc & Hcov) entropy.
    set (flat := flatten_items reg []).
    (* every flattened key holds an underscore *)
    assert (Hkeys : forall k, In k (dict_keys flat) -> exists s, model_source k = inr s).
    { intros k Hk. unfold dict_keys in Hk. apply in_map_iff in Hk as ([k' v] & Heq & Hkv).
      simpl in Heq. subst k'.
      destruct (flatten_items_In _ _ _ _ Hkv) as [[]|(key & value & Hreg & Hcase)].
      assert (Hform : exists a b, key = a ++ String "_" b).
      { pose proof (Hne _ Hreg) as Hv. simpl in Hv.
        destruct value as [|u value']; [congruence|].
        destruct (Hin key (u :: value') u Hreg (or_introl eq_refl))
          as [(_ & ds' & s' & p' & _ & _ & _ & -> & _)|(v0 & [] & _)].
        exists s', p'. reflexivity. }
      destruct Hform as (a & b & ->).
      destruct Hcase as [(_ & -> & _)|(_ & i & u & _ & -> & _)].
      - apply model_source_found.
      - change ((a ++ String "_" b) ++ "_" ++ str_of_nat i)
          with ((a ++ String "_" b) ++ String "_" (str_of_nat i)).
        apply model_source_found. }
    destruct (mapM_all_ok _ _ Hkeys) as [sources Hm].
    (* one of them has the source of the historical run *)
    destruct (Hall url ds Hurl Hopen Hcov) as (k0 & v0 & Hk0 & Hu0).
    assert (Hk0form : exists pv, k0 = modelHistID ++ String "_" pv).
    { destruct (Hin k0 v0 url Hk0 Hu0)
        as [(_ & ds' & s' & p' & Hopen' & Hs' & _ & -> & _)|(? & [] & _)].
      rewrite Hopen in Hopen'. inversion Hopen'; subst ds'.
      rewrite Hdsrc in Hs'. inversion Hs'; subst s'. exists p'. reflexivity. }
    destruct Hk0form as [pv ->].
    pose proof (flatten_items_has_key reg [] _ _ Hk0) as Hflatkey. fold flat in Hflatkey.
    assert (Hsame : exists kf, In kf (dict_keys flat) /\ model_source kf = inr modelHistID).
    { eexists. split; [exact Hflatkey|].
      destruct (1 <? length v0)%nat.
      - rewrite append_assoc. apply model_source_prefix, Hclean.
      - apply model_source_prefix, Hclean. }
    destruct Hsame as (kf & Hkf & Hkfsrc).
    apply In_nth_error in Hkf as [i Hi].
    destruct (mapM_nth _ _ _ _ _ Hm Hi) as (src & Hnth & Hms).
    assert (src = modelHistID) by congruence. subst src.
    pose proof (mapM_length _ _ _ Hm) as Hlen.
    set (mask := map (fun modelID => String.eqb modelID modelHistID) sources).
    set (indicesMatch :=
           map fst (List.filter (fun p : nat * bool => snd p)
                                (combine (seq 0 (length (dict_keys flat))) mask))).
    assert (Hmasklen : length (dict_keys flat) = length mask).
    { unfold mask. rewrite length_map. symmetry. exact Hlen. }
    assert (Hidx : In i indicesMatch).
    { unfold indicesMatch. apply in_map_iff. exists (i, true). split; [reflexivity|].
      apply filter_In. split; [|reflexivity]. rewrite Hmasklen.
      apply (combine_seq_In mask 0 i true). unfold mask.
      rewrite nth_error_map, Hnth. simpl. rewrite String.eqb_refl. reflexivity. }
    assert (Hnonempty : indicesMatch <> []).
    { intros Hnil. rewrite Hnil in Hidx. contradiction. }
    destruct (random_choice_total entropy indicesMatch Hnonempty) as [choice Hchoice].
    assert (Hrange : exists k, nth_error (dict_keys flat) choice = Some k).
    { pose proof (random_choice_In _ _ _ Hchoice) as Hc. unfold indicesMatch in Hc.
      apply in_map_iff in Hc as ([c flag] & Hcf & Hc). simpl in Hcf. subst c.
      apply filter_In in Hc as [Hc _]. rewrite Hmasklen in Hc.
      apply in_combine_seq in Hc as [_ Hc].
      assert (Hlt : (choice < length (dict_keys flat))%nat).
      { rewrite Hmasklen. apply nth_error_Some. rewrite Nat.sub_0_r in Hc. congruence. }
      apply nth_error_Some in Hlt.
      destruct (nth_error (dict_keys flat) choice) as [k|]; [eauto|congruence]. }
    destruct Hrange as [k Hk].
    assert (Hrun' : choose_random modelInput reg entropy = inr (k, flat)).
    { unfold choose_random, dict_item. rewrite Hsrc, Hrun. cbn [rbind]. fold flat.
      rewrite Hm. cbn [rbind]. fold mask. fold indicesMatch. rewrite Hchoice.
      cbn [rbind]. unfold list_item. rewrite Hk. reflexivity. }
    exists k. split; [exact Hrun'|].
    destruct (choose_random_source _ _ _ _ _ _ Hrun') as (_ & _ & src' & Hsrc' & Hms').
    congruence.
Qed.

End Build.

Lemma built_registry_serves_the_resolver_witness :
  exists scenarioRandom,
    choose_random other_hist_run
      [("ACCESS-CM2_r1i1p1f1", ["a.nc"; "b.nc"]); ("ACCESS-CM2_r2i1p1f1", ["c.nc"])] 5 =
    inr (scenarioRandom,
         flatten_items [("ACCESS-CM2_r1i1p1f1", ["a.nc"; "b.nc"]);
                        ("ACCESS-CM2_r2i1p1f1", ["c.nc"])] []) /\
    model_source scenarioRandom = inr "ACCESS-CM2".
Proof.
  apply (proj2 (built_registry_serves_the_resolver nat scenario_store
                  ["late.nc"; "a.nc"; "c.nc"; "b.nc"]
                  [("ACCESS-CM2_r1i1p1f1", ["a.nc"; "b.nc"]); ("ACCESS-CM2_r2i1p1f1", ["c.nc"])]
                  other_hist_run "ACCESS-CM2" "r9i1p1f1" eq_refl)).
  - reflexivity.
  - reflexivity.
  - reflexivity.
  - exists "a.nc", (good_scenario "r1i1p1f1"). repeat split.
    right. left. reflexivity.
Defined.

End Pipeline.

(** ** Monthly anomalies *)

Module ClimatologyFacts.

Import Numerics Gradient Continuity Fit Climatology.

Local Open Scope Q_scope.

Lemma length_mapi_from {A B} n (f : nat -> A -> B) l :
  length (mapi_from n f l) = length l.
Proof.
  revert n. induction l as [|x l IH]; intros n; simpl; [reflexivity|].
  rewrite IH. reflexivity.
Qed.

Lemma nth_mapi_from {A B} n (f : nat -> A -> B) l i d d' :
  (i < length l)%nat -> nth i (mapi_from n f l) d' = f (n + i)%nat (nth i l d).
Proof.
  revert n i. induction l as [|x l IH]; intros n i Hi; simpl in Hi; [lia|].
  destruct i as [|i]; simpl.
  - rewrite Nat.add_0_r. reflexivity.
  - rewrite IH by lia. f_equal. lia.
Qed.

Lemma cell_at_anomaly da p i j :
  in_grid i j (snd p) ->
  cell_at (anomaly da p) i j = cell_at (snd p) i j - climatology da (d_month (fst p)) i j.
Proof.
  intros [Hi Hj]. unfold cell_at, anomaly.
  rewrite (nth_mapi_from _ _ _ _ [] []) by exact Hi.
  rewrite (nth_mapi_from _ _ _ _ 0 0) by exact Hj. reflexivity.
Qed.

Lemma in_grid_anomaly da p i j : in_grid i j (snd p) -> in_grid i j (anomaly da p).
Proof.
  intros [Hi Hj]. unfold in_grid, anomaly. rewrite length_mapi_from.
  split; [exact Hi|]. rewrite (nth_mapi_from _ _ _ _ [] []) by exact Hi.
  rewrite length_mapi_from. exact Hj.
Qed.

Lemma combine_map_pair {A B C} (g : A * B -> C) (l : list A) (v : list B) :
  combine l (map g (combine l v)) = map (fun p => (fst p, g p)) (combine l v).
Proof.
  revert v. induction l as [|a l IH]; intros [|b v]; try reflexivity.
  simpl. rewrite IH. reflexivity.
Qed.

Lemma steps_anomalies fd :
  steps (fd_ts (RemoveClimatology fd)) =
  map (fun p => (fst p, anomaly (fd_ts fd) p)) (steps (fd_ts fd)).
Proof. unfold RemoveClimatology, steps. simpl. apply combine_map_pair. Qed.

Lemma rectangular_in_grid da i j p :
  rectangular da = true -> (i < length (da_lat da))%nat -> (j < length (da_lon da))%nat ->
  In p (steps da) -> in_grid i j (snd p).
Proof.
  unfold rectangular, well_shaped, steps. intros Hrect Hi Hj Hp.
  apply andb_true_iff in Hrect as [_ Hshape]. rewrite forallb_forall in Hshape.
  destruct p as [t slab]. apply in_combine_r in Hp. simpl.
  specialize (Hshape slab Hp). apply andb_true_iff in Hshape as [Hrows Hcols].
  apply Nat.eqb_eq in Hrows. rewrite forallb_forall in Hcols.
  split; [lia|].
  assert (Hrow : In (nth i slab []) slab) by (apply nth_In; lia).
  specialize (Hcols _ Hrow). apply Nat.eqb_eq in Hcols. lia.
Qed.

Lemma monthly_values_anomalies fd m i j :
  (forall p, In p (steps (fd_ts fd)) -> in_grid i j (snd p)) ->
  monthly_values (fd_ts (RemoveClimatology fd)) m i j =
  map (fun x => x - climatology (fd_ts fd) m i j) (monthly_values (fd_ts fd) m i j).
Proof.
  intros Hgrid. unfold monthly_values. rewrite steps_anomalies.
  induction (steps (fd_ts fd)) as [|p l IH]; [reflexivity|].
  cbn [map List.filter fst].
  destruct (Z.eqb_spec (d_month (fst p)) m) as [Hm|Hm].
  - cbn [map snd]. rewrite IH by (intros q Hq; apply Hgrid; right; exact Hq).
    rewrite cell_at_anomaly by (apply Hgrid; left; reflexivity).
    rewrite Hm. reflexivity.
  - apply IH. intros q Hq. apply Hgrid. right. exact Hq.
Qed.

Lemma Qsum_minus_mean (ys : list Q) :
  Qsum (map (fun x => x - Qsum ys / Qlen ys) ys) == 0.
Proof.
  assert (Hgen : forall c l, Qsum (map (fun x => x - c) l) == Qsum l - Qlen l * c).
  { intros c l. induction l as [|y l IH].
    - unfold Qlen. simpl. ring.
    - cbn [map]. rewrite !Qsum_cons, IH, Qlen_cons. ring. }
  rewrite Hgen. destruct ys as [|y ys].
  - unfold Qlen. simpl. ring.
  - field. unfold Qlen. simpl length. rewrite Nat2Z.inj_succ. intros H.
    assert (Hpos : 0 < inject_Z (Z.succ (Z.of_nat (length ys)))).
    { change 0 with (inject_Z 0). rewrite <- Zlt_Qlt. lia. }
    rewrite H in Hpos. apply (Qlt_irrefl 0 Hpos).
Qed.

Lemma rectangular_anomalies fd :
  rectangular (fd_ts fd) = true -> rectangular (fd_ts (RemoveClimatology fd)) = true.
Proof.
  unfold rectangular, well_shaped, RemoveClimatology, steps. simpl. intros H.
  apply andb_true_iff in H as [Hlen Hshape]. apply Nat.eqb_eq in Hlen.
  rewrite forallb_forall in Hshape. apply andb_true_iff. split.
  - apply Nat.eqb_eq. rewrite length_map, length_combine. lia.
  - apply forallb_forall. intros slab Hslab.
    apply in_map_iff in Hslab as ([t slab0] & <- & Hin).
    apply in_combine_r in Hin. specialize (Hshape slab0 Hin).
    apply andb_true_iff in Hshape as [Hrows Hcols]. rewrite forallb_forall in Hcols.
    unfold anomaly. cbn [snd fst]. rewrite length_mapi_from, Hrows. cbn [andb].
    apply forallb_forall. intros row Hrow.
    apply In_nth with (d := []) in Hrow as (i & Hi & <-).
    rewrite length_mapi_from in Hi.
    rewrite (nth_mapi_from _ _ _ _ [] []) by exact Hi. rewrite length_mapi_from.
    apply Hcols. apply nth_In. exact Hi.
Qed.

Lemma anomalies_zero_climatology fd m i j :
  rectangular (fd_ts fd) = true ->
  (i < length (da_lat (fd_ts fd)))%nat -> (j < length (da_lon (fd_ts fd)))%nat ->
  climatology (fd_ts (RemoveClimatology fd)) m i j == 0.
Proof.
  intros Hrect Hi Hj. unfold climatology at 1.
  rewrite monthly_values_anomalies
    by (intros p Hp; apply (rectangular_in_grid (fd_ts fd) i j p Hrect Hi Hj Hp)).
  unfold climatology.
  rewrite (Qsum_minus_mean (monthly_values (fd_ts fd) m i j)). unfold Qdiv. ring.
Qed.

(** X20. After [RemoveClimatology] the values of every cell add up to
    zero over the time steps of each calendar month, so the monthly mean
    that was subtracted is gone; the attributes, the coordinates and the
    shape of the data are kept. *)
Theorem anomalies_have_zero_monthly_mean (fd : FieldDataset) (m : Z) (i j : nat) :
  rectangular (fd_ts fd) = true ->
  (i < length (da_lat (fd_ts fd)))%nat -> (j < length (da_lon (fd_ts fd)))%nat ->
  Qsum (monthly_values (fd_ts (RemoveClimatology fd)) m i j) == 0 /\
  climatology (fd_ts (RemoveClimatology fd)) m i j == 0 /\
  fd_attrs (RemoveClimatology fd) = fd_attrs fd /\
  da_time (fd_ts (RemoveClimatology fd)) = da_time (fd_ts fd) /\
  rectangular (fd_ts (RemoveClimatology fd)) = true.
Proof.
  intros Hrect Hi Hj.
  assert (Hsum : Qsum (monthly_values (fd_ts (RemoveClimatology fd)) m i j) == 0).
  { rewrite monthly_values_anomalies
      by (intros p Hp; apply (rectangular_in_grid (fd_ts fd) i j p Hrect Hi Hj Hp)).
    apply Qsum_minus_mean. }
  split; [exact Hsum|]. split.
  - unfold climatology. rewrite Hsum. unfold Qdiv. ring.
  - split; [reflexivity|]. split; [reflexivity|]. apply rectangular_anomalies, Hrect.
Qed.

Lemma anomalies_have_zero_monthly_mean_witness :
  Qsum (monthly_values (fd_ts (RemoveClimatology two_years)) 2 0 1) == 0.
Proof.
  apply (anomalies_have_zero_monthly_mean two_years 2 0 1).
  - reflexivity.
  - simpl. lia.
  - simpl. lia.
Defined.

(** X21. Removing the climatology a second time changes nothing: at
    every time step every cell keeps the anomaly it had. *)
Theorem RemoveClimatology_idempotent (fd : FieldDataset) (t i j : nat)
    (once twice : list (list Q)) :
  rectangular (fd_ts fd) = true ->
  (i < length (da_lat (fd_ts fd)))%nat -> (j < length (da_lon (fd_ts fd)))%nat ->
  nth_error (da_values (fd_ts (RemoveClimatology fd))) t = Some once ->
  nth_error (da_values (fd_ts (RemoveClimatology (RemoveClimatology fd)))) t = Some twice ->
  cell_at twice i j == cell_at once i j.
Proof.
  intros Hrect Hi Hj Honce Htwice.
  set (fd1 := RemoveClimatology fd) in *.
  assert (Hvals : forall f, da_values (fd_ts (RemoveClimatology f)) =
                            map (anomaly (fd_ts f)) (steps (fd_ts f))) by reflexivity.
  rewrite Hvals in Htwice. unfold fd1 in Htwice at 2. rewrite steps_anomalies in Htwice.
  rewrite map_map, nth_error_map in Htwice.
  unfold fd1 in Honce. rewrite Hvals, nth_error_map in Honce.
  destruct (nth_error (steps (fd_ts fd)) t) as [p|] eqn:Hp; [|discriminate].
  simpl in Honce, Htwice. inversion Honce; inversion Htwice; subst once twice.
  pose proof (rectangular_in_grid (fd_ts fd) i j p Hrect Hi Hj (nth_error_In _ _ Hp)) as Hg.
  rewrite cell_at_anomaly by (apply in_grid_anomaly, Hg). cbn [fst snd].
  rewrite (anomalies_zero_climatology fd (d_month (fst p)) i j Hrect Hi Hj). ring.
Qed.

Lemma RemoveClimatology_idempotent_witness :
  cell_at (nth 3 (da_values (fd_ts (RemoveClimatology (RemoveClimatology two_years)))) []) 0 1
  == cell_at (nth 3 (da_values (fd_ts (RemoveClimatology two_years))) []) 0 1.
Proof.
  apply (RemoveClimatology_idempotent two_years 3 0 1).
  - reflexivity.
  - simpl. lia.
  - simpl. lia.
  - reflexivity.
  - reflexivity.
Defined.

End ClimatologyFacts.


(** ** Failures of [ExtendPeriod] before any file is opened *)

Module ResolverErrors.

Import Continuity Classify Resolver.

Lemma str_index_absent c s : no_char c s = true -> str_index c s = inl ValueError.
Proof.
  induction s as [|a s IH]; simpl; [reflexivity|]. intros H.
  apply andb_true_iff in H as [Ha Hs]. apply negb_true_iff in Ha.
  rewrite Ha, (IH Hs). reflexivity.
Qed.

Lemma str_index_only_ValueError c s e : str_index c s = inl e -> e = ValueError.
Proof.
  induction s as [|a s IH]; simpl; intros H.
  - inversion H. reflexivity.
  - destruct (Ascii.eqb a c); [discriminate|].
    destruct (str_index c s) as [e'|i]; [|discriminate].
    simpl in H. inversion H; subst. apply IH. reflexivity.
Qed.

Lemma mapM_model_source_fails (keys : list string) (k : string) :
  In k keys -> no_char "_" k = true -> mapM model_source keys = inl ValueError.
Proof.
  induction keys as [|k0 keys IH]; intros Hin Hk; [destruct Hin|].
  simpl. unfold model_source at 1.
  destruct (str_index "_" k0) as [e|i] eqn:Hi.
  - rewrite (str_index_only_ValueError _ _ _ Hi). reflexivity.
  - cbn [rbind]. destruct Hin as [->|Hin].
    + rewrite (str_index_absent _ _ Hk) in Hi. discriminate.
    + rewrite (IH Hin Hk). reflexivity.
Qed.

Section WithLoader.

Context {Payload : Type}.
Variable ModelInput_ds : string -> Result (Dataset Payload).

(** X22. Three ways in which [ExtendPeriod] fails before it opens any
    file, whatever the state of the random source: IndexError when the key
    is in the registry with an empty list of candidates; KeyError when the
    key is absent and the historical run lacks the attribute source_id or
    variant_label; ValueError when the key is absent, the two attributes
    are there and some key of the flattened registry holds no underscore,
    even if other keys are of the run's own source. *)
Theorem ExtendPeriod_failures (key : string) (modelInput : Dataset Payload)
    (scenarioModels : Dict (list string)) (entropy : nat) :
  (dict_get key scenarioModels = Some [] ->
   ExtendPeriod ModelInput_ds key modelInput scenarioModels entropy = inl IndexError) /\
  (dict_mem key scenarioModels = false ->
   dict_get "source_id" (attrs modelInput) = None \/
   dict_get "variant_label" (attrs modelInput) = None ->
   ExtendPeriod ModelInput_ds key modelInput scenarioModels entropy = inl KeyError) /\
  (dict_mem key scenarioModels = false ->
   forall modelHistID runHist k,
     dict_get "source_id" (attrs modelInput) = Some modelHistID ->
     dict_get "variant_label" (attrs modelInput) = Some runHist ->
     In k (dict_keys (flatten_items scenarioModels [])) ->
     no_char "_" k = true ->
     ExtendPeriod ModelInput_ds key modelInput scenarioModels entropy = inl ValueError).
Proof.
  unfold ExtendPeriod. split; [|split].
  - intros Hget.
    assert (Hmem : dict_mem key scenarioModels = true)
      by (apply dict_mem_get; eauto).
    rewrite Hmem. unfold dict_item. rewrite Hget. reflexivity.
  - intros Hkey [H|H]; rewrite Hkey; unfold choose_random, dict_item.
    + rewrite H. reflexivity.
    + destruct (dict_get "source_id" (attrs modelInput)); [|reflexivity].
      cbn [rbind]. rewrite H. reflexivity.
  - intros Hkey modelHistID runHist k Hsrc Hrun Hin Hk. rewrite Hkey.
    unfold choose_random, dict_item. rewrite Hsrc, Hrun. cbn [rbind].
    rewrite (mapM_model_source_fails _ k Hin Hk). reflexivity.
Qed.

End WithLoader.

Lemma ExtendPeriod_failures_witness :
  ExtendPeriod Samples.loader "CanESM5_r9i1p1f1" Samples.hist_run
    Orphans.loose_registry 3 = inl IndexError /\
  ExtendPeriod Samples.loader "MIROC6_r1i1p1f1" Orphans.unlabelled_run
    Samples.registry 3 = inl KeyError /\
  ExtendPeriod Samples.loader "MIROC6_r1i1p1f1" Samples.hist_run
    Orphans.loose_registry 3 = inl ValueError.
Proof.
  split; [|split].
  - apply (proj1 (ExtendPeriod_failures Samples.loader "CanESM5_r9i1p1f1"
                    Samples.hist_run Orphans.loose_registry 3)).
    reflexivity.
  - apply (proj1 (proj2 (ExtendPeriod_failures Samples.loader "MIROC6_r1i1p1f1"
                           Orphans.unlabelled_run Samples.registry 3))).
    + reflexivity.
    + right. reflexivity.
  - apply (proj2 (proj2 (ExtendPeriod_failures Samples.loader "MIROC6_r1i1p1f1"
                           Samples.hist_run Orphans.loose_registry 3))
             eq_refl "ACCESS-CM2"%string "r1i1p1f1"%string "FGOALS"%string).
    + reflexivity.
    + reflexivity.
    + vm_compute. right. right. left. reflexivity.
    + reflexivity.
Defined.

End ResolverErrors.
